(** * mylifeai: the reactive store, the lazy-import retry, the error boundary,
    the error reporting service, the auth store and the login schema

    A shallow embedding of the parts of the front end that carry behaviour:
    - [shared/stores/createStore.ts]: [createStore], [setState], [subscribe],
      [destroy], [shallowEqual], [createActions], and the middleware
      [errorBoundaryMiddleware], [batchingMiddleware] and
      [advancedPersistenceMiddleware];
    - [features/auth/stores/authStore.ts]: [authStore] and its actions;
    - the lazy loading module ([createLazyComponent]): [retryImport];
    - [shared/components/ErrorBoundary/AdvancedErrorBoundary.tsx];
    - [shared/services/errorReporting.ts]: [reportError], [storeError],
      [determineSeverity], [generateFingerprint], [getErrorStats],
      [flushPendingErrors], [reportPerformanceIssue];
    - [entities/auth/login.schema.ts]: [loginSchema].

    JavaScript objects used as records are finite maps from property names to
    values; mutable closure variables and the browser objects the code talks
    to ([localStorage], the console, timers) are fields of an explicit state
    that every operation takes and returns. *)

From Stdlib Require Import ZArith QArith Qpower Lqa Ascii.
From stdpp Require Import base gmap strings list fin_maps pretty.


(** ** JavaScript values *)

(** A value held in a store field.  Objects, arrays, functions and [Error]
    instances are references ([VRef], an address): the store never looks inside
    them, it only compares them with [Object.is].  Numbers are the integers,
    which is all the stores of this program hold. *)
Inductive value : Type :=
  | VUndefined
  | VNull
  | VBool (b : bool)
  | VNum (n : Z)
  | VStr (s : string)
  | VRef (address : positive).

#[global] Instance value_eq_dec : EqDecision value.
Proof. solve_decision. Defined.

(** [Object.is]: same primitive, or same reference. *)
Definition Object_is (a b : value) : bool := bool_decide (a = b).

(** A plain object: own enumerable string-keyed properties. *)
Abbreviation obj := (gmap string value).

(** [{ ...a, ...b }]: the properties of [a], overridden and extended by
    those of [b]. *)
Definition spread (a b : obj) : obj := b ∪ a.

(** [Object.keys(o)]. *)
Definition Object_keys (o : obj) : list string := (map_to_list o).*1.

(** [Object.prototype.hasOwnProperty.call(o, key)]. *)
Definition hasOwnProperty (o : obj) (key : string) : bool :=
  bool_decide (is_Some (o !! key)).

(** [o[key]]: [undefined] for a property that is not there. *)
Definition prop (o : obj) (key : string) : value := default VUndefined (o !! key).

(** The [for (const key of keysA)] loop of [shallowEqual]. *)
Fixpoint shallowEqual_loop (a b : obj) (keysA : list string) : bool :=
  match keysA with
  | [] => true
  | key :: rest =>
      if negb (hasOwnProperty b key) || negb (Object_is (prop a key) (prop b key))
      then false
      else shallowEqual_loop a b rest
  end.

(** [shallowEqual(a, b)] on two objects.  The first test of the source,
    [Object.is(a, b)], answers [true] only for one and the same object, for
    which the comparison of the keys below answers [true] as well; the second
    test ([typeof ... !== 'object']) is false for objects. *)
Definition shallowEqual (a b : obj) : bool :=
  let keysA := Object_keys a in
  let keysB := Object_keys b in
  if negb (length keysA =? length keysB) then false
  else shallowEqual_loop a b keysA.

(** ** The browser's [localStorage] *)

(** The stored items and the room the browser grants them.  [setItem] throws
    [QuotaExceededError] when the items would outgrow it. *)
Record Storage : Type := mkStorage {
  items : gmap string string;
  quota : nat
}.

Definition storage_size (m : gmap string string) : nat :=
  map_fold (λ key text n, String.length key + String.length text + n) 0 m.

(** [localStorage.getItem(key)]: [None] is JavaScript's [null]. *)
Definition getItem (ls : Storage) (key : string) : option string := items ls !! key.

(** [localStorage.setItem(key, text)]: [None] when it throws. *)
Definition setItem (ls : Storage) (key text : string) : option Storage :=
  let items' := <[key := text]> (items ls) in
  if decide (storage_size items' ≤ quota ls)
  then Some (mkStorage items' (quota ls))
  else None.

(** [localStorage.removeItem(key)]. *)
Definition removeItem (ls : Storage) (key : string) : Storage :=
  mkStorage (delete key (items ls)) (quota ls).

(** ** What the code takes from its platform *)

(** [JSON.stringify] and [JSON.parse] on store states, and two facts of the
    page.  [JSON_stringify] is [None] when it throws (a cycle, a BigInt).
    [JSON_parse] is [None] when [JSON.parse] throws, and otherwise the own
    enumerable properties of the parsed value, which is all that the spread
    [{ ...state, ...JSON.parse(persisted) }] takes from it (none for a number,
    a boolean or [null]). *)
Record Platform : Type := mkPlatform {
  JSON_stringify : obj → option string;
  JSON_parse : string → option obj;
  NODE_ENV_development : bool;          (* process.env.NODE_ENV === 'development' *)
  REDUX_DEVTOOLS_EXTENSION : bool       (* window.__REDUX_DEVTOOLS_EXTENSION__ is there *)
}.

(** ** The store ([createStore]) *)

Module Store.

(** A subscribed callback, known by its identity.  Calling it is recorded in
    [calls]; what the callback then does is up to the subscriber. *)
Definition Listener : Type := nat.

(** [StoreOptions] without [middleware]: the store modelled here is the object
    [{ getState, setState, subscribe, destroy }] that [createStore] builds
    before any middleware wraps it. *)
Record StoreOptions : Type := mkOptions {
  opt_name : option string;
  opt_persistKey : option string;
  opt_devtools : option bool
}.

(** The constants of the closure of one store. *)
Record Store : Type := mkStore {
  name : string;
  persistKey : option string;
  devtools : bool
}.

(** The variables of the closure and the part of the browser the store acts
    on.  The model is a page in a browser: [typeof window !== 'undefined']
    holds. *)
Record Sys : Type := mkSys {
  state : obj;                         (* let state *)
  listeners : list Listener;           (* const listeners = new Set(), in insertion order *)
  localStorage : Storage;
  calls : list Listener;               (* listener() calls made so far, oldest first *)
  warnings : list string;              (* console.warn *)
  devtools_sent : list (obj * obj)     (* devtools.send('setState', { prevState, newState, .. }) *)
}.

Definition with_state (s : obj) (w : Sys) : Sys :=
  mkSys s (listeners w) (localStorage w) (calls w) (warnings w) (devtools_sent w).
Definition with_listeners (l : list Listener) (w : Sys) : Sys :=
  mkSys (state w) l (localStorage w) (calls w) (warnings w) (devtools_sent w).
Definition with_localStorage (ls : Storage) (w : Sys) : Sys :=
  mkSys (state w) (listeners w) ls (calls w) (warnings w) (devtools_sent w).
Definition with_calls (c : list Listener) (w : Sys) : Sys :=
  mkSys (state w) (listeners w) (localStorage w) c (warnings w) (devtools_sent w).
Definition console_warn (text : string) (w : Sys) : Sys :=
  mkSys (state w) (listeners w) (localStorage w) (calls w) (warnings w ++ [text])
        (devtools_sent w).
Definition devtools_send (prevState newState : obj) (w : Sys) : Sys :=
  mkSys (state w) (listeners w) (localStorage w) (calls w) (warnings w)
        (devtools_sent w ++ [(prevState, newState)]).

(** [persistKey && ...]: an absent key and the empty string are falsy. *)
Definition truthy (key : option string) : option string :=
  match key with
  | Some "" => None
  | Some k => Some k
  | None => None
  end.

(** The argument of [setState]: an object, or a function of the state. *)
Inductive Partial : Type :=
  | PartialObject (partial : obj)
  | PartialFunction (partial : obj → obj).

(** The [// Persist state] block of [setState]. *)
Definition persist (P : Platform) (st : Store) (w : Sys) : Sys :=
  match truthy (persistKey st) with
  | Some key =>
      match JSON_stringify P (state w) with
      | Some text =>
          match setItem (localStorage w) key text with
          | Some ls => with_localStorage ls w
          | None => console_warn ("Failed to persist state for " +:+ name st +:+ ":") w
          end
      | None => console_warn ("Failed to persist state for " +:+ name st +:+ ":") w
      end
  | None => w
  end.

(** [listeners.forEach((listener) => listener())] for listeners that return;
    [call_listeners] below has those that throw. *)
Definition notify (w : Sys) : Sys := with_calls (calls w ++ listeners w) w.

(** The [// DevTools integration] block of [setState]. *)
Definition devtools_report (P : Platform) (st : Store) (prevState newState : obj)
    (w : Sys) : Sys :=
  if devtools st && REDUX_DEVTOOLS_EXTENSION P
  then devtools_send prevState newState w
  else w.

Definition getState (w : Sys) : obj := state w.

(** [typeof partial === 'function' ? partial(state) : partial]. *)
Definition resolve (partial : Partial) (state : obj) : obj :=
  match partial with
  | PartialFunction f => f state
  | PartialObject p => p
  end.

Definition setState (P : Platform) (st : Store) (partial : Partial) (w : Sys) : Sys :=
  let nextState := resolve partial (state w) in
  let newState := spread (state w) nextState in
  if negb (shallowEqual (state w) newState) then
    let prevState := state w in
    let w := with_state newState w in
    let w := persist P st w in
    let w := notify w in
    devtools_report P st prevState newState w
  else w.

(** [listeners.add(listener)]: a set, so an element is added once. *)
Definition subscribe (listener : Listener) (w : Sys) : Sys :=
  if bool_decide (listener ∈ listeners w) then w
  else with_listeners (listeners w ++ [listener]) w.

(** The function [subscribe] returns: [listeners.delete(listener)]. *)
Definition unsubscribe (listener : Listener) (w : Sys) : Sys :=
  with_listeners (filter (λ l, l ≠ listener) (listeners w)) w.

Definition destroy (st : Store) (w : Sys) : Sys :=
  let w := with_listeners [] w in
  match truthy (persistKey st) with
  | Some key => with_localStorage (removeItem (localStorage w) key) w
  | None => w
  end.

(** The [// Load persisted state] block of [createStore]: the state to start
    from, and whether the [catch] ran. *)
Definition load_persisted (P : Platform) (key : option string) (ls : Storage)
    (initialState : obj) : obj * bool :=
  match truthy key with
  | Some key =>
      match getItem ls key with
      | Some persisted =>
          if bool_decide (persisted = "") then (initialState, false)
          else match JSON_parse P persisted with
               | Some parsed => (spread initialState parsed, false)
               | None => (initialState, true)
               end
      | None => (initialState, false)
      end
  | None => (initialState, false)
  end.

(** [createStore(initialState, options)] in a page whose storage is [ls], for
    options without [middleware] (none given, or an empty array): the object
    built is then returned as it is.  What the middleware of this library
    makes of its [setState] is further down. *)
Definition createStore (P : Platform) (initialState : obj) (options : StoreOptions)
    (ls : Storage) : Store * Sys :=
  let name := default "store" (opt_name options) in
  let persistKey := opt_persistKey options in
  let devtools := default (NODE_ENV_development P) (opt_devtools options) in
  let '(state, failed) := load_persisted P persistKey ls initialState in
  let warnings :=
    if failed then ["Failed to load persisted state for " +:+ name +:+ ":"] else [] in
  (mkStore name persistKey devtools, mkSys state [] ls [] warnings []).

(** *** [createActions] *)

(** An [async] function given to an action, with its arguments of type
    [Args]: everything that happens from its call to the moment its promise
    settles, and how it settles, [inl result] when resolved and [inr error]
    when rejected. *)
Definition AsyncFn (Args Result : Type) : Type := Args → Sys → Sys * (Result + value).

Definition loadingKey (name : string) : string := name +:+ "Loading".
Definition errorKey (name : string) : string := name +:+ "Error".

(** [{ [loadingKey]: l, [errorKey]: e }]. *)
Definition loading_error (name : string) (l e : value) : obj :=
  <[errorKey name := e]> (<[loadingKey name := l]> ∅).

(** The part of the async action that runs before [asyncFn] is called. *)
Definition async_begin (P : Platform) (st : Store) (name : string) (w : Sys) : Sys :=
  setState P st (PartialObject (loading_error name (VBool true) VNull)) w.

(** The part that runs when the promise of [asyncFn] has settled. *)
Definition async_settle {Result} (P : Platform) (st : Store) (name : string)
    (settled : Sys * (Result + value)) : Sys * (Result + value) :=
  match settled with
  | (w, inl result) =>
      (setState P st (PartialObject (<[loadingKey name := VBool false]> ∅)) w, inl result)
  | (w, inr error) =>
      (setState P st (PartialObject (loading_error name (VBool false) error)) w, inr error)
  end.

Definition createAsyncAction {Args Result} (P : Platform) (st : Store) (name : string)
    (asyncFn : AsyncFn Args Result) (args : Args) (w : Sys) : Sys * (Result + value) :=
  async_settle P st name (asyncFn args (async_begin P st name w)).

(** The part of the optimistic action that runs before [asyncFn] is called:
    [currentState] and the system after the optimistic update.
    [startTransition] calls its argument at once. *)
Definition optimistic_begin {Args} (P : Platform) (st : Store)
    (optimisticUpdate : obj → Args → obj) (args : Args) (w : Sys) : obj * Sys :=
  let currentState := getState w in
  (currentState, setState P st (PartialObject (optimisticUpdate currentState args)) w).

(** The part that runs when the promise of [asyncFn] has settled. *)
Definition optimistic_settle {Result} (P : Platform) (st : Store) (currentState : obj)
    (settled : Sys * (Result + value)) : Sys * (Result + value) :=
  match settled with
  | (w, inl result) => (w, inl result)
  | (w, inr error) => (setState P st (PartialObject currentState) w, inr error)
  end.

Definition createOptimisticAction {Args Result} (P : Platform) (st : Store)
    (_name : string) (optimisticUpdate : obj → Args → obj)
    (asyncFn : AsyncFn Args Result) (args : Args) (w : Sys) : Sys * (Result + value) :=
  let '(currentState, w) := optimistic_begin P st optimisticUpdate args w in
  optimistic_settle P st currentState (asyncFn args w).

(** [createActions(store).createAsyncAction] for a [store] that middleware
    has wrapped.  Such a store keeps more than a [Sys] (a queue of updates,
    say): [W] is all of it, and [store_setState] the [setState] that the
    middleware has put in the place of the one above. *)
Definition createAsyncAction_wrapped {W Args Result : Type}
    (store_setState : Partial → W → W) (name : string)
    (asyncFn : Args → W → W * (Result + value)) (args : Args) (w : W)
    : W * (Result + value) :=
  match asyncFn args
          (store_setState (PartialObject (loading_error name (VBool true) VNull)) w) with
  | (w, inl result) =>
      (store_setState (PartialObject (<[loadingKey name := VBool false]> ∅)) w, inl result)
  | (w, inr error) =>
      (store_setState (PartialObject (loading_error name (VBool false) error)) w, inr error)
  end.

(** *** Listeners that throw, and [errorBoundaryMiddleware]

    [setState] lets an exception of a listener through.  [throws] tells which
    listeners throw when called. *)

(** [listeners.forEach((listener) => listener())] when listeners may throw:
    the listeners called, the last of them being the one that threw, if any. *)
Fixpoint call_listeners (throws : Listener → bool) (ls : list Listener)
    : list Listener * bool :=
  match ls with
  | [] => ([], false)
  | l :: rest =>
      if throws l then ([l], true)
      else let '(called, threw) := call_listeners throws rest in (l :: called, threw)
  end.

(** [setState] with such listeners: the system after the call, and whether
    the call threw. *)
Definition setState_throwing (P : Platform) (st : Store) (throws : Listener → bool)
    (partial : Partial) (w : Sys) : Sys * bool :=
  let nextState := resolve partial (state w) in
  let newState := spread (state w) nextState in
  if negb (shallowEqual (state w) newState) then
    let prevState := state w in
    let w := with_state newState w in
    let w := persist P st w in
    let '(called, threw) := call_listeners throws (listeners w) in
    let w := with_calls (calls w ++ called) w in
    if threw then (w, true)
    else (devtools_report P st prevState newState w, false)
  else (w, false).

(** [errorBoundaryMiddleware(store).setState(partial)]: the system, the
    lines of [console.error] (their words, without the sign before them), and
    whether the error is thrown on. *)
Definition errorBoundary_setState (P : Platform) (st : Store)
    (throws : Listener → bool) (partial : Partial) (w : Sys)
    : Sys * list string * bool :=
  match setState_throwing P st throws partial w with
  | (w, false) => (w, [], false)
  | (w, true) =>
      (* Try to recover with previous state *)
      match setState_throwing P st throws (PartialObject ∅) w with
      | (w, false) => (w, ["Store update error:"], true)
      | (w, true) =>
          (w, ["Store update error:"; "Failed to recover store state:"], true)
      end
  end.

(** *** [batchingMiddleware] *)

(** The variables of its closure, and the tasks it has handed to the browser
    ([scheduler.postTask] or [queueMicrotask]) that have not run yet. *)
Record Batch : Type := mkBatch {
  pendingUpdates : list obj;
  updateScheduled : bool;
  flush_tasks : nat
}.

Definition no_batch : Batch := mkBatch [] false 0.

(** The [setState] of the wrapped store: the store itself is not touched. *)
Definition batching_setState (partial : Partial) (b : Batch) (w : Sys) : Batch :=
  let update := resolve partial (getState w) in
  let pending := pendingUpdates b ++ [update] in
  if negb (updateScheduled b)
  then mkBatch pending true (S (flush_tasks b))
  else mkBatch pending (updateScheduled b) (flush_tasks b).

Definition flushUpdates (P : Platform) (st : Store) (b : Batch) (w : Sys) : Batch * Sys :=
  if length (pendingUpdates b) =? 0 then (b, w)
  else
    let mergedUpdate := fold_left (λ acc update, spread acc update) (pendingUpdates b) ∅ in
    (mkBatch [] false (flush_tasks b), setState P st (PartialObject mergedUpdate) w).

(** The browser runs one of the tasks. *)
Definition run_flush_task (P : Platform) (st : Store) (b : Batch) (w : Sys) : Batch * Sys :=
  match flush_tasks b with
  | S n => flushUpdates P st (mkBatch (pendingUpdates b) (updateScheduled b) n) w
  | O => (b, w)
  end.

(** *** [advancedPersistenceMiddleware] *)

(** What it takes from the platform: [JSON.stringify] of
    [{ state, timestamp, version: '1.0' }]; [JSON.parse] of a stored text,
    [None] when it throws or gives [null] (whose properties cannot be read),
    else what [data.state] has to spread ([None] when it is falsy) and the
    number that [data.timestamp] counts for in [Date.now() - data.timestamp]:
    a number for itself, [null] and [false] for 0, [true] for 1, a text for
    the number it spells, and [None] when the difference is [NaN] (no
    timestamp, an object, a text that spells no number); and
    [window.LZString], if it is there, with [decompress] giving [None] for
    [null].  The numbers are integers, as [Date.now()] is. *)
Record DataJSON : Type := mkDataJSON {
  stringify_data : obj → Z → option string;
  parse_data : string → option (option obj * option Z);
  LZString : option ((string → string) * (string → option string))
}.

Record PersistenceOptions : Type := mkPersistenceOptions {
  compress : option bool;
  ttl : option Z
}.

(** [compress && 'LZString' in window], with [compress = false] by default. *)
Definition compressing (D : DataJSON) (options : PersistenceOptions)
    : option ((string → string) * (string → option string)) :=
  if default false (compress options) then LZString D else None.

(** [saveToStorage(state)] at the time [now] of [Date.now()]. *)
Definition saveToStorage (D : DataJSON) (key : string) (options : PersistenceOptions)
    (now : Z) (s : obj) (w : Sys) : Sys :=
  match stringify_data D s now with
  | Some serialized =>
      let serialized :=
        match compressing D options with
        | Some (compress, _) => compress serialized
        | None => serialized
        end in
      match setItem (localStorage w) key serialized with
      | Some ls => with_localStorage ls w
      | None => console_warn ("Failed to persist state for " +:+ key +:+ ":") w
      end
  | None => console_warn ("Failed to persist state for " +:+ key +:+ ":") w
  end.

(** [ttl && Date.now() - data.timestamp > ttl]: a [ttl] of 0 is falsy, and
    [NaN > ttl] is false. *)
Definition expired (options : PersistenceOptions) (now : Z) (timestamp : option Z) : bool :=
  match ttl options, timestamp with
  | Some t, Some ts => negb (t =? 0)%Z && (t <? now - ts)%Z
  | _, _ => false
  end.

(** [loadFromStorage()] at the time [now]. *)
Definition loadFromStorage (D : DataJSON) (key : string) (options : PersistenceOptions)
    (now : Z) (w : Sys) : option obj * Sys :=
  let failed :=
    (None,
     with_localStorage (removeItem (localStorage w) key)
       (console_warn ("Failed to load persisted state for " +:+ key +:+ ":") w)) in
  match getItem (localStorage w) key with
  | None => (None, w)
  | Some serialized =>
      if bool_decide (serialized = "") then (None, w)
      else
        let text :=
          match compressing D options with
          | Some (_, decompress) => decompress serialized
          | None => Some serialized
          end in
        match text with
        | None => failed
        | Some text =>
            match parse_data D text with
            | None => failed
            | Some (s, timestamp) =>
                if expired options now timestamp
                then (None, with_localStorage (removeItem (localStorage w) key) w)
                else (s, w)
            end
        end
  end.

(** Applying the middleware to the store: [// Load initial state]. *)
Definition persistence_start (P : Platform) (st : Store) (D : DataJSON) (key : string)
    (options : PersistenceOptions) (now : Z) (w : Sys) : Sys :=
  match loadFromStorage D key options now w with
  | (Some persistedState, w) => setState P st (PartialObject persistedState) w
  | (None, w) => w
  end.

(** The [setState] of the wrapped store. *)
Definition persistence_setState (P : Platform) (st : Store) (D : DataJSON) (key : string)
    (options : PersistenceOptions) (now : Z) (partial : Partial) (w : Sys) : Sys :=
  let w := setState P st partial w in
  saveToStorage D key options now (getState w) w.

End Store.

(** ** The auth store ([features/auth/stores/authStore.ts])

    The store is made with [errorBoundaryMiddleware], which hands [setState]
    through as long as no listener throws, and in development with two
    middlewares that measure and log; the actions are modelled on the
    [setState] of the store itself. *)

Module Auth.
Import Store.

Definition initialState : obj :=
  {[ "user" := VNull; "isAuthenticated" := VBool false; "isLoading" := VBool false;
     "error" := VNull; "loginLoading" := VBool false; "loginError" := VNull;
     "logoutLoading" := VBool false; "updateProfileLoading" := VBool false;
     "updateProfileError" := VNull ]}.

Definition options : StoreOptions := mkOptions (Some "auth") (Some "auth-state") (Some true).

(** [authStore], in a page whose storage is [ls]. *)
Definition authStore (P : Platform) (ls : Storage) : Store * Sys :=
  createStore P initialState options ls.

(** What comes of a [fetch] and of reading the body: the promise of [fetch]
    or of [response.json()] rejects, or there is a response, which is [ok] or
    not, and whose body is read only where the code does so. *)
Inductive Reply (Body : Type) : Type :=
  | Rejected (error : value)
  | NotOk
  | Ok (body : Body).
Arguments Rejected {Body} error.
Arguments NotOk {Body}.
Arguments Ok {Body} body.

(** The objects the actions make or meet: [new Error(message)], the
    exception of a [localStorage.setItem] that throws, and
    [{ ...user, ...updates }]. *)
Record Heap : Type := mkHeap {
  new_Error : string → value;
  QuotaExceededError : value;
  merged : value → value → value
}.

(** [state.user ? ... : ...]. *)
Definition js_truthy (v : value) : bool :=
  match v with
  | VUndefined | VNull | VBool false | VNum 0 | VStr "" => false
  | _ => true
  end.

Record Credentials : Type := mkCredentials {
  email : string;
  password : string
}.

Section Actions.
Context (P : Platform) (st : Store) (heap : Heap).

(** The function given to [login]; [api] is the server behind
    [/api/auth/login], the body being [user] and [token]. *)
Definition login_fn (api : Credentials → Reply (value * string))
    : AsyncFn Credentials value :=
  λ credentials w,
    match api credentials with
    | Rejected error => (w, inr error)
    | NotOk => (w, inr (new_Error heap "Invalid credentials"))
    | Ok (userData, token) =>
        let w := setState P st
                   (PartialObject {[ "user" := userData; "isAuthenticated" := VBool true;
                                     "error" := VNull ]}) w in
        match setItem (localStorage w) "auth-token" token with
        | Some ls => (with_localStorage ls w, inl userData)
        | None => (w, inr (QuotaExceededError heap))
        end
    end.

Definition login (api : Credentials → Reply (value * string))
    : Credentials → Sys → Sys * (value + value) :=
  createAsyncAction P st "login" (login_fn api).

(** The function given to [logout]: the response is not looked at. *)
Definition logout_fn (api : Reply unit) : AsyncFn unit value :=
  λ _ w,
    match api with
    | Rejected error => (w, inr error)
    | NotOk | Ok _ =>
        let w := setState P st
                   (PartialObject {[ "user" := VNull; "isAuthenticated" := VBool false;
                                     "error" := VNull ]}) w in
        (with_localStorage (removeItem (localStorage w) "auth-token") w, inl VUndefined)
    end.

Definition logout (api : Reply unit) : unit → Sys → Sys * (value + value) :=
  createAsyncAction P st "logout" (logout_fn api).

(** [updateProfile]: the optimistic update and the function. *)
Definition updateProfile_optimistic (state : obj) (updates : value) : obj :=
  {[ "user" := if js_truthy (prop state "user")
               then merged heap (prop state "user") updates
               else VNull ]}.

Definition updateProfile_fn (api : value → Reply value) : AsyncFn value value :=
  λ updates w,
    match api updates with
    | Rejected error => (w, inr error)
    | NotOk => (w, inr (new_Error heap "Failed to update profile"))
    | Ok updatedUser =>
        (setState P st (PartialObject {[ "user" := updatedUser ]}) w, inl updatedUser)
    end.

Definition updateProfile (api : value → Reply value)
    : value → Sys → Sys * (value + value) :=
  createOptimisticAction P st "updateProfile" updateProfile_optimistic
    (updateProfile_fn api).

(** The function given to [initializeAuth]; [api] is the server behind
    [/api/auth/me], asked with the token. *)
Definition initializeAuth_fn (api : string → Reply value) : AsyncFn unit value :=
  λ _ w,
    match getItem (localStorage w) "auth-token" with
    | None | Some "" => (w, inl VNull)
    | Some token =>
        match api token with
        | Rejected error => (w, inr error)
        | NotOk =>
            (with_localStorage (removeItem (localStorage w) "auth-token") w,
             inr (new_Error heap "Invalid token"))
        | Ok userData =>
            (setState P st
               (PartialObject {[ "user" := userData; "isAuthenticated" := VBool true;
                                 "isLoading" := VBool false ]}) w,
             inl userData)
        end
    end.

Definition initializeAuth (api : string → Reply value)
    : unit → Sys → Sys * (value + value) :=
  createAsyncAction P st "initialize" (initializeAuth_fn api).

Definition clearError (w : Sys) : Sys :=
  setState P st
    (PartialObject {[ "error" := VNull; "loginError" := VNull;
                      "updateProfileError" := VNull ]}) w.

End Actions.

End Auth.

(** ** Lazy loading with retry ([retryImport]) *)

Module LazyImport.

(** What [retryImport] does that can be seen from outside: a call of
    [importFn], and a [setTimeout] it waits for, with the delay it asks for,
    in milliseconds. *)
Inductive Event : Type :=
  | Attempt
  | Wait (delay : Q).

(** [Math.pow(2, n)] for an integer [n] below 1024.  JavaScript's numbers are
    doubles: a power of two from [2^-1074] up is one of them, and below that
    the nearest double is 0. *)
Definition Math_pow2 (n : Z) : Q :=
  if (n <? -1074)%Z then 0%Q else Qpower 2 n.

(** [Math.pow(2, 3 - retryCount) * 1000]: the product is a double too, so
    nothing is rounded there. *)
Definition backoff (retryCount : nat) : Q :=
  (Math_pow2 (3 - Z.of_nat retryCount) * 1000)%Q.

(** [retryImport(importFn, retryCount)], for a count [retryCount] (3 by
    default in [createLazyComponent], 2 in [createLazyRoute]).  [importFn n]
    is how the promise of the call of [importFn] settles when [n] calls were
    made before it: [inl module] resolved, [inr error] rejected.  The result
    is the trace of events and how the promise of [retryImport] settles. *)
Fixpoint retryImport {T : Type} (importFn : nat → T + value) (retryCount : nat)
    (made : nat) : list Event * (T + value) :=
  match importFn made with
  | inl module => ([Attempt], inl module)
  | inr error =>
      match retryCount with
      | S retryCount' =>                        (* retryCount > 0 *)
          let delay := backoff retryCount in
          let '(events, settled) := retryImport importFn retryCount' (S made) in
          (Attempt :: Wait delay :: events, settled)
      | O => ([Attempt], inr error)             (* throw error *)
      end
  end.

(** The time spent waiting, in milliseconds. *)
Definition total_wait (events : list Event) : Q :=
  fold_right (λ ev total, match ev with Wait delay => delay + total | Attempt => total end)%Q
             0%Q events.

End LazyImport.

(** ** The error boundary ([AdvancedErrorBoundary]) *)

Module Boundary.

Inductive Level : Type := page | feature | component.

#[global] Instance Level_eq_dec : EqDecision Level.
Proof. solve_decision. Defined.

(** An [Error] object: what the fallbacks show of it. *)
Record Error : Type := mkError {
  message : string;
  stack : option string
}.

(** What [render] returns.  [Given n] is a node the caller made: the children,
    or what the [fallback] prop returned.  The three default fallbacks are
    described by the parts of them that vary. *)
Inductive ReactNode : Type :=
  | Given (node : nat)
  | PageError (details : option Error)
      (* "Page Error", Reload Page, Go Back; the details in development *)
  | FeatureUnavailable (retrying : option (nat * nat)) (try_again : bool)
      (* "Retrying... (Attempt n/max)" and the Try Again button *)
  | ComponentFailed (retrying : bool) (retry_button : bool).
      (* "Component failed to load", "Retrying..." and the Retry button *)

(** The callbacks the boundary hands out or schedules. *)
Inductive Callback : Type := retry_cb | manualRetry_cb.

(** What a render can come to: a node, or an error thrown to the parent. *)
Inductive Rendered : Type :=
  | Renders (node : ReactNode)
  | Throws (e : Error).

(** The props.  [fallback] is a function of the caller: called with the error
    and [manualRetry], it returns a node or throws. *)
Record Props : Type := mkProps {
  children : ReactNode;
  fallback : option (Error → Callback → Rendered);
  has_onError : bool;
  level : option Level;
  identifier : option string
}.

Record State : Type := mkState {
  hasError : bool;
  error : option Error;
  errorInfo : option string;     (* the component stack *)
  retryCount : nat
}.

(** The instance: props, state and the private field [retryTimeoutId]. *)
Record Instance : Type := mkInstance {
  props : Props;
  st : State;
  retryTimeoutId : option nat
}.

(** A timer of [window.setTimeout]: its id, its delay in milliseconds and
    what it will call. *)
Record Timer : Type := mkTimer {
  timer_id : nat;
  timer_delay : nat;
  timer_callback : Callback
}.

(** The part of the page the boundary acts on. *)
Record Page : Type := mkPage {
  timers : list Timer;          (* pending timers *)
  next_timer_id : nat;          (* ids are positive and fresh *)
  reported : list (Error * nat);(* errorReportingService.reportError(error, { retryCount, .. }) *)
  onError_calls : list Error;   (* this.props.onError?.(error, errorInfo) *)
  development : bool            (* process.env.NODE_ENV === 'development' *)
}.

Definition maxRetries : nat := 3.

Definition initial_state : State := mkState false None None 0.

(** [static getDerivedStateFromError(error)], merged into the state by React. *)
Definition getDerivedStateFromError (e : Error) (s : State) : State :=
  mkState true (Some e) (errorInfo s) (retryCount s).

Definition clearTimeout (id : nat) (pg : Page) : Page :=
  mkPage (filter (λ t, timer_id t ≠ id) (timers pg)) (next_timer_id pg)
         (reported pg) (onError_calls pg) (development pg).

Definition setTimeout (cb : Callback) (delay : nat) (pg : Page) : nat * Page :=
  let id := S (next_timer_id pg) in
  (id, mkPage (timers pg ++ [mkTimer id delay cb]) id
              (reported pg) (onError_calls pg) (development pg)).

(** [scheduleRetry]: [delay = Math.pow(2, this.state.retryCount) * 1000]. *)
Definition scheduleRetry (inst : Instance) (pg : Page) : Instance * Page :=
  let pg :=
    match retryTimeoutId inst with
    | Some id => clearTimeout id pg
    | None => pg
    end in
  let delay := 2 ^ retryCount (st inst) * 1000 in
  let '(id, pg) := setTimeout retry_cb delay pg in
  (mkInstance (props inst) (st inst) (Some id), pg).

(** [componentDidCatch(error, errorInfo)] for an error that the report and
    [onError] get through without throwing ([componentDidCatch_throwing]
    below is the method for every error).  [this.state] read after the call
    of [this.setState] is still the state before it; the update shows in the
    instance that is returned. *)
Definition componentDidCatch (e : Error) (info : string) (inst : Instance) (pg : Page)
    : Instance * Page :=
  let s := st inst in
  let inst' := mkInstance (props inst)
                 (mkState (hasError s) (Some e) (Some info) (retryCount s))
                 (retryTimeoutId inst) in
  let pg := mkPage (timers pg) (next_timer_id pg)
              (reported pg ++ [(e, retryCount s)])
              (if has_onError (props inst) then onError_calls pg ++ [e] else onError_calls pg)
              (development pg) in
  if bool_decide (level (props inst) = Some component) && (retryCount s <? maxRetries)
  then scheduleRetry inst' pg
  else (inst', pg).

(** [componentDidCatch(error, errorInfo)] in full: the instance, the page,
    and whether the method threw.  [report_throws e] tells whether
    [errorReportingService.reportError] throws for the error, as it does when
    [btoa] meets a code unit above 255 in the name or the message of the error
    or in the level or the identifier ([Reports.generateFingerprint]);
    [onError_throws e] whether the [onError] of the caller does.  What throws
    ends the method: nothing after it runs. *)
Definition componentDidCatch_throwing (report_throws onError_throws : Error → bool)
    (e : Error) (info : string) (inst : Instance) (pg : Page)
    : Instance * Page * bool :=
  let s := st inst in
  let inst' := mkInstance (props inst)
                 (mkState (hasError s) (Some e) (Some info) (retryCount s))
                 (retryTimeoutId inst) in
  if report_throws e then (inst', pg, true)
  else
    let pg := mkPage (timers pg) (next_timer_id pg)
                (reported pg ++ [(e, retryCount s)]) (onError_calls pg) (development pg) in
    if has_onError (props inst) && onError_throws e then
      (inst',
       mkPage (timers pg) (next_timer_id pg) (reported pg) (onError_calls pg ++ [e])
              (development pg),
       true)
    else
      let pg := mkPage (timers pg) (next_timer_id pg) (reported pg)
                  (if has_onError (props inst) then onError_calls pg ++ [e]
                   else onError_calls pg)
                  (development pg) in
      if bool_decide (level (props inst) = Some component) && (retryCount s <? maxRetries)
      then let '(inst'', pg') := scheduleRetry inst' pg in (inst'', pg', false)
      else (inst', pg, false).

Definition retry (s : State) : State := mkState false None None (retryCount s + 1).

Definition manualRetry (s : State) : State := mkState false None None 0.

(** [renderDefaultFallback]: [level] is ['component'] when the prop is not
    given. *)
Definition renderDefaultFallback (p : Props) (s : State) (pg : Page) : ReactNode :=
  let level := default component (level p) in
  let isRetrying := (0 <? retryCount s) && (retryCount s <? maxRetries) in
  let canRetry := retryCount s <? maxRetries in
  match level with
  | page => PageError (if development pg then error s else None)
  | feature =>
      FeatureUnavailable (if isRetrying then Some (retryCount s, maxRetries) else None)
                         (canRetry && negb isRetrying)
  | component => ComponentFailed isRetrying (canRetry && negb isRetrying)
  end.

(** [render()].  What the caller's [fallback] throws goes to the parent. *)
Definition render (p : Props) (s : State) (pg : Page) : Rendered :=
  match hasError s, error s with
  | true, Some e =>
      match fallback p with
      | Some f => f e manualRetry_cb
      | None => Renders (renderDefaultFallback p s pg)
      end
  | _, _ => Renders (children p)
  end.

(** What React does with an error thrown below the boundary: the state of
    [getDerivedStateFromError], then [componentDidCatch]. *)
Definition caught (e : Error) (info : string) (inst : Instance) (pg : Page)
    : Instance * Page :=
  componentDidCatch e info
    (mkInstance (props inst) (getDerivedStateFromError e (st inst)) (retryTimeoutId inst))
    pg.

(** What the browser does when the timer [t] is due: it leaves the pending
    timers and its callback is called. *)
Definition fire (t : Timer) (inst : Instance) (pg : Page) : Instance * Page :=
  let s :=
    match timer_callback t with
    | retry_cb => retry (st inst)
    | manualRetry_cb => manualRetry (st inst)
    end in
  (mkInstance (props inst) s (retryTimeoutId inst), clearTimeout (timer_id t) pg).

(** [componentWillUnmount()]. *)
Definition componentWillUnmount (inst : Instance) (pg : Page) : Page :=
  match retryTimeoutId inst with
  | Some id => clearTimeout id pg
  | None => pg
  end.

(** What can happen to a mounted boundary: an error is thrown below it, a
    pending timer is due, or [manualRetry] is called (by a button of the
    default fallback, or by the [fallback] prop, which is handed it).  The
    errors are those that [componentDidCatch] gets through: neither the
    report of the error nor [onError] throws. *)
Inductive Event : Type :=
  | ErrorBelow (e : Error) (info : string)
  | TimerDue
  | ManualRetry.

Definition step (ev : Event) (inst : Instance) (pg : Page) : Instance * Page :=
  match ev with
  | ErrorBelow e info => caught e info inst pg
  | TimerDue =>
      match timers pg with
      | t :: _ => fire t inst pg
      | [] => (inst, pg)
      end
  | ManualRetry => (mkInstance (props inst) (manualRetry (st inst)) (retryTimeoutId inst), pg)
  end.

(** The boundary as constructed, on a page without timers. *)
Definition mount (p : Props) (development : bool) : Instance * Page :=
  (mkInstance p initial_state None, mkPage [] 0 [] [] development).

Definition run (events : list Event) (start : Instance * Page) : Instance * Page :=
  fold_left (λ '(inst, pg) ev, step ev inst pg) events start.

(** What holds of a boundary with props [p] and its page after any events:
    at most three retries counted, and no pending timer but the one retry the
    boundary remembers, set when fewer than three were counted. *)
Definition well_timed (p : Props) (inst : Instance) (pg : Page) : Prop :=
  props inst = p ∧
  retryCount (st inst) ≤ 3 ∧
  (timers pg = [] ∨
   ∃ t, timers pg = [t] ∧
        retryTimeoutId inst = Some (timer_id t) ∧
        timer_callback t = retry_cb ∧
        retryCount (st inst) < 3 ∧
        (timer_delay t = 1000 ∨ timer_delay t = 2000 ∨ timer_delay t = 4000)).

End Boundary.

(** ** The error reporting service ([ErrorReportingService]) *)

Module Reporting.

(** [array.slice(-n)]: the last [n] elements, or all of them when there are
    fewer ([slice(-0)] is [slice(0)], the whole array). *)
Definition slice_last {A} (n : nat) (l : list A) : list A :=
  if n =? 0 then l else drop (length l - n) l.

Definition maxErrors : nat := 100.

(** The service: its [errors] and the storage of the page.  A report is a
    value of any type [Report]; the service stores it as it is. *)
Record Service (Report : Type) : Type := mkService {
  errors : list Report;
  localStorage : Storage
}.
Arguments mkService {Report} _ _.
Arguments errors {Report} _.
Arguments localStorage {Report} _.

(** [storeError(errorReport)].  [stringify] is [JSON.stringify] on lists of
    reports, [None] when it throws; the [catch] ignores that and a throwing
    [setItem] alike. *)
Definition storeError {Report} (stringify : list Report → option string)
    (errorReport : Report) (svc : Service Report) : Service Report :=
  let errors := errors svc ++ [errorReport] in
  let errors :=
    if maxErrors <? length errors then slice_last maxErrors errors else errors in
  let ls :=
    match stringify (slice_last 10 errors) with
    | Some text =>
        match setItem (localStorage svc) "error_reports" text with
        | Some ls => ls
        | None => localStorage svc
        end
    | None => localStorage svc
    end in
  mkService errors ls.

(** [reportError(error, context)] as far as the list and the storage go:
    [build] makes the report (fingerprint, severity, context), [storeError]
    keeps it; sending it and logging it touch neither. *)
Definition reportError {Err Ctx Report} (build : Err → Ctx → Report)
    (stringify : list Report → option string)
    (e : Err) (context : Ctx) (svc : Service Report) : Service Report :=
  storeError stringify (build e context) svc.

Definition clearErrors {Report} (svc : Service Report) : Service Report :=
  mkService [] (removeItem (localStorage svc) "error_reports").

(** The calls [reportError(e, context)] for each pair of [calls], in order. *)
Definition report_all {Err Ctx Report} (build : Err → Ctx → Report)
    (stringify : list Report → option string)
    (calls : list (Err * Ctx)) (svc : Service Report) : Service Report :=
  fold_left (λ svc call, reportError build stringify call.1 call.2 svc) calls svc.

End Reporting.

(** ** The login schema ([loginSchema]) *)

Module Login.

(** A JavaScript string: its UTF-16 code units.  [length] counts them, and a
    regular expression without the [u] flag reads them one by one. *)
Definition jsstring : Type := list N.

(** The code units of a text written in ASCII. *)
Definition code_units (text : string) : jsstring :=
  (λ c, N.of_nat (Ascii.nat_of_ascii c)) <$> String.list_ascii_of_string text.

(** *** Regular expressions *)

(** [\s]: the white space and line terminators of ECMAScript. *)
Definition is_space (c : N) : bool :=
  ((9 <=? c) && (c <=? 13) || (c =? 32) || (c =? 160) || (c =? 5760)
   || (8192 <=? c) && (c <=? 8202) || (c =? 8232) || (c =? 8233)
   || (c =? 8239) || (c =? 8287) || (c =? 12288) || (c =? 65279))%N.

(** What stands between the brackets of a character class. *)
Inductive ClassItem : Type :=
  | One (c : N)                (* a character *)
  | Range (lo hi : N)          (* lo-hi *)
  | Space.                     (* \s *)

Definition item_has (c : N) (item : ClassItem) : bool :=
  match item with
  | One d => (c =? d)%N
  | Range lo hi => ((lo <=? c) && (c <=? hi))%N
  | Space => is_space c
  end.

Definition class_has (items : list ClassItem) (c : N) : bool :=
  existsb (item_has c) items.

(** The syntax of patterns: what the two patterns of the schema are made of
    ([RChar], the classes, [RSeq], [RPlus]) and what their derivatives need. *)
Inductive Regex : Type :=
  | RNever                               (* matches nothing *)
  | REmpty                               (* matches the empty string *)
  | RChar (c : N)                        (* a character, plain or escaped *)
  | RClass (items : list ClassItem)      (* [items] *)
  | RNotClass (items : list ClassItem)   (* [^items] *)
  | RSeq (r1 r2 : Regex)                 (* r1r2 *)
  | RAlt (r1 r2 : Regex)                 (* r1|r2 *)
  | RStar (r : Regex)                    (* r* *)
  | RPlus (r : Regex).                   (* r+ *)

Fixpoint nullable (r : Regex) : bool :=
  match r with
  | RNever | RChar _ | RClass _ | RNotClass _ => false
  | REmpty | RStar _ => true
  | RSeq r1 r2 => nullable r1 && nullable r2
  | RAlt r1 r2 => nullable r1 || nullable r2
  | RPlus r => nullable r
  end.

(** The pattern for what may follow the character [c]. *)
Fixpoint deriv (c : N) (r : Regex) : Regex :=
  match r with
  | RNever | REmpty => RNever
  | RChar d => if (c =? d)%N then REmpty else RNever
  | RClass items => if class_has items c then REmpty else RNever
  | RNotClass items => if class_has items c then RNever else REmpty
  | RSeq r1 r2 =>
      if nullable r1 then RAlt (RSeq (deriv c r1) r2) (deriv c r2)
      else RSeq (deriv c r1) r2
  | RAlt r1 r2 => RAlt (deriv c r1) (deriv c r2)
  | RStar r => RSeq (deriv c r) (RStar r)
  | RPlus r => RSeq (deriv c r) (RStar r)
  end.

(** [/^r$/.test(text)]: without the [m] flag the anchors are the two ends of
    the text, so the whole text has to match [r]. *)
Definition test (r : Regex) (text : jsstring) : bool :=
  nullable (fold_left (λ r c, deriv c r) text r).

(** The texts a pattern matches. *)
Inductive star (L : jsstring → Prop) : jsstring → Prop :=
  | star_nil : star L []
  | star_app s1 s2 : L s1 → star L s2 → star L (s1 ++ s2).

Fixpoint matches (r : Regex) (s : jsstring) : Prop :=
  match r with
  | RNever => False
  | REmpty => s = []
  | RChar c => s = [c]
  | RClass items => ∃ c, s = [c] ∧ class_has items c = true
  | RNotClass items => ∃ c, s = [c] ∧ class_has items c = false
  | RSeq r1 r2 => ∃ s1 s2, s = s1 ++ s2 ∧ matches r1 s1 ∧ matches r2 s2
  | RAlt r1 r2 => matches r1 s ∨ matches r2 s
  | RStar r => star (matches r) s
  | RPlus r => ∃ s1 s2, s = s1 ++ s2 ∧ matches r s1 ∧ star (matches r) s2
  end.

Definition at_sign : N := 64.
Definition dot : N := 46.

(** [[^\s@]+]. *)
Definition not_space_at : Regex := RPlus (RNotClass [Space; One at_sign]).

(** [/^[^\s@]+@[^\s@]+\.[^\s@]+$/]. *)
Definition emailRegex : Regex :=
  RSeq not_space_at (RSeq (RChar at_sign) (RSeq not_space_at (RSeq (RChar dot) not_space_at))).

(** [/^[a-zA-Z0-9_.-]+$/]. *)
Definition usernameRegex : Regex :=
  RPlus (RClass [Range 97 122; Range 65 90; Range 48 57; One 95; One dot; One 45]).

(** *** The schema library

    [zod] (version 3) is a dependency of the program, not part of it.  This is
    the part of it that [loginSchema] uses, as its documentation and its code
    have it:
    [z.string()] aborts on a value that is not a string; [min] and [max] each
    add their issue and go on; a refinement runs unless the value was not a
    string, and adds its issue when it answers false; [z.object] parses the
    fields of its shape in order, drops the other keys of the input, and
    succeeds when no issue was added. *)

Inductive jsvalue : Type :=
  | JUndefined
  | JNull
  | JBoolean (b : bool)
  | JNumber (n : Z)
  | JString (s : jsstring)
  | JArray
  | JObject.

Inductive IssueCode : Type := invalid_type | too_small | too_big | custom.

Record Issue : Type := mkIssue {
  code : IssueCode;
  path : string;
  message : string
}.

Inductive StringCheck : Type :=
  | min (n : nat) (message : string)
  | max (n : nat) (message : string).

Inductive Schema : Type :=
  | z_string (checks : list StringCheck)
  | z_refine (inner : Schema) (check : jsstring → bool) (message : string).

Inductive Status : Type := valid | dirty | aborted.

Definition typeof_name (v : jsvalue) : string :=
  match v with
  | JUndefined => "undefined"
  | JNull => "null"
  | JBoolean _ => "boolean"
  | JNumber _ => "number"
  | JString _ => "string"
  | JArray => "array"
  | JObject => "object"
  end.

Definition run_check (field : string) (s : jsstring) (c : StringCheck) : list Issue :=
  match c with
  | min n message => if length s <? n then [mkIssue too_small field message] else []
  | max n message => if n <? length s then [mkIssue too_big field message] else []
  end.

(** Parsing the value of one field: the status and the issues. *)
Fixpoint parse_field (schema : Schema) (field : string) (v : jsvalue)
    : Status * list Issue :=
  match schema with
  | z_string checks =>
      match v with
      | JString s =>
          let issues := concat (run_check field s <$> checks) in
          (if bool_decide (issues = []) then valid else dirty, issues)
      | JUndefined => (aborted, [mkIssue invalid_type field "Required"])
      | _ => (aborted,
              [mkIssue invalid_type field ("Expected string, received " +:+ typeof_name v)])
      end
  | z_refine inner check message =>
      match parse_field inner field v with
      | (aborted, issues) => (aborted, issues)
      | (status, issues) =>
          match v with
          | JString s =>
              if check s then (status, issues)
              else (dirty, issues ++ [mkIssue custom field message])
          | _ => (status, issues)
          end
      end
  end.

Inductive SafeParseResult : Type :=
  | Success (data : gmap string jsvalue)
  | Failure (issues : list Issue).

(** [z.object(shape).safeParse(input)] on an object [input]; a property that
    is not there reads as [undefined]. *)
Definition safeParse (shape : list (string * Schema)) (input : gmap string jsvalue)
    : SafeParseResult :=
  let read field := default JUndefined (input !! field) in
  let issues :=
    concat ((λ '(field, schema), (parse_field schema field (read field)).2) <$> shape) in
  if bool_decide (issues = [])
  then Success (list_to_map ((λ '(field, _), (field, read field)) <$> shape))
  else Failure issues.

(** The refinement of [emailOrUsername]. *)
Definition email_or_username (value : jsstring) : bool :=
  let isEmail := test emailRegex value in
  let isUsername := (3 <=? length value) && test usernameRegex value in
  isEmail || isUsername.

Definition msg_required : string := "Username or email is required".
Definition msg_email_or_username : string :=
  "Please enter a valid email address or username (min 3 characters)".
Definition msg_password_min : string := "Password must be at least 6 characters".
Definition msg_password_max : string := "Password must be less than 128 characters".

Definition loginSchema : list (string * Schema) :=
  [ ("emailOrUsername",
     z_refine (z_string [min 1 msg_required]) email_or_username msg_email_or_username);
    ("password",
     z_string [min 6 msg_password_min; max 128 msg_password_max]) ].

End Login.

(** ** Error reports ([ErrorReportingService], the rest of it) *)

Module Reports.

Definition jsstring : Type := Login.jsstring.

(** A text written in ASCII, as code units. *)
Definition text (s : string) : jsstring := Login.code_units s.

(** [hay.startsWith(needle)]. *)
Fixpoint starts_with (needle hay : jsstring) : bool :=
  match needle, hay with
  | [], _ => true
  | c :: needle, d :: hay => (c =? d)%N && starts_with needle hay
  | _ :: _, [] => false
  end.

(** [hay.includes(needle)]. *)
Fixpoint includes (hay needle : jsstring) : bool :=
  starts_with needle hay ||
  match hay with
  | [] => false
  | _ :: rest => includes rest needle
  end.

Inductive Severity : Type := low | medium | high | critical.

#[global] Instance Severity_eq_dec : EqDecision Severity.
Proof. solve_decision. Defined.

(** An [Error]: its name, message and stack. *)
Record JsError : Type := mkJsError {
  name : jsstring;
  message : jsstring;
  stack : option jsstring
}.

(** A value of a context field the service does not look at. *)
Inductive Extra : Type :=
  | XNumber (q : Q)
  | XText (s : jsstring)
  | XValue (v : value).

(** [ErrorContext]: the named fields, [None] for [undefined], and the other
    keys. *)
Record ErrorContext : Type := mkContext {
  level : option jsstring;
  identifier : option jsstring;
  componentStack : option jsstring;
  retryCount : option Z;
  userAgent : option jsstring;
  url : option jsstring;
  timestamp : option jsstring;
  userId : option jsstring;
  sessionId : option jsstring;
  others : gmap string Extra
}.

Record ErrorReport : Type := mkReport {
  error : JsError;
  context : ErrorContext;
  fingerprint : jsstring;
  severity : Severity
}.

(** [context.level === name]. *)
Definition level_is (context : ErrorContext) (name : string) : bool :=
  bool_decide (level context = Some (text name)).

(** [determineSeverity(error, context)]. *)
Definition determineSeverity (e : JsError) (context : ErrorContext) : Severity :=
  if level_is context "page" || includes (message e) (text "auth") then critical
  else if level_is context "feature" || includes (message e) (text "fetch")
          || includes (message e) (text "network") then high
  else if level_is context "component" && (0 <? default 0 (retryCount context))%Z
  then medium
  else low.

(** The base64 alphabet. *)
Definition base64_char (i : N) : N :=
  (if i <? 26 then 65 + i
   else if i <? 52 then 97 + (i - 26)
   else if i <? 62 then 48 + (i - 52)
   else if i =? 62 then 43
   else 47)%N.

Fixpoint base64 (bytes : list N) : list N :=
  match bytes with
  | a :: b :: c :: rest =>
      base64_char (a / 4) :: base64_char (a mod 4 * 16 + b / 16)
      :: base64_char (b mod 16 * 4 + c / 64) :: base64_char (c mod 64) :: base64 rest
  | [a; b] =>
      [base64_char (a / 4); base64_char (a mod 4 * 16 + b / 16);
       base64_char (b mod 16 * 4); 61]
  | [a] => [base64_char (a / 4); base64_char (a mod 4 * 16); 61; 61]
  | [] => []
  end%N.

(** [btoa(s)]: [None] when it throws, which it does for a text with a code
    unit above 255. *)
Definition btoa (s : jsstring) : option jsstring :=
  if forallb (λ c, c <=? 255)%N s then Some (base64 s) else None.

(** [`${field}`]. *)
Definition shown (field : option jsstring) : jsstring := default (text "undefined") field.

(** [generateFingerprint(error, context)]: [None] when [btoa] throws. *)
Definition generateFingerprint (e : JsError) (context : ErrorContext) : option jsstring :=
  let key := name e ++ text "_" ++ message e ++ text "_" ++ shown (level context)
             ++ text "_" ++ shown (identifier context) in
  match btoa key with
  | Some encoded =>
      (* .replace(/[+/=]/g, '').substr(0, 16) *)
      Some (take 16 (filter (λ c, c ≠ 43 ∧ c ≠ 47 ∧ c ≠ 61)%N encoded))
  | None => None
  end.

(** What the service reads from the page. *)
Record Env : Type := mkEnv {
  now_iso : jsstring;               (* new Date().toISOString() *)
  navigator_userAgent : jsstring;
  location_href : jsstring;
  session : jsstring;               (* this.sessionId *)
  viewport : jsstring;              (* `${window.innerWidth}x${window.innerHeight}` *)
  navigator_language : jsstring
}.

(** [field || fallback]: the empty text is falsy. *)
Definition or_else (field : option jsstring) (fallback : jsstring) : jsstring :=
  match field with
  | Some [] | None => fallback
  | Some s => s
  end.

(** The [context] of the report that [reportError] makes. *)
Definition report_context (env : Env) (context : ErrorContext) : ErrorContext :=
  mkContext (level context) (identifier context) (componentStack context)
    (retryCount context)
    (Some (or_else (userAgent context) (navigator_userAgent env)))
    (Some (or_else (url context) (location_href env)))
    (Some (or_else (timestamp context) (now_iso env)))
    (userId context)
    (Some (session env))
    (<["language" := XText (navigator_language env)]>
       (<["viewport" := XText (viewport env)]> (others context))).

(** [reportError(error, context)] as far as the list and the storage go:
    [None] when it throws, which leaves the service as it was. *)
Definition reportError (env : Env) (stringify : list ErrorReport → option string)
    (e : JsError) (context : ErrorContext) (svc : Reporting.Service ErrorReport)
    : option (Reporting.Service ErrorReport) :=
  match generateFingerprint e context with
  | Some fp =>
      Some (Reporting.storeError stringify
              (mkReport e (report_context env context) fp (determineSeverity e context))
              svc)
  | None => None
  end.

(** [reportPerformanceIssue(metric, value, threshold)]; [stack] is the stack
    of the [Error] it makes.  The numbers are finite and taken as exact. *)
Definition reportPerformanceIssue (env : Env) (stringify : list ErrorReport → option string)
    (stack : option jsstring) (metric : jsstring) (value threshold : Q)
    (svc : Reporting.Service ErrorReport) : option (Reporting.Service ErrorReport) :=
  if Qlt_le_dec threshold value then
    reportError env stringify
      (mkJsError (text "Error") (text "Performance issue: " ++ metric) stack)
      (mkContext (Some (text "performance")) (Some metric) None None None None None None None
         (<["severity" := XText (if Qlt_le_dec (threshold * 2) value
                                  then text "high" else text "medium")]>
            (<["threshold" := XNumber threshold]> (<["value" := XNumber value]> ∅))))
      svc
  else Some svc.

(** [getErrorStats()].

    [stats.byLevel] is an object literal, so reading a property of it that it
    does not have gives what [Object.prototype] has under that name. *)
Definition Object_prototype : list string :=
  [ "constructor"; "__defineGetter__"; "__defineSetter__"; "hasOwnProperty";
    "__lookupGetter__"; "__lookupSetter__"; "isPrototypeOf"; "propertyIsEnumerable";
    "toString"; "valueOf"; "__proto__"; "toLocaleString" ].

(** A value of [stats.byLevel]: a count, or the text that [+ 1] makes of
    something that is not a number. *)
Inductive Tally : Type :=
  | Count (n : nat)
  | Appended.

Record Stats : Type := mkStats {
  total : nat;
  bySeverity : Severity → nat;
  byLevel : gmap jsstring Tally;
  recent : list ErrorReport
}.

(** [(stats.byLevel[level] || 0) + 1]: the inherited properties are
    functions, and [__proto__] an object, all truthy. *)
Definition next_tally (byLevel : gmap jsstring Tally) (level : jsstring) : Tally :=
  match byLevel !! level with
  | Some (Count n) => Count (n + 1)
  | Some Appended => Appended
  | None => if bool_decide (level ∈ text <$> Object_prototype) then Appended else Count 1
  end.

(** The body of the [forEach]; assigning a text to [__proto__] does nothing. *)
Definition count_report (stats : Stats) (report : ErrorReport) : Stats :=
  let level := or_else (level (context report)) (text "unknown") in
  mkStats (total stats)
    (λ s, if bool_decide (s = severity report) then S (bySeverity stats s)
          else bySeverity stats s)
    (if bool_decide (level = text "__proto__") then byLevel stats
     else <[level := next_tally (byLevel stats) level]> (byLevel stats))
    (recent stats).

Definition getErrorStats (svc : Reporting.Service ErrorReport) : Stats :=
  fold_left count_report (Reporting.errors svc)
    (mkStats (length (Reporting.errors svc)) (λ _, 0) ∅
       (Reporting.slice_last 5 (Reporting.errors svc))).

(** Sending.  [api n] tells whether the call number [n] of
    [mockErrorReportingAPI] resolves.  The log has the reports the API was
    called with and the warnings on the console. *)
Record Sending : Type := mkSending {
  api_calls : list ErrorReport;
  send_warnings : list string
}.

(** [sendError(errorReport)]: the log after it, and whether its promise
    rejects.  Its [catch] turns a rejection of the API into a warning. *)
Definition sendError (api : nat → bool) (report : ErrorReport) (log : Sending)
    : Sending * bool :=
  let called := api_calls log ++ [report] in
  if api (length (api_calls log)) then (mkSending called (send_warnings log), false)
  else (mkSending called (send_warnings log ++ ["Failed to send error report:"]), false).

(** The loop of [flushPendingErrors], with its [break]. *)
Fixpoint flush_loop (api : nat → bool) (pendingErrors : list ErrorReport) (log : Sending)
    : Sending :=
  match pendingErrors with
  | [] => log
  | report :: rest =>
      match sendError api report log with
      | (log, true) => log                       (* catch: break *)
      | (log, false) => flush_loop api rest log
      end
  end.

Definition flushPendingErrors (api : nat → bool) (svc : Reporting.Service ErrorReport)
    (log : Sending) : Sending :=
  flush_loop api (Reporting.errors svc) log.

End Reports.

(** ** A small JSON for the examples

    The theorems hold for every [Platform].  The examples run on this one: it
    writes and reads the objects whose values are [null], booleans, integers
    and strings without quotes or escapes, which is enough for the states
    they use. *)

Module SampleJSON.

Definition quote : ascii := Ascii.ascii_of_nat 34.

Definition value_text (v : value) : option string :=
  match v with
  | VUndefined => None                       (* the property is left out *)
  | VNull => Some "null"
  | VBool true => Some "true"
  | VBool false => Some "false"
  | VNum n => Some (pretty n)
  | VStr s => Some (String quote s +:+ String quote "")
  | VRef _ => Some "{}"
  end.

Definition member_text (member : string * value) : option string :=
  match value_text member.2 with
  | Some text => Some (String quote member.1 +:+ String quote ":" +:+ text)
  | None => None
  end.

Fixpoint join (texts : list string) : string :=
  match texts with
  | [] => ""
  | [text] => text
  | text :: rest => text +:+ "," +:+ join rest
  end.

Definition stringify (o : obj) : option string :=
  Some ("{" +:+ join (omap member_text (map_to_list o)) +:+ "}").

(** The text up to the next quote, and what follows that quote. *)
Fixpoint until_quote (cs : list ascii) : option (list ascii * list ascii) :=
  match cs with
  | [] => None
  | c :: rest =>
      if bool_decide (c = quote) then Some ([], rest)
      else match until_quote rest with
           | Some (text, rest') => Some (c :: text, rest')
           | None => None
           end
  end.

Definition is_digit (c : ascii) : bool :=
  (48 <=? Ascii.nat_of_ascii c) && (Ascii.nat_of_ascii c <=? 57).

Fixpoint digits (cs : list ascii) : list ascii * list ascii :=
  match cs with
  | c :: rest =>
      if is_digit c then let '(ds, rest') := digits rest in (c :: ds, rest')
      else ([], cs)
  | [] => ([], [])
  end.

Definition number_of (ds : list ascii) : Z :=
  fold_left (λ n d, n * 10 + (Z.of_nat (Ascii.nat_of_ascii d) - 48))%Z ds 0%Z.

Definition literal (cs : list ascii) : option (value * list ascii) :=
  match cs with
  | "n" :: "u" :: "l" :: "l" :: rest => Some (VNull, rest)
  | "t" :: "r" :: "u" :: "e" :: rest => Some (VBool true, rest)
  | "f" :: "a" :: "l" :: "s" :: "e" :: rest => Some (VBool false, rest)
  | "-" :: rest =>
      let '(ds, rest') := digits rest in
      if bool_decide (ds = []) then None else Some (VNum (- number_of ds), rest')
  | c :: rest =>
      if bool_decide (c = quote) then
        match until_quote rest with
        | Some (text, rest') => Some (VStr (String.string_of_list_ascii text), rest')
        | None => None
        end
      else
        let '(ds, rest') := digits cs in
        if bool_decide (ds = []) then None else Some (VNum (number_of ds), rest')
  | [] => None
  end%char.

Fixpoint members (fuel : nat) (cs : list ascii) (acc : obj) : option obj :=
  match fuel, cs with
  | S fuel, c :: rest =>
      if bool_decide (c = quote) then
        match until_quote rest with
        | Some (key, (":" :: rest1)%char) =>
            match literal rest1 with
            | Some (v, rest2) =>
                let acc := <[String.string_of_list_ascii key := v]> acc in
                match rest2 with
                | ["}"%char] => Some acc
                | ("," :: rest3)%char => members fuel rest3 acc
                | _ => None
                end
            | None => None
            end
        | _ => None
        end
      else None
  | _, _ => None
  end.

Definition parse (text : string) : option obj :=
  match String.list_ascii_of_string text with
  | ["{"; "}"]%char => Some ∅
  | ("{" :: rest)%char => members (length rest) rest ∅
  | cs =>
      match literal cs with
      | Some (_, []) => Some ∅      (* a value without properties to spread *)
      | _ => None
      end
  end.

Definition platform : Platform := mkPlatform stringify parse false false.

(** A stand-in for the texts of [advancedPersistenceMiddleware]: the
    timestamp, an [@], and the text of the state. *)
Definition stringify_data (s : obj) (timestamp : Z) : option string :=
  match stringify s with
  | Some text => Some (pretty timestamp +:+ "@" +:+ text)
  | None => None
  end.

Definition parse_data (text : string) : option (option obj * option Z) :=
  let '(ds, rest) := digits (String.list_ascii_of_string text) in
  match rest with
  | ("@" :: state_text)%char =>
      match parse (String.string_of_list_ascii state_text) with
      | Some s => Some (Some s, if bool_decide (ds = []) then None else Some (number_of ds))
      | None => None
      end
  | _ => None
  end.

Definition data_json : Store.DataJSON := Store.mkDataJSON stringify_data parse_data None.

End SampleJSON.

(** ** The words of the specification

    What the claims call shallow-equal, the delay before the k-th retry, the
    most recent reports and a valid login, written after the claims and not
    after the code. *)

Module Spec.

(** Same keys, each value identical under [Object.is]. *)
Definition shallow_equal (a b : obj) : Prop :=
  (∀ key, is_Some (a !! key) ↔ is_Some (b !! key)) ∧
  (∀ key va vb, a !! key = Some va → b !! key = Some vb → Object_is va vb = true).

(** [2^(3 - retryCount + k - 1) * 1000] milliseconds. *)
Definition retry_delay (retryCount k : nat) : Q :=
  (Qpower 2 (3 - Z.of_nat retryCount + Z.of_nat k - 1) * 1000)%Q.

(** An attempt, then for each of [n] retries its wait and its attempt. *)
Definition retry_events (retryCount n : nat) : list LazyImport.Event :=
  LazyImport.Attempt
    :: flat_map (λ k, [LazyImport.Wait (retry_delay retryCount k); LazyImport.Attempt])
                (seq 1 n).

Definition is_attempt (e : LazyImport.Event) : bool :=
  match e with
  | LazyImport.Attempt => true
  | LazyImport.Wait _ => false
  end.

Definition attempts (events : list LazyImport.Event) : nat :=
  length (List.filter is_attempt events).

Definition rejected {T} (settled : T + value) : bool :=
  match settled with
  | inl _ => false
  | inr _ => true
  end.

(** The [n] most recent elements of a list that grows at its end, oldest
    first. *)
Definition most_recent {A} (n : nat) (l : list A) : list A :=
  reverse (take n (reverse l)).

(** A character that is neither white space nor [@]. *)
Definition plain (c : N) : Prop := Login.is_space c = false ∧ c ≠ Login.at_sign.

(** The email pattern: plain characters, [@], plain characters, a dot, plain
    characters, nothing before and nothing after. *)
Definition email_pattern (s : Login.jsstring) : Prop :=
  ∃ name domain rest,
    s = name ++ [Login.at_sign] ++ domain ++ [Login.dot] ++ rest ∧
    name ≠ [] ∧ domain ≠ [] ∧ rest ≠ [] ∧
    Forall plain name ∧ Forall plain domain ∧ Forall plain rest.

(** a-z, A-Z, 0-9, underscore, dot and hyphen. *)
Definition username_char (c : N) : Prop :=
  (97 ≤ c ≤ 122 ∨ 65 ≤ c ≤ 90 ∨ 48 ≤ c ≤ 57 ∨ c = 95 ∨ c = 46 ∨ c = 45)%N.

(** The issues a value of the field [emailOrUsername] gives rise to: for a
    string the message of each rule it breaks, for anything else a type
    issue. *)
Definition emailOrUsername_issues (v : Login.jsvalue) : list Login.Issue :=
  match v with
  | Login.JString s =>
      (if length s <? 1
       then [Login.mkIssue Login.too_small "emailOrUsername" Login.msg_required]
       else [])
      ++ (if Login.email_or_username s then []
          else [Login.mkIssue Login.custom "emailOrUsername" Login.msg_email_or_username])
  | Login.JUndefined => [Login.mkIssue Login.invalid_type "emailOrUsername" "Required"]
  | _ => [Login.mkIssue Login.invalid_type "emailOrUsername"
            ("Expected string, received " +:+ Login.typeof_name v)]
  end.

(** The same for the field [password]. *)
Definition password_issues (v : Login.jsvalue) : list Login.Issue :=
  match v with
  | Login.JString s =>
      (if length s <? 6
       then [Login.mkIssue Login.too_small "password" Login.msg_password_min]
       else [])
      ++ (if 128 <? length s
          then [Login.mkIssue Login.too_big "password" Login.msg_password_max]
          else [])
  | Login.JUndefined => [Login.mkIssue Login.invalid_type "password" "Required"]
  | _ => [Login.mkIssue Login.invalid_type "password"
            ("Expected string, received " +:+ Login.typeof_name v)]
  end.

Definition valid_login (input : gmap string Login.jsvalue) : Prop :=
  ∃ emailOrUsername password,
    input !! "emailOrUsername" = Some (Login.JString emailOrUsername) ∧
    input !! "password" = Some (Login.JString password) ∧
    emailOrUsername ≠ [] ∧
    (email_pattern emailOrUsername ∨
     (3 ≤ length emailOrUsername ∧ Forall username_char emailOrUsername)) ∧
    6 ≤ length password ≤ 128.

End Spec.

(** * Properties *)

(** *** What [shallowEqual] decides *)

Lemma Object_is_true (a b : value) : Object_is a b = true ↔ a = b.
Proof. unfold Object_is. by rewrite bool_decide_eq_true. Qed.

Lemma Object_keys_length (o : obj) : length (Object_keys o) = size o.
Proof. unfold Object_keys. by rewrite length_fmap, length_map_to_list. Qed.

Lemma elem_of_Object_keys (o : obj) (key : string) :
  key ∈ Object_keys o ↔ is_Some (o !! key).
Proof.
  unfold Object_keys. rewrite list_elem_of_fmap. split.
  - intros [[k v] [-> Hin]]. apply elem_of_map_to_list in Hin. by exists v.
  - intros [v Hv]. exists (key, v). split; [done|]. by apply elem_of_map_to_list.
Qed.

Lemma shallowEqual_loop_true (a b : obj) (keys : list string) :
  shallowEqual_loop a b keys = true ↔
  ∀ key, key ∈ keys → is_Some (b !! key) ∧ prop a key = prop b key.
Proof.
  induction keys as [|key rest IH]; simpl.
  - split; [|done]. intros _ key Hin. by apply elem_of_nil in Hin.
  - destruct (hasOwnProperty b key) eqn:Hown; simpl.
    + destruct (Object_is (prop a key) (prop b key)) eqn:His; simpl.
      * rewrite IH. apply Object_is_true in His.
        apply bool_decide_eq_true in Hown. split.
        -- intros Hrest k Hin. apply elem_of_cons in Hin as [->|Hin]; auto.
        -- intros Hall k Hin. apply Hall. by right.
      * split; [done|]. intros Hall.
        destruct (Hall key) as [_ Heq]; [by left|].
        apply Object_is_true in Heq. congruence.
    + split; [done|]. intros Hall.
      destruct (Hall key) as [Hsome _]; [by left|].
      apply bool_decide_eq_false in Hown. done.
Qed.

(** On finite maps the comparison is equality: same keys, same values. *)
Lemma shallowEqual_true (a b : obj) : shallowEqual a b = true ↔ a = b.
Proof.
  unfold shallowEqual. rewrite !Object_keys_length. split.
  - destruct (size a =? size b) eqn:Hsz; simpl; [|done].
    apply Nat.eqb_eq in Hsz. rewrite shallowEqual_loop_true. intros Hall.
    apply map_subseteq_size_eq; [|lia].
    apply map_subseteq_spec. intros k v Hk.
    destruct (Hall k) as [[w Hw] Heq].
    { apply elem_of_Object_keys. by exists v. }
    unfold prop in Heq. rewrite Hk, Hw in Heq. simpl in Heq. by subst.
  - intros ->. rewrite Nat.eqb_refl. simpl. apply shallowEqual_loop_true.
    intros k Hin. by apply elem_of_Object_keys in Hin.
Qed.

Lemma shallowEqual_false (a b : obj) : shallowEqual a b = false ↔ a ≠ b.
Proof.
  rewrite <- shallowEqual_true. destruct (shallowEqual a b); split; congruence.
Qed.

Lemma lookup_spread (a b : obj) (key : string) :
  spread a b !! key = match b !! key with Some v => Some v | None => a !! key end.
Proof.
  unfold spread. rewrite lookup_union. destruct (b !! key), (a !! key); done.
Qed.

Lemma shallow_equal_eq (a b : obj) : Spec.shallow_equal a b ↔ a = b.
Proof.
  split.
  - intros [Hkeys Hvals]. apply map_eq. intros key.
    destruct (a !! key) as [va|] eqn:Ha, (b !! key) as [vb|] eqn:Hb.
    + f_equal. apply Object_is_true. by eapply Hvals.
    + destruct (Hkeys key) as [Hab _]. rewrite Ha, Hb in Hab.
      destruct Hab as [? ?]; [by eexists|done].
    + destruct (Hkeys key) as [_ Hba]. rewrite Ha, Hb in Hba.
      destruct Hba as [? ?]; [by eexists|done].
    + done.
  - intros ->. split; [done|]. intros key va vb Ha Hb.
    apply Object_is_true. congruence.
Qed.

(** ** The store *)

Section StoreFacts.
Import Store.
Context (P : Platform) (st : Store).

Lemma state_persist w : state (persist P st w) = state w.
Proof.
  unfold persist. destruct (truthy _); [|done].
  destruct (JSON_stringify _ _); [|done]. by destruct (setItem _ _ _).
Qed.

Lemma state_devtools_report prevState newState w :
  state (devtools_report P st prevState newState w) = state w.
Proof. unfold devtools_report. by destruct (_ && _). Qed.

Lemma setState_state partial w :
  state (setState P st partial w) = spread (state w) (resolve partial (state w)).
Proof.
  unfold setState.
  destruct (shallowEqual _ _) eqn:Heq; simpl.
  - by apply shallowEqual_true in Heq.
  - rewrite state_devtools_report. unfold notify. simpl. by rewrite state_persist.
Qed.

Lemma setState_same partial w :
  spread (state w) (resolve partial (state w)) = state w →
  setState P st partial w = w.
Proof.
  intros Hsame. unfold setState.
  assert (shallowEqual (state w) (spread (state w) (resolve partial (state w))) = true)
    as ->; [|done].
  apply shallowEqual_true. done.
Qed.

Lemma setState_changed partial w :
  spread (state w) (resolve partial (state w)) ≠ state w →
  setState P st partial w =
    let newState := spread (state w) (resolve partial (state w)) in
    devtools_report P st (state w) newState
      (notify (persist P st (with_state newState w))).
Proof.
  intros Hne. unfold setState.
  assert (shallowEqual (state w) (spread (state w) (resolve partial (state w))) = false)
    as ->; [|done].
  apply shallowEqual_false. congruence.
Qed.

Lemma localStorage_setState_changed partial w :
  spread (state w) (resolve partial (state w)) ≠ state w →
  localStorage (setState P st partial w) =
    localStorage (persist P st (with_state (spread (state w) (resolve partial (state w))) w)).
Proof.
  intros Hne. rewrite setState_changed by done. simpl.
  unfold devtools_report. by destruct (_ && _).
Qed.

Lemma calls_setState_changed partial w :
  spread (state w) (resolve partial (state w)) ≠ state w →
  calls (setState P st partial w) = calls w ++ listeners w.
Proof.
  intros Hne. rewrite setState_changed by done. simpl.
  unfold devtools_report, persist.
  destruct (_ && _), (truthy _); simpl; try done;
    destruct (JSON_stringify _ _); simpl; try done;
    by destruct (setItem _ _ _).
Qed.

End StoreFacts.

Lemma loadingKey_errorKey (name : string) : Store.loadingKey name ≠ Store.errorKey name.
Proof.
  unfold Store.loadingKey, Store.errorKey.
  induction name as [|c name IH]; simpl; [done|]. intros [= ?]. done.
Qed.

Lemma getItem_setItem (ls ls' : Storage) (key text : string) :
  setItem ls key text = Some ls' → getItem ls' key = Some text.
Proof.
  unfold setItem, getItem. case_decide; [|done]. intros [= <-]. simpl.
  apply lookup_insert_eq.
Qed.

Lemma getItem_persist_other (P : Platform) (st : Store.Store) (w : Store.Sys)
    (key : string) :
  Store.truthy (Store.persistKey st) ≠ Some key →
  getItem (Store.localStorage (Store.persist P st w)) key
  = getItem (Store.localStorage w) key.
Proof.
  intros Hkey. unfold Store.persist.
  destruct (Store.truthy (Store.persistKey st)) as [k|]; [|done].
  destruct (JSON_stringify P (Store.state w)) as [text|]; [|done].
  unfold setItem. case_decide; [|done]. unfold getItem. simpl.
  apply lookup_insert_ne. congruence.
Qed.

Lemma getItem_setState_other (P : Platform) (st : Store.Store) (partial : Store.Partial)
    (w : Store.Sys) (key : string) :
  Store.truthy (Store.persistKey st) ≠ Some key →
  getItem (Store.localStorage (Store.setState P st partial w)) key
  = getItem (Store.localStorage w) key.
Proof.
  intros Hkey. unfold Store.setState. destruct (shallowEqual _ _); simpl; [done|].
  unfold Store.devtools_report. destruct (_ && _); simpl;
    by rewrite getItem_persist_other.
Qed.

(** What [persist] does when the write throws: a warning, and nothing else. *)
Lemma persist_failed (P : Platform) (st : Store.Store) (w : Store.Sys) (key : string) :
  Store.truthy (Store.persistKey st) = Some key →
  match JSON_stringify P (Store.state w) with
  | Some text => setItem (Store.localStorage w) key text = None
  | None => True
  end →
  Store.persist P st w
  = Store.console_warn ("Failed to persist state for " +:+ Store.name st +:+ ":") w.
Proof.
  intros Hkey Hfails. unfold Store.persist. rewrite Hkey.
  destruct (JSON_stringify P (Store.state w)) as [text|]; [|done]. by rewrite Hfails.
Qed.

(** On the store itself the general action is [createAsyncAction]. *)
Lemma createAsyncAction_plain {Args Result : Type} (P : Platform) (st : Store.Store)
    (name : string) (asyncFn : Store.AsyncFn Args Result) (args : Args) (w : Store.Sys) :
  Store.createAsyncAction_wrapped (Store.setState P st) name asyncFn args w
  = Store.createAsyncAction P st name asyncFn args w.
Proof.
  unfold Store.createAsyncAction_wrapped, Store.createAsyncAction, Store.async_begin.
  by destruct (asyncFn args _) as [w' [result|error]].
Qed.

(** C6.  Store updates are last-write-wins merges.  After [setState(p1)] and
    then [setState(p2)], every key has its value in [p2] if [p2] has it, else
    its value in [p1] if [p1] has it, else its value in the state before; and
    no call of [setState], with an object or with a function, takes a key
    away. *)
Theorem setState_last_write_wins (P : Platform) (st : Store.Store) (w : Store.Sys)
    (p1 p2 : obj) :
  let w2 := Store.setState P st (Store.PartialObject p2)
              (Store.setState P st (Store.PartialObject p1) w) in
  (∀ key, Store.state w2 !! key =
            match p2 !! key with
            | Some v => Some v
            | None => match p1 !! key with
                      | Some v => Some v
                      | None => Store.state w !! key
                      end
            end) ∧
  (∀ partial, dom (Store.state w) ⊆ dom (Store.state (Store.setState P st partial w))).
Proof.
  split.
  - intros key. rewrite !setState_state. simpl. by rewrite !lookup_spread.
  - intros partial. rewrite setState_state. unfold spread.
    rewrite dom_union_L. set_solver.
Qed.

(** C8, as amended.  On the store that [createStore] builds, as it is returned
    when no middleware is given, a [setState] whose merged result is
    shallow-equal to the current state (same keys, each value identical under
    [Object.is]) does nothing: the state is unchanged, no listener is called,
    nothing is written to [localStorage], and nothing else of the system
    changes either. *)
Theorem setState_shallow_equal_noop (P : Platform) (st : Store.Store)
    (partial : Store.Partial) (w : Store.Sys) :
  let merged := spread (Store.state w) (Store.resolve partial (Store.state w)) in
  Spec.shallow_equal (Store.state w) merged →
  let w' := Store.setState P st partial w in
  Store.state w' = Store.state w ∧
  Store.calls w' = Store.calls w ∧
  Store.localStorage w' = Store.localStorage w ∧
  w' = w.
Proof.
  intros merged Heq w'. apply shallow_equal_eq in Heq.
  assert (w' = w) as ->; [|done].
  apply setState_same. done.
Qed.

Lemma setState_shallow_equal_noop_witness :
  let P := SampleJSON.platform in
  let st := Store.mkStore "settings" (Some "settings") true in
  let w := Store.mkSys (<["theme" := VStr "dark"]> (<["size" := VNum 2]> ∅)) [7]
             (mkStorage ∅ 1000) [] [] [] in
  let partial := Store.PartialObject {[ "theme" := VStr "dark" ]} in
  Spec.shallow_equal (Store.state w)
    (spread (Store.state w) (Store.resolve partial (Store.state w))) ∧
  Store.calls (Store.setState P st partial w) = [] ∧
  Store.localStorage (Store.setState P st partial w) = mkStorage ∅ 1000.
Proof.
  intros P st w partial.
  assert (Spec.shallow_equal (Store.state w)
            (spread (Store.state w) (Store.resolve partial (Store.state w)))) as Heq.
  { apply shallow_equal_eq. by vm_compute. }
  split; [exact Heq|].
  destruct (setState_shallow_equal_noop P st partial w Heq) as (_ & Hcalls & Hls & _).
  split; [exact Hcalls | exact Hls].
Defined.

(** C8 as it is written fails: on a store that [advancedPersistenceMiddleware]
    wraps, a [setState] whose merged result is shallow-equal to the state,
    and which leaves the state as it is, writes to [localStorage]. *)
Lemma persistence_middleware_writes_anyway :
  let P := SampleJSON.platform in
  let D := SampleJSON.data_json in
  let st := Store.mkStore "prefs" None false in
  let options := Store.mkPersistenceOptions None None in
  let w := Store.mkSys {[ "theme" := VStr "light" ]} [] (mkStorage ∅ 1000) [] [] [] in
  let partial := Store.PartialObject {[ "theme" := VStr "light" ]} in
  let w1 := Store.persistence_setState P st D "prefs" options 5000 partial w in
  Spec.shallow_equal (Store.state w)
    (spread (Store.state w) (Store.resolve partial (Store.state w))) ∧
  Store.state w1 = Store.state w ∧
  getItem (Store.localStorage w) "prefs" = None ∧
  is_Some (getItem (Store.localStorage w1) "prefs") ∧
  Store.localStorage w1 ≠ Store.localStorage w.
Proof.
  intros P D st options w partial w1.
  split; [apply shallow_equal_eq; by vm_compute|].
  split; [vm_compute; reflexivity|].
  split; [reflexivity|].
  split; [vm_compute; eexists; reflexivity|].
  intros Heq. apply (f_equal (λ ls, getItem ls "prefs")) in Heq.
  vm_compute in Heq. discriminate Heq.
Qed.



(** What the revert of an optimistic action reaches, on the store that
    [createStore] builds.  The action applies the optimistic update at once.
    When the wrapped function then rejects without having changed the state,
    the error is thrown again and every key of the state read before the
    update has its former value again; the state is that state again when the
    update brought no key that it lacked. *)
Lemma optimistic_action_reverts {Args Result : Type} (P : Platform) (st : Store.Store)
    (name : string) (optimisticUpdate : obj → Args → obj)
    (asyncFn : Store.AsyncFn Args Result) (args : Args) (w w2 : Store.Sys)
    (error : value) :
  let current := Store.state w in
  let w1 := (Store.optimistic_begin P st optimisticUpdate args w).2 in
  asyncFn args w1 = (w2, inr error) →
  Store.state w2 = Store.state w1 →
  Store.state w1 = spread current (optimisticUpdate current args) ∧
  ∃ w3, Store.createOptimisticAction P st name optimisticUpdate asyncFn args w
          = (w3, inr error) ∧
        (∀ key v, current !! key = Some v → Store.state w3 !! key = Some v) ∧
        (dom (optimisticUpdate current args) ⊆ dom current → Store.state w3 = current).
Proof.
  intros current w1 Hrejects Hsame. subst current.
  assert (Store.state w1 = spread (Store.state w) (optimisticUpdate (Store.state w) args))
    as Hw1.
  { unfold w1, Store.optimistic_begin. simpl. by rewrite setState_state. }
  split; [done|].
  unfold Store.createOptimisticAction, Store.optimistic_begin, Store.getState.
  unfold w1, Store.optimistic_begin, Store.getState in Hrejects. simpl in Hrejects.
  rewrite Hrejects. simpl. eexists. split; [reflexivity|].
  rewrite setState_state, Hsame, Hw1. simpl. split.
  - intros key v Hkey. rewrite lookup_spread. by rewrite Hkey.
  - intros Hdom. apply map_eq. intros key. rewrite !lookup_spread.
    destruct (Store.state w !! key) as [v|] eqn:Hkey; [done|].
    destruct (optimisticUpdate (Store.state w) args !! key) as [v|] eqn:Hupd; [|done].
    assert (key ∈ dom (Store.state w)) as Hin.
    { apply Hdom. apply elem_of_dom. by eexists. }
    apply elem_of_dom in Hin as [? ?]. congruence.
Qed.

Lemma optimistic_action_reverts_witness :
  let P := SampleJSON.platform in
  let st := Store.mkStore "auth" (Some "auth-state") true in
  let w := Store.mkSys (<["user" := VStr "Ann"]> (<["isAuthenticated" := VBool true]> ∅))
             [1] (mkStorage ∅ 1000) [] [] [] in
  let update := λ (_ : obj) (name : string), ({[ "user" := VStr name ]} : obj) in
  let asyncFn : Store.AsyncFn string unit :=
    λ _ w, (w, inr (VStr "Failed to update profile")) in
  Store.state (Store.optimistic_begin P st update "Bea" w).2 !! "user" = Some (VStr "Bea") ∧
  ∃ w3, Store.createOptimisticAction P st "updateProfile" update asyncFn "Bea" w
          = (w3, inr (VStr "Failed to update profile")) ∧
        Store.state w3 = Store.state w.
Proof.
  intros P st w update asyncFn.
  assert (asyncFn "Bea" (Store.optimistic_begin P st update "Bea" w).2
          = ((Store.optimistic_begin P st update "Bea" w).2,
             inr (VStr "Failed to update profile"))) as Hrejects by reflexivity.
  destruct (optimistic_action_reverts P st "updateProfile" update asyncFn "Bea" w
              _ _ Hrejects eq_refl)
    as (Hbegin & w3 & Hrun & _ & Hback).
  split.
  - rewrite Hbegin. by vm_compute.
  - exists w3. split; [exact Hrun|]. apply Hback. unfold update, w, Store.state.
    rewrite dom_singleton_L, !dom_insert_L. apply union_subseteq_l.
Defined.

(** C1.  The claim is what the code means to do (it calls its last step
    "Revert optimistic update") and misses: the revert is a [setState] of the
    former state, which merges it into the current one.  Here the state is
    [{ name: 'Ann' }], the optimistic update is [{ draft: true }] and the
    wrapped function rejects without touching the state: the error is thrown
    again, but the state ends as [{ name: 'Ann', draft: true }], not as the
    state read before the update. *)
Lemma optimistic_revert_keeps_added_key :
  let P := SampleJSON.platform in
  let st := Store.mkStore "profile" None false in
  let w := Store.mkSys {[ "name" := VStr "Ann" ]} [] (mkStorage ∅ 0) [] [] [] in
  let update := λ (_ : obj) (_ : unit), ({[ "draft" := VBool true ]} : obj) in
  let asyncFn : Store.AsyncFn unit unit := λ _ w, (w, inr (VStr "offline")) in
  let w1 := (Store.optimistic_begin P st update () w).2 in
  let w3 := (Store.createOptimisticAction P st "save" update asyncFn () w).1 in
  asyncFn () w1 = (w1, inr (VStr "offline")) ∧
  (Store.createOptimisticAction P st "save" update asyncFn () w).2 = inr (VStr "offline") ∧
  Store.state w3 = <["draft" := VBool true]> {[ "name" := VStr "Ann" ]} ∧
  Store.state w3 ≠ Store.state w.
Proof.
  intros P st w update asyncFn w1 w3.
  split; [reflexivity|].
  (split; [vm_compute; reflexivity|]).
  (split; [vm_compute; reflexivity|]).
  intros Heq. apply (f_equal (λ m : obj, m !! "draft")) in Heq.
  (vm_compute in Heq). discriminate Heq.
Qed.



(** ** The retry of a lazy import *)

Lemma backoff_exact (retryCount : nat) :
  retryCount ≤ 1077 →
  LazyImport.backoff retryCount = (Qpower 2 (3 - Z.of_nat retryCount) * 1000)%Q.
Proof.
  intros Hle. unfold LazyImport.backoff, LazyImport.Math_pow2.
  destruct (Z.ltb_spec (3 - Z.of_nat retryCount) (-1074)) as [Hlt|_]; [lia|done].
Qed.

Lemma backoff_underflow (retryCount : nat) :
  1078 ≤ retryCount → (LazyImport.backoff retryCount == 0)%Q.
Proof.
  intros Hle. unfold LazyImport.backoff, LazyImport.Math_pow2.
  destruct (Z.ltb_spec (3 - Z.of_nat retryCount) (-1074)) as [_|Hge]; [|lia].
  ring.
Qed.

Lemma attempts_waits (delay : nat → Q) (start n : nat) :
  Spec.attempts
    (LazyImport.Attempt
       :: flat_map (λ k, [LazyImport.Wait (delay k); LazyImport.Attempt]) (seq start n))
  = n + 1.
Proof.
  unfold Spec.attempts. simpl. f_equal.
  revert start. induction n as [|n IH]; intros start; simpl; [done|].
  by rewrite IH.
Qed.

Lemma flat_map_seq_shift {A} (f g : nat → list A) (start n : nat) :
  (∀ k, g (S k) = f k) →
  flat_map g (seq (S start) n) = flat_map f (seq start n).
Proof.
  intros Hshift. revert start. induction n as [|n IH]; intros start; simpl; [done|].
  by rewrite Hshift, IH.
Qed.

Lemma retryImport_rejected {T : Type} (importFn : nat → T + value)
    (retryCount made : nat) (error : value) :
  importFn made = inr error →
  LazyImport.retryImport importFn (S retryCount) made
  = (LazyImport.Attempt :: LazyImport.Wait (LazyImport.backoff (S retryCount))
       :: (LazyImport.retryImport importFn retryCount (S made)).1,
     (LazyImport.retryImport importFn retryCount (S made)).2).
Proof.
  intros Hfirst. cbn [LazyImport.retryImport]. rewrite Hfirst.
  by destruct (LazyImport.retryImport importFn retryCount (S made)).
Qed.

(** The run of [retryImport] when [made] calls of [importFn] came before: the
    attempts, and before the [k]-th retry the delay that the code computes
    with the count it then has, [retryCount + 1 - k]. *)
Lemma retryImport_run {T : Type} (importFn : nat → T + value) (retryCount made : nat) :
  ∃ n, n ≤ retryCount ∧
       (LazyImport.retryImport importFn retryCount made).1
         = LazyImport.Attempt
           :: flat_map (λ k, [LazyImport.Wait (LazyImport.backoff (S retryCount - k));
                              LazyImport.Attempt]) (seq 1 n) ∧
       (LazyImport.retryImport importFn retryCount made).2 = importFn (made + n) ∧
       (∀ i, i < n → Spec.rejected (importFn (made + i)) = true) ∧
       (Spec.rejected (importFn (made + n)) = true → n = retryCount).
Proof.
  revert made. induction retryCount as [|retryCount IH]; intros made.
  - exists 0. rewrite Nat.add_0_r. simpl.
    destruct (importFn made) eqn:Hfirst; simpl; repeat split; auto; intros; lia.
  - destruct (importFn made) as [module|error] eqn:Hfirst.
    + exists 0. rewrite Nat.add_0_r. cbn [LazyImport.retryImport]. rewrite Hfirst. simpl.
      repeat split; auto; try lia; try done.
    + destruct (IH (S made)) as (n & Hn & Hevents & Hsettled & Hbefore & Hlast).
      rewrite (retryImport_rejected _ _ _ error Hfirst). cbn [fst snd].
      exists (S n). replace (made + S n) with (S made + n) by lia.
      split; [lia|]. split; [|split; [done|split]].
      * rewrite Hevents. cbn [seq flat_map app]. do 3 f_equal.
        symmetry. by apply flat_map_seq_shift.
      * intros [|i] Hi.
        -- by rewrite Nat.add_0_r, Hfirst.
        -- replace (made + S i) with (S made + i) by lia. apply Hbefore. lia.
      * intros Hrej. f_equal. by apply Hlast.
Qed.

(** Up to 1077 the delays that the code computes are those of the claim. *)
Lemma retry_events_exact (retryCount n : nat) :
  retryCount ≤ 1077 → n ≤ retryCount →
  LazyImport.Attempt
    :: flat_map (λ k, [LazyImport.Wait (LazyImport.backoff (S retryCount - k));
                       LazyImport.Attempt]) (seq 1 n)
  = Spec.retry_events retryCount n.
Proof.
  intros Hrange Hn. unfold Spec.retry_events. f_equal.
  rewrite !flat_map_concat_map. f_equal. apply map_ext_in.
  intros k Hk. apply in_seq in Hk. do 2 f_equal.
  rewrite backoff_exact by lia. unfold Spec.retry_delay. do 2 f_equal. lia.
Qed.

Lemma retry_delay_doubles (retryCount k : nat) :
  (Spec.retry_delay retryCount (S k) == 2 * Spec.retry_delay retryCount k)%Q.
Proof.
  unfold Spec.retry_delay.
  replace (3 - Z.of_nat retryCount + Z.of_nat (S k) - 1)%Z
    with (1 + (3 - Z.of_nat retryCount + Z.of_nat k - 1))%Z by lia.
  rewrite Qpower_plus by discriminate.
  change (2 ^ 1)%Q with 2%Q. ring.
Qed.

(** C2, as amended.  For every [retryCount], [retryImport] calls [importFn]
    at most [retryCount + 1] times; it settles as the last attempt did; the
    attempts before the last were all rejected, so a value returned is that
    of the first attempt that succeeded; and the last attempt is rejected
    only when it is attempt [retryCount + 1], whose error is then thrown.
    For [retryCount] up to 1077 its events are an attempt and then, for each
    retry [k = 1..n], a wait of [2^(3 - retryCount + k - 1) * 1000] ms
    followed by an attempt.  Each of these delays is twice the one before,
    and with [retryCount = 3] they are 1000, 2000 and 4000 ms. *)
Theorem retryImport_backoff {T : Type} (importFn : nat → T + value) (retryCount : nat) :
  let run := LazyImport.retryImport importFn retryCount 0 in
  Spec.attempts run.1 ≤ retryCount + 1 ∧
  (∃ n, n ≤ retryCount ∧
        Spec.attempts run.1 = n + 1 ∧
        run.2 = importFn n ∧
        (∀ i, i < n → Spec.rejected (importFn i) = true) ∧
        (Spec.rejected (importFn n) = true → n = retryCount) ∧
        (retryCount ≤ 1077 → run.1 = Spec.retry_events retryCount n)) ∧
  (∀ k, Spec.retry_delay retryCount (S k) == 2 * Spec.retry_delay retryCount k)%Q ∧
  (Spec.retry_delay 3 1 == 1000 ∧ Spec.retry_delay 3 2 == 2000 ∧
   Spec.retry_delay 3 3 == 4000)%Q.
Proof.
  intros run.
  destruct (retryImport_run importFn retryCount 0)
    as (n & Hn & Hevents & Hsettled & Hbefore & Hlast).
  fold run in Hevents, Hsettled. simpl in Hsettled, Hbefore, Hlast.
  assert (Spec.attempts run.1 = n + 1) as Hattempts.
  { rewrite Hevents. apply attempts_waits. }
  split; [lia|]. split.
  - exists n. split; [done|]. split; [done|]. split; [done|]. split; [done|].
    split; [done|]. intros Hrange. rewrite Hevents. by apply retry_events_exact.
  - split; [intros k; apply retry_delay_doubles|]. repeat split; reflexivity.
Qed.

(** C2 as the claim has it fails above 1077.  With [retryCount = 1078] and an
    import that always fails, the delay before the first retry is 0 and not
    [2^(3 - 1078) * 1000] ms, and the delay before the second retry, which is
    not 0, is not the double of it. *)
Lemma retryImport_underflow :
  let run := LazyImport.retryImport (λ _, inr VNull : unit + value) 1078 0 in
  ∃ first second rest,
    run.1 = LazyImport.Attempt :: LazyImport.Wait first
            :: LazyImport.Attempt :: LazyImport.Wait second :: rest ∧
    (first == 0)%Q ∧
    ¬ (first == Spec.retry_delay 1078 1)%Q ∧
    ¬ (second == 2 * first)%Q.
Proof.
  cbv zeta.
  change 1078 with (S (S 1076)).
  rewrite (retryImport_rejected _ _ _ VNull) by done.
  rewrite (retryImport_rejected _ _ _ VNull) by done.
  destruct (LazyImport.retryImport (λ _, inr VNull : unit + value) 1076 2)
    as [rest settled].
  exists (LazyImport.backoff 1078), (LazyImport.backoff 1077), rest.
  split; [reflexivity|].
  assert (LazyImport.backoff 1078 == 0)%Q as Hfirst by (apply backoff_underflow; lia).
  assert (0 < LazyImport.backoff 1077)%Q as Hsecond.
  { rewrite backoff_exact by lia.
    apply Qmult_lt_0_compat; [|reflexivity]. apply Qpower_0_lt. reflexivity. }
  assert (0 < Spec.retry_delay 1078 1)%Q as Hspec.
  { unfold Spec.retry_delay.
    apply Qmult_lt_0_compat; [|reflexivity]. apply Qpower_0_lt. reflexivity. }
  split; [exact Hfirst|]. split.
  - intros Heq. rewrite Hfirst in Heq. rewrite <- Heq in Hspec.
    by apply Qlt_irrefl in Hspec.
  - intros Heq. rewrite Hfirst in Heq. rewrite Heq in Hsecond.
    vm_compute in Hsecond. discriminate Hsecond.
Qed.

(** With the default count, an import that fails three times and then loads:
    four attempts, with waits of one, two and four seconds between them. *)
Example retryImport_fourth_attempt :
  LazyImport.retryImport
    (λ n, if n <? 3 then inr (VStr "Loading chunk failed") else inl tt) 3 0
  = ([LazyImport.Attempt; LazyImport.Wait 1000; LazyImport.Attempt;
      LazyImport.Wait 2000; LazyImport.Attempt; LazyImport.Wait 4000;
      LazyImport.Attempt], inl tt).
Proof. vm_compute. reflexivity. Qed.

(** With more retries than three the first delays are fractions of a second. *)
Example retryImport_five_retries :
  ((LazyImport.retryImport (λ _, inr VNull : unit + value) 5 0).1 =
   Spec.retry_events 5 5) ∧
  (Spec.retry_delay 5 1 == 250)%Q.
Proof. split; [vm_compute; reflexivity | reflexivity]. Qed.
(** ** The error boundary *)



(** When neither the report nor [onError] throws, [componentDidCatch_throwing]
    is [componentDidCatch]. *)
Lemma componentDidCatch_quiet (report_throws onError_throws : Boundary.Error → bool)
    (e : Boundary.Error) (info : string) (inst : Boundary.Instance) (pg : Boundary.Page) :
  report_throws e || Boundary.has_onError (Boundary.props inst) && onError_throws e = false →
  Boundary.componentDidCatch_throwing report_throws onError_throws e info inst pg
  = (Boundary.componentDidCatch e info inst pg, false).
Proof.
  intros Hquiet. apply orb_false_iff in Hquiet as [Hreport HonError].
  unfold Boundary.componentDidCatch_throwing, Boundary.componentDidCatch.
  rewrite Hreport. cbn [Boundary.timers Boundary.next_timer_id Boundary.reported
                        Boundary.onError_calls Boundary.development].
  rewrite HonError.
  destruct (bool_decide _ && _); [|done].
  by destruct (Boundary.scheduleRetry _ _).
Qed.

(** The timer of [componentDidCatch] when nothing throws. *)
Lemma componentDidCatch_schedules (e : Boundary.Error) (info : string)
    (inst : Boundary.Instance) (pg : Boundary.Page) :
  let after := Boundary.componentDidCatch e info inst pg in
  let n := Boundary.retryCount (Boundary.st inst) in
  if bool_decide (Boundary.level (Boundary.props inst) = Some Boundary.component ∧ n < 3)
  then
    ∃ id, Boundary.retryTimeoutId after.1 = Some id ∧
          Boundary.timers after.2 =
            match Boundary.retryTimeoutId inst with
            | Some old => filter (λ t, Boundary.timer_id t ≠ old) (Boundary.timers pg)
            | None => Boundary.timers pg
            end ++ [Boundary.mkTimer id (2 ^ n * 1000) Boundary.retry_cb]
  else
    Boundary.timers after.2 = Boundary.timers pg ∧
    Boundary.retryTimeoutId after.1 = Boundary.retryTimeoutId inst.
Proof.
  intros after n. unfold after, Boundary.componentDidCatch. fold n.
  case_bool_decide as Hretry.
  - destruct Hretry as [Hlevel Hn].
    rewrite bool_decide_eq_true_2 by done.
    assert ((n <? Boundary.maxRetries) = true) as -> by (apply Nat.ltb_lt; done).
    simpl. unfold Boundary.scheduleRetry. simpl.
    destruct (Boundary.retryTimeoutId inst); simpl; eexists; split; reflexivity.
  - assert (bool_decide (Boundary.level (Boundary.props inst) = Some Boundary.component)
            && (n <? Boundary.maxRetries) = false) as ->; [|done].
    apply andb_false_iff.
    destruct (decide (Boundary.level (Boundary.props inst) = Some Boundary.component));
      [right|left].
    + apply Nat.ltb_ge. unfold Boundary.maxRetries.
      destruct (decide (n < 3)); [|lia]. by destruct Hretry.
    + by apply bool_decide_eq_false.
Qed.




(** ** The error reporting service *)

Lemma most_recent_drop {A} (n : nat) (l : list A) :
  Spec.most_recent n l = drop (length l - n) l.
Proof. unfold Spec.most_recent. by rewrite take_reverse, reverse_involutive. Qed.

Lemma slice_last_most_recent {A} (n : nat) (l : list A) :
  0 < n → Reporting.slice_last n l = Spec.most_recent n l.
Proof.
  intros Hn. unfold Reporting.slice_last. rewrite most_recent_drop.
  destruct n; [lia|done].
Qed.

Lemma most_recent_all {A} (n : nat) (l : list A) :
  length l ≤ n → Spec.most_recent n l = l.
Proof. intros Hlen. rewrite most_recent_drop. by replace (length l - n) with 0 by lia. Qed.

Lemma length_most_recent {A} (n : nat) (l : list A) :
  length (Spec.most_recent n l) = length l `min` n.
Proof. rewrite most_recent_drop, length_drop. lia. Qed.

Lemma most_recent_snoc {A} (n : nat) (l : list A) (x : A) :
  0 < n → Spec.most_recent n (Spec.most_recent n l ++ [x]) = Spec.most_recent n (l ++ [x]).
Proof.
  intros Hn. rewrite !most_recent_drop, !length_app, length_drop. simpl.
  destruct (decide (length l ≤ n)) as [Hle|Hgt].
  - replace (length l - n) with 0 by lia. simpl.
    by replace (length l - 0) with (length l) by lia.
  - replace (length l - (length l - n) + 1 - n) with 1 by lia.
    rewrite !drop_app_le by (rewrite ?length_drop; lia).
    rewrite drop_drop. do 2 f_equal. lia.
Qed.

Lemma most_recent_most_recent {A} (n m : nat) (l : list A) :
  n ≤ m → Spec.most_recent n (Spec.most_recent m l) = Spec.most_recent n l.
Proof.
  intros Hnm. rewrite !most_recent_drop, length_drop, drop_drop. f_equal. lia.
Qed.

Lemma errors_storeError {Report} (stringify : list Report → option string)
    (report : Report) (svc : Reporting.Service Report) :
  Reporting.errors (Reporting.storeError stringify report svc)
  = Spec.most_recent 100 (Reporting.errors svc ++ [report]).
Proof.
  unfold Reporting.storeError, Reporting.maxErrors. simpl.
  destruct (100 <? length (Reporting.errors svc ++ [report])) eqn:Hlen.
  - apply slice_last_most_recent. lia.
  - apply Nat.ltb_ge in Hlen. by rewrite most_recent_all.
Qed.

Lemma errors_report_all {Err Ctx Report} (build : Err → Ctx → Report)
    (stringify : list Report → option string) (calls : list (Err * Ctx)) (ls : Storage) :
  Reporting.errors (Reporting.report_all build stringify calls (Reporting.mkService [] ls))
  = Spec.most_recent 100 ((λ call, build call.1 call.2) <$> calls).
Proof.
  induction calls as [|call calls IH] using rev_ind; [done|].
  unfold Reporting.report_all in *. rewrite fold_left_app. cbn [fold_left].
  unfold Reporting.reportError at 1. rewrite errors_storeError, IH.
  rewrite fmap_app. simpl. apply most_recent_snoc. lia.
Qed.

(** C10.  After every [reportError], whatever calls came before since the
    service started: [errors] has at most 100 entries and they are the most
    recent reports, oldest first; the text written under ['error_reports'] is
    that of the 10 most recent reports (fewer if there are fewer); when the
    text cannot be made or written the storage stays as it was; and [errors]
    does not depend on how the writing went. *)
Theorem reportError_bounded_history {Err Ctx Report : Type} (build : Err → Ctx → Report)
    (stringify : list Report → option string) (ls : Storage)
    (calls : list (Err * Ctx)) (e : Err) (context : Ctx) :
  let before := Reporting.report_all build stringify calls (Reporting.mkService [] ls) in
  let after := Reporting.reportError build stringify e context before in
  let reports := ((λ call, build call.1 call.2) <$> calls) ++ [build e context] in
  length (Reporting.errors after) ≤ 100 ∧
  Reporting.errors after = Spec.most_recent 100 reports ∧
  length (Spec.most_recent 10 reports) ≤ 10 ∧
  match stringify (Spec.most_recent 10 reports) with
  | Some text =>
      match setItem (Reporting.localStorage before) "error_reports" text with
      | Some ls' =>
          Reporting.localStorage after = ls' ∧
          getItem (Reporting.localStorage after) "error_reports" = Some text
      | None => Reporting.localStorage after = Reporting.localStorage before
      end
  | None => Reporting.localStorage after = Reporting.localStorage before
  end ∧
  (∀ stringify' ls',
     Reporting.errors
       (Reporting.reportError build stringify' e context
          (Reporting.report_all build stringify' calls (Reporting.mkService [] ls')))
     = Reporting.errors after).
Proof.
  intros before after reports.
  assert (∀ stringify' ls',
            Reporting.errors
              (Reporting.reportError build stringify' e context
                 (Reporting.report_all build stringify' calls (Reporting.mkService [] ls')))
            = Spec.most_recent 100 reports) as Herrors.
  { intros stringify' ls'. unfold Reporting.reportError at 1.
    rewrite errors_storeError, errors_report_all. apply most_recent_snoc. lia. }
  assert (Reporting.errors after = Spec.most_recent 100 reports) as Hafter
    by apply Herrors.
  split; [rewrite Hafter, length_most_recent; lia|].
  split; [done|].
  split; [rewrite length_most_recent; lia|].
  split; [|intros; by rewrite Herrors, Hafter].
  assert (Reporting.slice_last 10
            (if Reporting.maxErrors <? length (Reporting.errors before ++ [build e context])
             then Reporting.slice_last Reporting.maxErrors
                    (Reporting.errors before ++ [build e context])
             else Reporting.errors before ++ [build e context])
          = Spec.most_recent 10 reports) as Hlast.
  { change (Reporting.slice_last 10 (Reporting.errors after) = Spec.most_recent 10 reports).
    rewrite Hafter, slice_last_most_recent by lia.
    apply most_recent_most_recent. lia. }
  unfold after, Reporting.reportError, Reporting.storeError. simpl. rewrite Hlast.
  destruct (stringify (Spec.most_recent 10 reports)) as [text|]; [|done].
  destruct (setItem _ _ _) as [ls'|] eqn:Hset; [|done].
  split; [done|]. by eapply getItem_setItem.
Qed.

(** 105 reports: the five oldest are gone from [errors], the storage has the
    text of the last ten, and a storage without room changes nothing in
    [errors]. *)
Example reportError_105 :
  let stringify (l : list nat) := Some (pretty (length l) +:+ " reports") in
  let calls := (λ n, (n, tt)) <$> seq 0 105 in
  let run ls := Reporting.report_all (λ n _, n) stringify calls (Reporting.mkService [] ls) in
  Reporting.errors (run (mkStorage ∅ 1000)) = seq 5 100 ∧
  getItem (Reporting.localStorage (run (mkStorage ∅ 1000))) "error_reports"
    = Some "10 reports" ∧
  Reporting.errors (run (mkStorage ∅ 0)) = seq 5 100 ∧
  getItem (Reporting.localStorage (run (mkStorage ∅ 0))) "error_reports" = None.
Proof. vm_compute. repeat split. Qed.
(** ** The login schema *)

(** *** The matcher finds what the pattern matches *)

Lemma star_cons_inv (L : Login.jsstring → Prop) (c : N) (s : Login.jsstring) :
  Login.star L (c :: s) →
  ∃ s1 s2, s = s1 ++ s2 ∧ L (c :: s1) ∧ Login.star L s2.
Proof.
  intros Hstar. remember (c :: s) as cs eqn:Hcs. revert c s Hcs.
  induction Hstar as [|s1 s2 Hs1 Hs2 IH]; intros c s Hcs; [done|].
  destruct s1 as [|d s1]; simpl in Hcs.
  - by apply IH.
  - injection Hcs as -> <-. by exists s1, s2.
Qed.

Lemma nullable_matches (r : Login.Regex) :
  Login.nullable r = true ↔ Login.matches r [].
Proof.
  induction r as [| | c | items | items | r1 IH1 r2 IH2 | r1 IH1 r2 IH2 | r IH | r IH];
    simpl.
  - done.
  - done.
  - done.
  - split; [done|]. by intros (c & ? & _).
  - split; [done|]. by intros (c & ? & _).
  - rewrite andb_true_iff, IH1, IH2. split.
    + intros [H1 H2]. by exists [], [].
    + intros (s1 & s2 & Heq & H1 & H2). symmetry in Heq.
      apply app_eq_nil in Heq as [-> ->]. done.
  - by rewrite orb_true_iff, IH1, IH2.
  - split; [|done]. intros _. constructor.
  - rewrite IH. split.
    + intros Hr. exists [], []. repeat split; [done|constructor].
    + intros (s1 & s2 & Heq & H1 & _). symmetry in Heq.
      apply app_eq_nil in Heq as [-> _]. done.
Qed.

Lemma deriv_matches (c : N) (r : Login.Regex) (s : Login.jsstring) :
  Login.matches (Login.deriv c r) s ↔ Login.matches r (c :: s).
Proof.
  revert s.
  induction r as [| | d | items | items | r1 IH1 r2 IH2 | r1 IH1 r2 IH2 | r IH | r IH];
    intros s; simpl.
  - done.
  - done.
  - destruct (N.eqb_spec c d) as [->|Hne]; simpl; split; try done.
    + by intros ->.
    + by intros [= ->].
    + intros [= ? ?]. done.
  - destruct (Login.class_has items c) eqn:Hc; simpl; split; try done.
    + intros ->. by exists c.
    + by intros (d & [= -> ->] & _).
    + intros (d & [= -> ->] & Hd). congruence.
  - destruct (Login.class_has items c) eqn:Hc; simpl; split; try done.
    + intros (d & [= -> ->] & Hd). congruence.
    + intros ->. by exists c.
    + by intros (d & [= -> ->] & _).
  - assert (Login.matches (Login.RSeq (Login.deriv c r1) r2) s ↔
            ∃ s1 s2, s = s1 ++ s2 ∧ Login.matches r1 (c :: s1) ∧ Login.matches r2 s2)
      as Hseq.
    { simpl. split; intros (s1 & s2 & -> & H1 & H2); exists s1, s2;
        (split; [done|]); split; try done; by apply IH1. }
    destruct (Login.nullable r1) eqn:Hnull.
    + change (Login.matches (Login.RSeq (Login.deriv c r1) r2) s
              ∨ Login.matches (Login.deriv c r2) s
              ↔ ∃ s1 s2, c :: s = s1 ++ s2 ∧ Login.matches r1 s1 ∧ Login.matches r2 s2).
      rewrite Hseq, IH2. apply nullable_matches in Hnull. split.
      * intros [(s1 & s2 & -> & H1 & H2) | H2].
        -- by exists (c :: s1), s2.
        -- by exists [], (c :: s).
      * intros ([|d s1] & s2 & Heq & H1 & H2); simpl in Heq.
        -- right. by rewrite Heq.
        -- injection Heq as <- ->. left. by exists s1, s2.
    + rewrite Hseq. split.
      * intros (s1 & s2 & -> & H1 & H2). by exists (c :: s1), s2.
      * intros ([|d s1] & s2 & Heq & H1 & H2); simpl in Heq.
        -- apply nullable_matches in H1. congruence.
        -- injection Heq as <- ->. by exists s1, s2.
  - by rewrite IH1, IH2.
  - split.
    + intros (s1 & s2 & -> & H1 & H2). apply IH in H1.
      by apply (Login.star_app _ (c :: s1) s2).
    + intros Hstar. apply star_cons_inv in Hstar as (s1 & s2 & -> & H1 & H2).
      exists s1, s2. by rewrite IH.
  - split.
    + intros (s1 & s2 & -> & H1 & H2). apply IH in H1. by exists (c :: s1), s2.
    + intros ([|d s1] & s2 & Heq & H1 & H2); simpl in Heq.
      * rewrite <- Heq in H2.
        apply star_cons_inv in H2 as (t1 & t2 & -> & Ht1 & Ht2).
        exists t1, t2. by rewrite IH.
      * injection Heq as <- ->. exists s1, s2. by rewrite IH.
Qed.

Lemma test_matches (r : Login.Regex) (s : Login.jsstring) :
  Login.test r s = true ↔ Login.matches r s.
Proof.
  unfold Login.test. revert r. induction s as [|c s IH]; intros r; simpl.
  - apply nullable_matches.
  - by rewrite IH, deriv_matches.
Qed.

(** *** What the two patterns match *)

(** One or more characters of a class: a text that is not empty and has only
    such characters. *)
Lemma star_chars (p : N → Prop) (L : Login.jsstring → Prop) (s : Login.jsstring) :
  (∀ t, L t ↔ ∃ c, t = [c] ∧ p c) →
  Login.star L s ↔ Forall p s.
Proof.
  intros HL. split.
  - induction 1 as [|s1 s2 Hs1 Hs2 IH]; [constructor|].
    apply HL in Hs1 as (c & -> & Hc). simpl. by constructor.
  - induction 1 as [|c s Hc Hs IH]; [constructor|].
    apply (Login.star_app L [c] s); [|done]. apply HL. by exists c.
Qed.

Lemma plus_chars (p : N → Prop) (L : Login.jsstring → Prop) (s : Login.jsstring) :
  (∀ t, L t ↔ ∃ c, t = [c] ∧ p c) →
  (∃ s1 s2, s = s1 ++ s2 ∧ L s1 ∧ Login.star L s2) ↔ s ≠ [] ∧ Forall p s.
Proof.
  intros HL. split.
  - intros (s1 & s2 & -> & Hs1 & Hs2). apply HL in Hs1 as (c & -> & Hc).
    split; [done|]. simpl. constructor; [done|]. by apply (star_chars p L).
  - intros [Hne Hall]. destruct Hall as [|c s Hc Hs]; [done|].
    exists [c], s. repeat split; [apply HL; by exists c|]. by apply (star_chars p L).
Qed.

Lemma plain_class (c : N) :
  Login.class_has [Login.Space; Login.One Login.at_sign] c = false ↔ Spec.plain c.
Proof.
  unfold Spec.plain, Login.class_has. simpl.
  rewrite orb_false_r, orb_false_iff, N.eqb_neq. done.
Qed.

Lemma matches_not_space_at (s : Login.jsstring) :
  Login.matches Login.not_space_at s ↔ s ≠ [] ∧ Forall Spec.plain s.
Proof.
  unfold Login.not_space_at. cbn [Login.matches]. apply plus_chars.
  intros t. split; intros (c & -> & Hc); exists c; (split; [done|]); by apply plain_class.
Qed.

Lemma matches_emailRegex (s : Login.jsstring) :
  Login.matches Login.emailRegex s ↔ Spec.email_pattern s.
Proof.
  unfold Login.emailRegex, Spec.email_pattern.
  change (Login.matches (Login.RSeq ?a ?b) ?t)
    with (∃ s1 s2, t = s1 ++ s2 ∧ Login.matches a s1 ∧ Login.matches b s2).
  split.
  - intros (name & s2 & -> & Hname & (s3 & s4 & -> & Hat & (domain & s5 & -> & Hdomain
              & (s6 & rest & -> & Hdot & Hrest)))).
    simpl in Hat, Hdot. subst s3 s6.
    apply matches_not_space_at in Hname as [? ?], Hdomain as [? ?], Hrest as [? ?].
    exists name, domain, rest. done.
  - intros (name & domain & rest & -> & ? & ? & ? & ? & ? & ?).
    exists name, ([Login.at_sign] ++ domain ++ [Login.dot] ++ rest).
    split; [done|]. split; [by apply matches_not_space_at|].
    exists [Login.at_sign], (domain ++ [Login.dot] ++ rest).
    split; [done|]. split; [done|].
    exists domain, ([Login.dot] ++ rest).
    split; [done|]. split; [by apply matches_not_space_at|].
    exists [Login.dot], rest. split; [done|]. split; [done|].
    by apply matches_not_space_at.
Qed.

Lemma username_class (c : N) :
  Login.class_has [Login.Range 97 122; Login.Range 65 90; Login.Range 48 57;
                   Login.One 95; Login.One Login.dot; Login.One 45] c = true
  ↔ Spec.username_char c.
Proof.
  unfold Spec.username_char, Login.class_has, Login.dot. simpl.
  rewrite !orb_true_iff, !andb_true_iff, !N.leb_le, !N.eqb_eq. intuition lia.
Qed.

Lemma matches_usernameRegex (s : Login.jsstring) :
  Login.matches Login.usernameRegex s ↔ s ≠ [] ∧ Forall Spec.username_char s.
Proof.
  unfold Login.usernameRegex. cbn [Login.matches]. apply plus_chars.
  intros t. split; intros (c & -> & Hc); exists c; (split; [done|]); by apply username_class.
Qed.

(** The refinement answers true for an email or a username of three
    characters or more. *)
Lemma email_or_username_true (s : Login.jsstring) :
  Login.email_or_username s = true ↔
  Spec.email_pattern s ∨ (3 ≤ length s ∧ Forall Spec.username_char s).
Proof.
  unfold Login.email_or_username.
  rewrite orb_true_iff, andb_true_iff, !test_matches, Nat.leb_le.
  rewrite matches_emailRegex, matches_usernameRegex. split.
  - intros [?|[? [? ?]]]; auto.
  - intros [?|[Hlen ?]]; auto. right. repeat split; auto.
    intros ->. simpl in Hlen. lia.
Qed.
(** *** The issues of the two fields *)

Lemma parse_emailOrUsername (v : Login.jsvalue) :
  (Login.parse_field
     (Login.z_refine (Login.z_string [Login.min 1 Login.msg_required])
        Login.email_or_username Login.msg_email_or_username)
     "emailOrUsername" v).2
  = Spec.emailOrUsername_issues v.
Proof.
  destruct v as [| | b | n | s | |]; try reflexivity.
  cbn [Login.parse_field Login.run_check fmap list_fmap concat Spec.emailOrUsername_issues].
  destruct (length s <? 1); destruct (Login.email_or_username s); simpl;
    by rewrite ?app_nil_r.
Qed.

Lemma parse_password (v : Login.jsvalue) :
  (Login.parse_field
     (Login.z_string [Login.min 6 Login.msg_password_min;
                      Login.max 128 Login.msg_password_max])
     "password" v).2
  = Spec.password_issues v.
Proof.
  destruct v as [| | b | n | s | |]; try reflexivity.
  cbn [Login.parse_field Login.run_check fmap list_fmap concat snd Spec.password_issues].
  by rewrite app_nil_r.
Qed.

Lemma safeParse_loginSchema (input : gmap string Login.jsvalue) :
  let read field := default Login.JUndefined (input !! field) in
  let issues :=
    Spec.emailOrUsername_issues (read "emailOrUsername")
    ++ Spec.password_issues (read "password") in
  Login.safeParse Login.loginSchema input =
    if bool_decide (issues = [])
    then Login.Success (<["emailOrUsername" := read "emailOrUsername"]>
                          (<["password" := read "password"]> ∅))
    else Login.Failure issues.
Proof.
  intros read issues. unfold Login.safeParse, Login.loginSchema.
  cbn [fmap list_fmap concat list_to_map foldr]. fold read.
  rewrite app_nil_r, parse_emailOrUsername, parse_password. reflexivity.
Qed.
Lemma elem_of_emailOrUsername_issues (v : Login.jsvalue) (i : Login.Issue) :
  i ∈ Spec.emailOrUsername_issues v ↔
  match v with
  | Login.JString s =>
      (i = Login.mkIssue Login.too_small "emailOrUsername" Login.msg_required ∧ s = [])
      ∨ (i = Login.mkIssue Login.custom "emailOrUsername" Login.msg_email_or_username
         ∧ Login.email_or_username s = false)
  | _ => ∃ message, i = Login.mkIssue Login.invalid_type "emailOrUsername" message
         ∧ Spec.emailOrUsername_issues v = [i]
  end.
Proof.
  destruct v as [| | b | n | s | |];
    try (simpl; rewrite list_elem_of_singleton; split;
         [intros ->; eexists; split; reflexivity | by intros (? & _ & [= <-])]).
  unfold Spec.emailOrUsername_issues. rewrite elem_of_app.
  destruct s as [|c s]; cbn [length Nat.ltb Nat.leb];
    destruct (Login.email_or_username _);
    rewrite ?elem_of_nil, ?list_elem_of_singleton; intuition (try congruence; try lia).
Qed.

Lemma elem_of_password_issues (v : Login.jsvalue) (i : Login.Issue) :
  i ∈ Spec.password_issues v ↔
  match v with
  | Login.JString s =>
      (i = Login.mkIssue Login.too_small "password" Login.msg_password_min ∧ length s < 6)
      ∨ (i = Login.mkIssue Login.too_big "password" Login.msg_password_max
         ∧ 128 < length s)
  | _ => ∃ message, i = Login.mkIssue Login.invalid_type "password" message
         ∧ Spec.password_issues v = [i]
  end.
Proof.
  destruct v as [| | b | n | s | |];
    try (simpl; rewrite list_elem_of_singleton; split;
         [intros ->; eexists; split; reflexivity | by intros (? & _ & [= <-])]).
  unfold Spec.password_issues. rewrite elem_of_app.
  destruct (Nat.ltb_spec (length s) 6), (Nat.ltb_spec 128 (length s));
    rewrite ?elem_of_nil, ?list_elem_of_singleton; intuition (try congruence; try lia).
Qed.

Lemma issue_path_emailOrUsername (v : Login.jsvalue) (i : Login.Issue) :
  i ∈ Spec.emailOrUsername_issues v → Login.path i = "emailOrUsername".
Proof.
  rewrite elem_of_emailOrUsername_issues.
  destruct v; try (by intros (? & -> & _)); by intros [[-> _]|[-> _]].
Qed.

Lemma issue_path_password (v : Login.jsvalue) (i : Login.Issue) :
  i ∈ Spec.password_issues v → Login.path i = "password".
Proof.
  rewrite elem_of_password_issues.
  destruct v; try (by intros (? & -> & _)); by intros [[-> _]|[-> _]].
Qed.

Lemma no_issues_iff (ev pv : Login.jsvalue) :
  Spec.emailOrUsername_issues ev ++ Spec.password_issues pv = [] ↔
  ∃ e p, ev = Login.JString e ∧ pv = Login.JString p ∧ e ≠ [] ∧
         Login.email_or_username e = true ∧ 6 ≤ length p ≤ 128.
Proof.
  rewrite app_nil. split.
  - intros [He Hp].
    destruct ev as [| | ? | ? | e | |]; try done.
    destruct pv as [| | ? | ? | p | |]; try done.
    exists e, p. unfold Spec.emailOrUsername_issues in He.
    unfold Spec.password_issues in Hp.
    apply app_nil in He as [He1 He2], Hp as [Hp1 Hp2].
    destruct e as [|c e]; [done|].
    destruct (Login.email_or_username (c :: e)); [|done].
    destruct (Nat.ltb_spec (length p) 6); [done|].
    destruct (Nat.ltb_spec 128 (length p)); [done|].
    repeat split; auto; lia.
  - intros (e & p & -> & -> & Hne & Hok & Hlen1 & Hlen2).
    unfold Spec.emailOrUsername_issues, Spec.password_issues.
    rewrite Hok.
    destruct (Nat.ltb_spec (length p) 6); [lia|].
    destruct (Nat.ltb_spec 128 (length p)); [lia|].
    by destruct e.
Qed.
Lemma read_string (input : gmap string Login.jsvalue) (field : string)
    (s : Login.jsstring) :
  default Login.JUndefined (input !! field) = Login.JString s ↔
  input !! field = Some (Login.JString s).
Proof.
  destruct (input !! field) as [v|]; simpl; split; intros H; congruence.
Qed.

(** C5.  [loginSchema] accepts an input object exactly when
    [emailOrUsername] is a string that is not empty and is either an email
    after the pattern or three or more characters among a-z, A-Z, 0-9,
    underscore, dot and hyphen, and [password] is a string of 6 to 128
    characters.  When it accepts, the two fields are returned.  When it
    rejects, no value is returned and there are issues: for a string field,
    the message of each rule the string breaks and of no other; for a field
    that is not a string, a type issue. *)
Theorem loginSchema_accepts (input : gmap string Login.jsvalue) :
  ((∃ data, Login.safeParse Login.loginSchema input = Login.Success data)
   ↔ Spec.valid_login input) ∧
  match Login.safeParse Login.loginSchema input with
  | Login.Success data =>
      data !! "emailOrUsername" = input !! "emailOrUsername" ∧
      data !! "password" = input !! "password"
  | Login.Failure issues =>
      issues ≠ [] ∧
      (∀ s, input !! "emailOrUsername" = Some (Login.JString s) →
         (s = [] ↔
          Login.mkIssue Login.too_small "emailOrUsername" Login.msg_required ∈ issues) ∧
         (¬ (Spec.email_pattern s ∨ (3 ≤ length s ∧ Forall Spec.username_char s)) ↔
          Login.mkIssue Login.custom "emailOrUsername" Login.msg_email_or_username
            ∈ issues)) ∧
      (∀ s, input !! "password" = Some (Login.JString s) →
         (length s < 6 ↔
          Login.mkIssue Login.too_small "password" Login.msg_password_min ∈ issues) ∧
         (128 < length s ↔
          Login.mkIssue Login.too_big "password" Login.msg_password_max ∈ issues)) ∧
      (∀ field, field = "emailOrUsername" ∨ field = "password" →
         (∀ s, input !! field ≠ Some (Login.JString s)) →
         ∃ message, Login.mkIssue Login.invalid_type field message ∈ issues)
  end.
Proof.
  rewrite safeParse_loginSchema. cbv zeta.
  set (ev := default Login.JUndefined (input !! "emailOrUsername")).
  set (pv := default Login.JUndefined (input !! "password")).
  assert (Spec.emailOrUsername_issues ev ++ Spec.password_issues pv = []
          ↔ Spec.valid_login input) as Hvalid.
  { rewrite no_issues_iff. unfold Spec.valid_login.
    split; intros (e & p & He & Hp & Hne & Hok & Hlen); exists e, p.
    - apply read_string in He, Hp. by rewrite <- email_or_username_true.
    - rewrite <- email_or_username_true in Hok. unfold ev, pv.
      by rewrite !read_string. }
  split.
  - rewrite <- Hvalid. case_bool_decide; split; try done.
    + by eexists.
    + by intros [? ?].
  - case_bool_decide as Hissues.
    + apply no_issues_iff in Hissues as (e & p & He & Hp & _).
      rewrite lookup_insert_eq, lookup_insert_ne, lookup_insert_eq by done.
      rewrite He, Hp. apply read_string in He, Hp. by rewrite He, Hp.
    + split; [done|]. split; [|split].
      * intros s Hs. apply read_string in Hs. fold ev in Hs.
        rewrite !elem_of_app, !elem_of_emailOrUsername_issues, Hs.
        rewrite <- email_or_username_true, not_true_iff_false. split.
        -- split.
           ++ intros ->. left. by left.
           ++ intros [[[_ ?]|[? _]]|Hin]; [done|done|].
              by apply issue_path_password in Hin.
        -- split.
           ++ intros Hno. left. by right.
           ++ intros [[[? _]|[_ ?]]|Hin]; [done|done|].
              by apply issue_path_password in Hin.
      * intros s Hs. apply read_string in Hs. fold pv in Hs.
        rewrite !elem_of_app, !elem_of_password_issues, Hs. split.
        -- split.
           ++ intros Hlen. right. by left.
           ++ intros [Hin|[[_ ?]|[? _]]]; [|done|done].
              by apply issue_path_emailOrUsername in Hin.
        -- split.
           ++ intros Hlen. right. by right.
           ++ intros [Hin|[[? _]|[_ ?]]]; [|done|done].
              by apply issue_path_emailOrUsername in Hin.
      * intros field [-> | ->] Hnot.
        -- assert (∀ s, ev ≠ Login.JString s) as Hev.
           { intros s Hs. apply read_string in Hs. by apply (Hnot s). }
           destruct ev eqn:Hv; try (by edestruct Hev);
             eexists; apply elem_of_app; left; simpl; by apply list_elem_of_singleton.
        -- assert (∀ s, pv ≠ Login.JString s) as Hpv.
           { intros s Hs. apply read_string in Hs. by apply (Hnot s). }
           destruct pv eqn:Hv; try (by edestruct Hpv);
             eexists; apply elem_of_app; right; simpl; by apply list_elem_of_singleton.
Qed.

(** An email and a password pass; a name of two letters with a short
    password gets the messages of the two rules broken. *)
Example loginSchema_on_inputs :
  let input e p : gmap string Login.jsvalue :=
    <["emailOrUsername" := Login.JString (Login.code_units e)]>
      {[ "password" := Login.JString (Login.code_units p) ]} in
  Login.safeParse Login.loginSchema (input "ann@example.com" "secret1")
    = Login.Success (input "ann@example.com" "secret1") ∧
  Login.safeParse Login.loginSchema (input "al" "12345")
    = Login.Failure
        [Login.mkIssue Login.custom "emailOrUsername" Login.msg_email_or_username;
         Login.mkIssue Login.too_small "password" Login.msg_password_min].
Proof. split; vm_compute; reflexivity. Qed.
(** * More of the store *)

Section StoreFrames.
Import Store.
Context (P : Platform) (st : Store).

Lemma listeners_persist w : listeners (persist P st w) = listeners w.
Proof.
  unfold persist. destruct (truthy _); [|done].
  destruct (JSON_stringify _ _); [|done]. by destruct (setItem _ _ _).
Qed.

Lemma listeners_setState partial w : listeners (setState P st partial w) = listeners w.
Proof.
  unfold setState. destruct (shallowEqual _ _); simpl; [done|].
  unfold devtools_report. destruct (_ && _); simpl; by rewrite listeners_persist.
Qed.

Lemma calls_setState partial w :
  calls (setState P st partial w)
  = calls w ++ (if decide (spread (state w) (resolve partial (state w)) = state w)
                then [] else listeners w).
Proof.
  case_decide as Hsame.
  - rewrite setState_same by done. by rewrite app_nil_r.
  - by apply calls_setState_changed.
Qed.

Lemma persist_written key text ls w :
  truthy (persistKey st) = Some key →
  JSON_stringify P (state w) = Some text →
  setItem (localStorage w) key text = Some ls →
  localStorage (persist P st w) = ls.
Proof. intros Hkey Htext Hset. unfold persist. by rewrite Hkey, Htext, Hset. Qed.

End StoreFrames.

Lemma truthy_Some (key : string) : key ≠ "" → Store.truthy (Some key) = Some key.
Proof. by destruct key. Qed.

Lemma lookup_removeItem (ls : Storage) (key : string) : getItem (removeItem ls key) key = None.
Proof. unfold getItem, removeItem. simpl. apply lookup_delete_eq. Qed.

(** [subscribe] adds to a set: subscribing a listener that is there changes
    nothing, so a listener subscribed twice is still called once for a change;
    and the function [subscribe] returns undoes the subscription of a listener
    that was not there before. *)
Theorem subscribe_is_set_insertion (P : Platform) (st : Store.Store) (l : Store.Listener)
    (partial : Store.Partial) (w : Store.Sys) :
  NoDup (Store.listeners w) →
  let w2 := Store.subscribe l (Store.subscribe l w) in
  w2 = Store.subscribe l w ∧
  NoDup (Store.listeners w2) ∧
  l ∈ Store.listeners w2 ∧
  (Store.state (Store.setState P st partial w2) ≠ Store.state w2 →
   ∃ before after,
     Store.calls (Store.setState P st partial w2) = Store.calls w ++ (before ++ l :: after) ∧
     (l ∉ before) ∧ (l ∉ after)) ∧
  (l ∉ Store.listeners w → Store.unsubscribe l w2 = w).
Proof.
  intros Hnodup w2.
  assert (w2 = Store.subscribe l w) as Hidem.
  { unfold w2, Store.subscribe at 1. case_bool_decide as Hin; [done|].
    destruct Hin. unfold Store.subscribe. case_bool_decide; [done|].
    simpl. apply elem_of_app. right. by apply list_elem_of_singleton. }
  assert (NoDup (Store.listeners w2) ∧ l ∈ Store.listeners w2) as [Hnd Hin].
  { rewrite Hidem. unfold Store.subscribe. case_bool_decide as Hl; [done|]. simpl. split.
    - apply NoDup_app. repeat split; [done| |apply NoDup_singleton].
      intros x Hx Hx'. apply list_elem_of_singleton in Hx'. by subst.
    - apply elem_of_app. right. by apply list_elem_of_singleton. }
  split; [done|]. split; [done|]. split; [done|]. split.
  - intros Hchanged. rewrite setState_state in Hchanged.
    rewrite calls_setState_changed by done.
    apply list_elem_of_split in Hin as (before & after & Hsplit).
    exists before, after. rewrite Hsplit in Hnd |- *.
    assert (Store.calls w2 = Store.calls w) as ->.
    { rewrite Hidem. unfold Store.subscribe. by case_bool_decide. }
    split; [done|].
    apply NoDup_app in Hnd as (_ & Hdisj & Hnd).
    apply NoDup_cons in Hnd as [Hafter _]. split; [|done].
    intros Hl. apply (Hdisj l Hl). by left.
  - intros Hnot. rewrite Hidem. unfold Store.subscribe.
    rewrite bool_decide_eq_false_2 by done.
    unfold Store.unsubscribe, Store.with_listeners. simpl.
    rewrite filter_app, filter_cons_False, filter_nil, app_nil_r by (intros ?; done).
    assert (filter (λ l', l' ≠ l) (Store.listeners w) = Store.listeners w) as ->.
    { clear -Hnot. induction (Store.listeners w) as [|x xs IH]; [done|].
      rewrite filter_cons_True.
      - f_equal. apply IH. intros ?. apply Hnot. by right.
      - intros ->. apply Hnot. by left. }
    by destruct w.
Qed.

Lemma subscribe_is_set_insertion_witness :
  let P := SampleJSON.platform in
  let st := Store.mkStore "auth" None false in
  let w := Store.mkSys {[ "n" := VNum 0 ]} [3] (mkStorage ∅ 0) [] [] [] in
  let w2 := Store.subscribe 5 (Store.subscribe 5 w) in
  NoDup (Store.listeners w) ∧
  Store.listeners w2 = [3; 5] ∧
  Store.unsubscribe 5 w2 = w.
Proof.
  intros P st w w2.
  assert (NoDup (Store.listeners w)) as Hnodup.
  { apply NoDup_singleton. }
  split; [exact Hnodup|]. split; [reflexivity|].
  destruct (subscribe_is_set_insertion P st 5 (Store.PartialObject ∅) w Hnodup)
    as (_ & _ & _ & _ & Hundo).
  apply Hundo. unfold w. simpl. intros Hin. apply list_elem_of_singleton in Hin. done.
Defined.

(** After [unsubscribe], no later [setState] calls the listener. *)
Theorem unsubscribe_silences (P : Platform) (st : Store.Store) (l : Store.Listener)
    (partial : Store.Partial) (w : Store.Sys) :
  let w1 := Store.unsubscribe l w in
  (l ∉ Store.listeners w1) ∧
  ∃ new, Store.calls (Store.setState P st partial w1) = Store.calls w ++ new ∧ l ∉ new.
Proof.
  intros w1.
  assert (l ∉ Store.listeners w1) as Hnot.
  { unfold w1, Store.unsubscribe. simpl. rewrite list_elem_of_filter. by intros [? _]. }
  split; [done|].
  rewrite calls_setState.
  case_decide; eexists; (split; [reflexivity|]); [apply not_elem_of_nil|done].
Qed.

(** [destroy] forgets the listeners and removes the stored item, but the
    store goes on: the state stays, and the next [setState] that changes it
    writes the item again (when the write succeeds) and calls nobody. *)
Theorem destroy_is_not_final (P : Platform) (st : Store.Store) (key : string)
    (partial : Store.Partial) (w : Store.Sys) :
  Store.persistKey st = Some key →
  key ≠ "" →
  let w1 := Store.destroy st w in
  let w2 := Store.setState P st partial w1 in
  Store.listeners w1 = [] ∧
  getItem (Store.localStorage w1) key = None ∧
  Store.state w1 = Store.state w ∧
  Store.calls w2 = Store.calls w ∧
  (∀ text ls,
     Store.state w2 ≠ Store.state w →
     JSON_stringify P (Store.state w2) = Some text →
     setItem (Store.localStorage w1) key text = Some ls →
     getItem (Store.localStorage w2) key = Some text).
Proof.
  intros Hkey Hne w1 w2.
  assert (Store.destroy st w
          = Store.with_localStorage (removeItem (Store.localStorage w) key)
              (Store.with_listeners [] w)) as Hdestroy.
  { unfold Store.destroy. by rewrite Hkey, truthy_Some. }
  assert (Store.state w1 = Store.state w) as Hstate by (unfold w1; by rewrite Hdestroy).
  assert (Store.listeners w1 = []) as Hlisteners by (unfold w1; by rewrite Hdestroy).
  split; [done|]. split.
  { unfold w1. rewrite Hdestroy. simpl. apply lookup_removeItem. }
  split; [done|]. split.
  - unfold w2. rewrite calls_setState, Hlisteners.
    case_decide; rewrite app_nil_r; unfold w1; by rewrite Hdestroy.
  - intros text ls Hchanged Htext Hset. unfold w2 in *.
    rewrite setState_state in Hchanged, Htext. rewrite <- Hstate in Hchanged.
    rewrite localStorage_setState_changed by done.
    erewrite persist_written; [by eapply getItem_setItem| | |exact Hset].
    + rewrite Hkey. by apply truthy_Some.
    + done.
Qed.

Lemma destroy_is_not_final_witness :
  let P := SampleJSON.platform in
  let st := Store.mkStore "settings" (Some "settings") false in
  let w := Store.mkSys {[ "count" := VNum 0 ]} [4]
             (mkStorage {[ "settings" := "old" ]} 1000) [] [] [] in
  let w2 := Store.setState P st (Store.PartialObject {[ "count" := VNum 1 ]})
              (Store.destroy st w) in
  Store.persistKey st = Some "settings" ∧
  "settings" ≠ "" ∧
  getItem (Store.localStorage (Store.destroy st w)) "settings" = None ∧
  Store.calls w2 = [].
Proof.
  intros P st w w2.
  assert ("settings" ≠ "") as Hne by discriminate.
  split; [reflexivity|]. split; [exact Hne|].
  destruct (destroy_is_not_final P st "settings"
              (Store.PartialObject {[ "count" := VNum 1 ]}) w eq_refl Hne)
    as (_ & Hgone & _ & Hcalls & _).
  split; [exact Hgone | exact Hcalls].
Defined.

Lemma dom_load_persisted (P : Platform) (key : option string) (ls : Storage)
    (initialState : obj) :
  dom initialState ⊆ dom (Store.load_persisted P key ls initialState).1.
Proof.
  unfold Store.load_persisted. destruct (Store.truthy key); [|done].
  destruct (getItem ls _); [|done]. case_bool_decide; [done|].
  destruct (JSON_parse P _); [|done]. simpl. unfold spread.
  rewrite dom_union_L. apply union_subseteq_r.
Qed.

Lemma createStore_parts (P : Platform) (initialState : obj)
    (options : Store.StoreOptions) (ls : Storage) :
  let created := Store.createStore P initialState options ls in
  Store.persistKey created.1 = Store.opt_persistKey options ∧
  Store.state created.2
    = (Store.load_persisted P (Store.opt_persistKey options) ls initialState).1 ∧
  Store.localStorage created.2 = ls ∧
  Store.listeners created.2 = [] ∧
  Store.calls created.2 = [].
Proof.
  unfold Store.createStore. by destruct (Store.load_persisted _ _ _ _).
Qed.

Lemma dom_setState_list (P : Platform) (st : Store.Store) (partials : list Store.Partial)
    (w : Store.Sys) :
  dom (Store.state w)
  ⊆ dom (Store.state (fold_left (λ w partial, Store.setState P st partial w) partials w)).
Proof.
  revert w. induction partials as [|partial partials IH]; intros w; simpl; [done|].
  etrans; [|apply IH]. rewrite setState_state. unfold spread.
  rewrite dom_union_L. apply union_subseteq_r.
Qed.

(** Reloading the page restores the state.  When, after any updates of a
    store with a [persistKey] that is not empty, the storage holds under the
    key a text that parses to the current state, a store created again from
    the same [initialState] and that storage starts in that state. *)
Theorem reload_restores_state (P : Platform) (initialState : obj)
    (options : Store.StoreOptions) (ls : Storage) (key : string)
    (partials : list Store.Partial) (text : string) :
  Store.opt_persistKey options = Some key →
  key ≠ "" →
  let created := Store.createStore P initialState options ls in
  let w := fold_left (λ w partial, Store.setState P created.1 partial w) partials created.2 in
  getItem (Store.localStorage w) key = Some text →
  text ≠ "" →
  JSON_parse P text = Some (Store.state w) →
  Store.state (Store.createStore P initialState options (Store.localStorage w)).2
  = Store.state w.
Proof.
  intros Hkey Hne created w Hget Htext Hparse.
  destruct (createStore_parts P initialState options (Store.localStorage w))
    as (_ & -> & _).
  destruct (createStore_parts P initialState options ls) as (_ & Hstate & _).
  fold created in Hstate.
  assert (dom initialState ⊆ dom (Store.state w)) as Hdom.
  { etrans; [|apply dom_setState_list]. rewrite Hstate. apply dom_load_persisted. }
  unfold Store.load_persisted. rewrite Hkey, truthy_Some, Hget by done.
  rewrite bool_decide_eq_false_2, Hparse by done. simpl.
  apply map_eq. intros k. rewrite lookup_spread.
  destruct (Store.state w !! k) as [v|] eqn:Hk; [done|].
  destruct (initialState !! k) as [v|] eqn:Hi; [|done].
  assert (k ∈ dom (Store.state w)) as Hin.
  { apply Hdom. apply elem_of_dom. by eexists. }
  apply elem_of_dom in Hin as [? ?]. congruence.
Qed.

Lemma reload_restores_state_witness :
  let P := SampleJSON.platform in
  let initialState : obj := <["theme" := VStr "light"]> {[ "count" := VNum 0 ]} in
  let options := Store.mkOptions None (Some "settings") None in
  let ls := mkStorage ∅ 1000 in
  let created := Store.createStore P initialState options ls in
  let w := Store.setState P created.1 (Store.PartialObject {[ "count" := VNum 7 ]})
             created.2 in
  Store.opt_persistKey options = Some "settings" ∧
  "settings" ≠ "" ∧
  Store.state (Store.createStore P initialState options (Store.localStorage w)).2
  = <["theme" := VStr "light"]> {[ "count" := VNum 7 ]}.
Proof.
  intros P initialState options ls created w.
  assert ("settings" ≠ "") as Hne by discriminate.
  split; [reflexivity|]. split; [exact Hne|].
  destruct (SampleJSON.stringify (<["theme" := VStr "light"]> {[ "count" := VNum 7 ]}))
    as [text|] eqn:Htext; [|vm_compute in Htext; discriminate].
  pose proof (reload_restores_state P initialState options ls "settings"
                [Store.PartialObject {[ "count" := VNum 7 ]}] text eq_refl Hne) as Hreload.
  cbn [fold_left] in Hreload. fold created w in Hreload.
  rewrite Hreload.
  - vm_compute. reflexivity.
  - vm_compute in Htext. injection Htext as <-. vm_compute. reflexivity.
  - vm_compute in Htext. injection Htext as <-. discriminate.
  - vm_compute in Htext. injection Htext as <-. vm_compute. reflexivity.
Defined.

(** ** The middleware *)

Lemma spread_empty (s : obj) : spread s ∅ = s.
Proof. unfold spread. apply (left_id_L ∅ (∪)). Qed.

Lemma spread_fold (s acc : obj) (updates : list obj) :
  spread s (fold_left (λ acc update, spread acc update) updates acc)
  = fold_left (λ acc update, spread acc update) updates (spread s acc).
Proof.
  revert acc. induction updates as [|update updates IH]; intros acc; simpl; [done|].
  rewrite IH. f_equal. unfold spread. by rewrite (assoc_L (∪)).
Qed.

Lemma batching_more (partials : list Store.Partial) (b : Store.Batch) (w : Store.Sys) :
  Store.updateScheduled b = true →
  fold_left (λ b partial, Store.batching_setState partial b w) partials b
  = Store.mkBatch
      (Store.pendingUpdates b ++ ((λ partial, Store.resolve partial (Store.state w)) <$> partials))
      true (Store.flush_tasks b).
Proof.
  revert b. induction partials as [|partial partials IH]; intros b Hb; simpl.
  - rewrite app_nil_r. destruct b. simpl in Hb. by subst.
  - rewrite IH.
    + unfold Store.batching_setState. rewrite Hb. simpl. by rewrite <- app_assoc.
    + unfold Store.batching_setState. by rewrite Hb.
Qed.

Lemma state_setState_objects (P : Platform) (st : Store.Store) (updates : list obj)
    (w : Store.Sys) :
  Store.state (fold_left (λ w update, Store.setState P st (Store.PartialObject update) w)
                 updates w)
  = fold_left (λ acc update, spread acc update) updates (Store.state w).
Proof.
  revert w. induction updates as [|update updates IH]; intros w; simpl; [done|].
  by rewrite IH, setState_state.
Qed.

(** [batchingMiddleware].  However many updates are queued before the flush
    runs, there is one flush task; each functional update was resolved against
    the state at the time it was queued, which is the state before all of
    them; the flush merges them in order into the state and calls the
    listeners once at most.  For object updates the state is the one that the
    same calls of the plain [setState] would have left. *)
Theorem batching_flushes_once (P : Platform) (st : Store.Store) (first : Store.Partial)
    (rest : list Store.Partial) (w : Store.Sys) :
  let partials := first :: rest in
  let queued := fold_left (λ b partial, Store.batching_setState partial b w) partials
                  Store.no_batch in
  let updates := (λ partial, Store.resolve partial (Store.state w)) <$> partials in
  let flushed := Store.run_flush_task P st queued w in
  queued = Store.mkBatch updates true 1 ∧
  flushed.1 = Store.no_batch ∧
  Store.state flushed.2 = fold_left (λ acc update, spread acc update) updates (Store.state w) ∧
  Store.calls flushed.2
    = Store.calls w ++ (if decide (Store.state flushed.2 = Store.state w) then []
                        else Store.listeners w) ∧
  (∀ objects, partials = Store.PartialObject <$> objects →
     Store.state flushed.2
     = Store.state (fold_left (λ w update, Store.setState P st (Store.PartialObject update) w)
                      objects w)).
Proof.
  intros partials queued updates flushed.
  assert (queued = Store.mkBatch updates true 1) as Hqueued.
  { unfold queued, partials. simpl. by rewrite batching_more. }
  assert (flushed = (Store.no_batch,
                     Store.setState P st
                       (Store.PartialObject
                          (fold_left (λ acc update, spread acc update) updates ∅)) w))
    as Hflushed.
  { unfold flushed. rewrite Hqueued. reflexivity. }
  assert (Store.state flushed.2
          = fold_left (λ acc update, spread acc update) updates (Store.state w)) as Hstate.
  { rewrite Hflushed. cbn [snd]. rewrite setState_state. cbn [Store.resolve].
    by rewrite spread_fold, spread_empty. }
  split; [done|]. split; [by rewrite Hflushed|]. split; [done|]. split.
  - rewrite Hflushed. cbn [snd]. rewrite calls_setState, setState_state. done.
  - intros objects Hobjects. rewrite Hstate, state_setState_objects. f_equal.
    unfold updates. rewrite Hobjects.
    clear. induction objects as [|o objects IH]; [done|].
    rewrite !fmap_cons. cbn [Store.resolve]. by rewrite IH.
Qed.

(** Two functional updates queued in one batch both read the state before
    the batch: a counter incremented twice goes up by one. *)
Example batching_counts_once :
  let P := SampleJSON.platform in
  let st := Store.mkStore "counter" None false in
  let w := Store.mkSys {[ "count" := VNum 0 ]} [] (mkStorage ∅ 0) [] [] [] in
  let increment := Store.PartialFunction (λ s,
    match s !! "count" with
    | Some (VNum n) => {[ "count" := VNum (n + 1) ]}
    | _ => ∅
    end) in
  let queued := Store.batching_setState increment
                  (Store.batching_setState increment Store.no_batch w) w in
  Store.state (Store.run_flush_task P st queued w).2 !! "count" = Some (VNum 1) ∧
  Store.state (Store.setState P st increment (Store.setState P st increment w)) !! "count"
    = Some (VNum 2).
Proof. split; vm_compute; reflexivity. Qed.

Lemma call_listeners_quiet (throws : Store.Listener → bool) (ls : list Store.Listener) :
  (∀ l, l ∈ ls → throws l = false) → Store.call_listeners throws ls = (ls, false).
Proof.
  induction ls as [|l ls IH]; intros Hquiet; simpl; [done|].
  rewrite Hquiet by (by left). rewrite IH; [done|]. intros x Hx. apply Hquiet. by right.
Qed.

Lemma call_listeners_throw (throws : Store.Listener → bool)
    (before after : list Store.Listener) (l : Store.Listener) :
  (∀ x, x ∈ before → throws x = false) → throws l = true →
  Store.call_listeners throws (before ++ l :: after) = (before ++ [l], true).
Proof.
  intros Hquiet Hl. induction before as [|x before IH]; simpl.
  - by rewrite Hl.
  - rewrite Hquiet by (by left). rewrite IH; [done|]. intros y Hy. apply Hquiet. by right.
Qed.

(** When no listener throws, the [setState] that may throw is [setState]. *)
Lemma setState_throwing_quiet (P : Platform) (st : Store.Store)
    (throws : Store.Listener → bool) (partial : Store.Partial) (w : Store.Sys) :
  (∀ l, l ∈ Store.listeners w → throws l = false) →
  Store.setState_throwing P st throws partial w = (Store.setState P st partial w, false).
Proof.
  intros Hquiet. unfold Store.setState_throwing, Store.setState.
  destruct (shallowEqual _ _); simpl; [done|].
  rewrite call_listeners_quiet; [done|].
  intros l Hl. apply Hquiet. by rewrite listeners_persist in Hl.
Qed.

(** The listeners called, of those subscribed: the first ones, in the order
    of subscription; all of them and none throwing, or up to a first one that
    throws, which is the last called. *)
Lemma call_listeners_cases (throws : Store.Listener → bool) (ls : list Store.Listener) :
  ∃ called rest threw,
    ls = called ++ rest ∧
    Store.call_listeners throws ls = (called, threw) ∧
    if threw
    then ∃ before l, called = before ++ [l] ∧ throws l = true ∧
                     ∀ x, x ∈ before → throws x = false
    else rest = [] ∧ ∀ l, l ∈ called → throws l = false.
Proof.
  induction ls as [|l ls (called & rest & threw & Hls & Hcall & Hcases)]; simpl.
  - exists [], [], false. split; [done|]. split; [done|].
    split; [done|]. intros l Hl. by apply elem_of_nil in Hl.
  - destruct (throws l) eqn:Hl.
    + exists [l], ls, true. split; [done|]. split; [done|].
      exists [], l. split; [done|]. split; [done|].
      intros x Hx. by apply elem_of_nil in Hx.
    + rewrite Hcall. exists (l :: called), rest, threw.
      split; [by rewrite Hls|]. split; [done|].
      destruct threw.
      * destruct Hcases as (before & x & -> & Hx & Hquiet).
        exists (l :: before), x. split; [done|]. split; [done|].
        intros y Hy. apply elem_of_cons in Hy as [->|Hy]; [done|by apply Hquiet].
      * destruct Hcases as [-> Hquiet]. split; [done|]. intros x Hx.
        apply elem_of_cons in Hx as [->|Hx]; [done|by apply Hquiet].
Qed.

(** Who [setState] calls.  A [setState] that does not change the state calls
    no listener and does not throw.  One that changes it calls the subscribed
    listeners in the order of subscription, and stops at the first that
    throws: then the exception goes to the caller, with the state changed and
    persisted, the listeners after that one not called and DevTools not told.
    When no listener throws all are called, and the call is the [setState]
    of the store whose listeners return.  The set of listeners is the same
    after the call. *)
Theorem setState_notifies (P : Platform) (st : Store.Store)
    (throws : Store.Listener → bool) (partial : Store.Partial) (w : Store.Sys) :
  let merged := spread (Store.state w) (Store.resolve partial (Store.state w)) in
  let run := Store.setState_throwing P st throws partial w in
  Store.listeners run.1 = Store.listeners w ∧
  (merged = Store.state w → run = (w, false)) ∧
  (merged ≠ Store.state w →
   Store.state run.1 = merged ∧
   Store.localStorage run.1
     = Store.localStorage (Store.persist P st (Store.with_state merged w)) ∧
   ∃ called rest,
     Store.listeners w = called ++ rest ∧
     Store.calls run.1 = Store.calls w ++ called ∧
     if run.2
     then (∃ before l, called = before ++ [l] ∧ throws l = true ∧
                       ∀ x, x ∈ before → throws x = false) ∧
          Store.devtools_sent run.1 = Store.devtools_sent w
     else rest = [] ∧ (∀ l, l ∈ called → throws l = false) ∧
          run.1 = Store.setState P st partial w).
Proof.
  intros merged run. unfold run, Store.setState_throwing. fold merged.
  destruct (decide (merged = Store.state w)) as [Hsame|Hchanged].
  - assert (shallowEqual (Store.state w) merged = true) as ->
      by (by apply shallowEqual_true). simpl. done.
  - assert (shallowEqual (Store.state w) merged = false) as Hne
      by (apply shallowEqual_false; congruence).
    rewrite Hne. cbn [negb].
    assert (Store.setState P st partial w
            = Store.devtools_report P st (Store.state w) merged
                (Store.notify (Store.persist P st (Store.with_state merged w)))) as Hplain.
    { by rewrite setState_changed. }
    set (w1 := Store.persist P st (Store.with_state merged w)) in *.
    assert (Store.listeners w1 = Store.listeners w) as Hlisteners
      by (unfold w1; by rewrite listeners_persist).
    assert (Store.calls w1 = Store.calls w) as Hcalls.
    { unfold w1, Store.persist. destruct (Store.truthy _); [|done].
      destruct (JSON_stringify _ _); [|done]. by destruct (setItem _ _ _). }
    assert (Store.devtools_sent w1 = Store.devtools_sent w) as Hsent.
    { unfold w1, Store.persist. destruct (Store.truthy _); [|done].
      destruct (JSON_stringify _ _); [|done]. by destruct (setItem _ _ _). }
    assert (Store.state w1 = merged) as Hstate by (unfold w1; by rewrite state_persist).
    destruct (call_listeners_cases throws (Store.listeners w1))
      as (called & rest & threw & Hsplit & Hcall & Hcases).
    rewrite Hcall. rewrite Hlisteners in Hsplit.
    destruct threw.
    + destruct Hcases as (before & l & -> & Hl & Hquiet).
      cbn [fst snd]. split; [done|]. split; [done|]. intros _.
      split; [done|]. split; [done|].
      exists (before ++ [l]), rest. split; [done|]. split; [by rewrite Hcalls|].
      split; [|done]. by exists before, l.
    + destruct Hcases as [-> Hquiet].
      cbn [fst snd]. rewrite app_nil_r in Hsplit.
      assert (Store.devtools_report P st (Store.state w) merged
                (Store.with_calls (Store.calls w1 ++ called) w1)
              = Store.setState P st partial w) as Hagree.
      { rewrite Hplain. unfold Store.notify. by rewrite Hlisteners, Hsplit. }
      rewrite Hagree. split; [apply listeners_setState|]. split; [done|]. intros _.
      split; [apply setState_state|].
      split; [by apply localStorage_setState_changed|].
      exists called, []. rewrite app_nil_r. split; [done|].
      split; [|done]. rewrite calls_setState. rewrite decide_False by done.
      by rewrite Hsplit.
Qed.

(** [errorBoundaryMiddleware] does not undo an update whose listener throws.
    The state has changed and was persisted before the listeners ran; the
    listeners after the one that threw are not called; the recovery,
    [originalSetState({})], changes nothing; the error is logged once and
    thrown on. *)
Theorem errorBoundary_keeps_failed_update (P : Platform) (st : Store.Store)
    (throws : Store.Listener → bool) (partial : Store.Partial) (w : Store.Sys)
    (before after : list Store.Listener) (l : Store.Listener) :
  let merged := spread (Store.state w) (Store.resolve partial (Store.state w)) in
  merged ≠ Store.state w →
  Store.listeners w = before ++ l :: after →
  (∀ x, x ∈ before → throws x = false) →
  throws l = true →
  ∃ w', Store.errorBoundary_setState P st throws partial w
          = (w', ["Store update error:"], true) ∧
        Store.state w' = merged ∧
        Store.calls w' = Store.calls w ++ before ++ [l] ∧
        Store.localStorage w'
          = Store.localStorage (Store.persist P st (Store.with_state merged w)).
Proof.
  intros merged Hchanged Hlisteners Hquiet Hl.
  unfold Store.errorBoundary_setState.
  assert (Store.setState_throwing P st throws partial w
          = (Store.with_calls (Store.calls w ++ before ++ [l])
               (Store.persist P st (Store.with_state merged w)), true)) as ->.
  { unfold Store.setState_throwing. fold merged.
    assert (shallowEqual (Store.state w) merged = false) as ->
      by (apply shallowEqual_false; congruence).
    simpl. rewrite listeners_persist. simpl. rewrite Hlisteners.
    rewrite call_listeners_throw by done.
    assert (Store.calls (Store.persist P st (Store.with_state merged w)) = Store.calls w)
      as ->; [|done].
    unfold Store.persist. destruct (Store.truthy _); [|done].
    destruct (JSON_stringify _ _); [|done]. by destruct (setItem _ _ _). }
  set (w1 := Store.with_calls _ _).
  assert (Store.setState_throwing P st throws (Store.PartialObject ∅) w1 = (w1, false))
    as ->.
  { unfold Store.setState_throwing. cbn [Store.resolve]. rewrite spread_empty.
    assert (shallowEqual (Store.state w1) (Store.state w1) = true) as ->; [|done].
    by apply shallowEqual_true. }
  exists w1. split; [done|]. unfold w1. simpl. by rewrite state_persist.
Qed.

Lemma errorBoundary_keeps_failed_update_witness :
  let P := SampleJSON.platform in
  let st := Store.mkStore "auth" (Some "auth-state") false in
  let w := Store.mkSys {[ "count" := VNum 0 ]} [1; 2; 3] (mkStorage ∅ 1000) [] [] [] in
  let throws l := bool_decide (l = 2) in
  let partial := Store.PartialObject {[ "count" := VNum 1 ]} in
  spread (Store.state w) (Store.resolve partial (Store.state w)) ≠ Store.state w ∧
  ∃ w', Store.errorBoundary_setState P st throws partial w
          = (w', ["Store update error:"], true) ∧
        Store.state w' = {[ "count" := VNum 1 ]} ∧
        Store.calls w' = [1; 2].
Proof.
  intros P st w throws partial.
  assert (spread (Store.state w) (Store.resolve partial (Store.state w)) ≠ Store.state w)
    as Hchanged.
  { intros Heq. apply (f_equal (λ m : obj, m !! "count")) in Heq.
    vm_compute in Heq. discriminate Heq. }
  split; [exact Hchanged|].
  destruct (errorBoundary_keeps_failed_update P st throws partial w [1] [3] 2 Hchanged)
    as (w' & Hrun & Hstate & Hcalls & _).
  - reflexivity.
  - intros x Hx. apply list_elem_of_singleton in Hx. by subst.
  - reflexivity.
  - exists w'. split; [exact Hrun|]. split; [|exact Hcalls].
    rewrite Hstate. vm_compute. reflexivity.
Defined.

Lemma state_saveToStorage (D : Store.DataJSON) (key : string)
    (options : Store.PersistenceOptions) (now : Z) (s : obj) (w : Store.Sys) :
  Store.state (Store.saveToStorage D key options now s w) = Store.state w.
Proof.
  unfold Store.saveToStorage. destruct (Store.stringify_data _ _ _); [|done].
  by destruct (setItem _ _ _).
Qed.

(** [advancedPersistenceMiddleware] at start, without compression, when the
    storage holds a text under the key.  A text that does not parse is
    removed, with a warning, and the state stays.  The age of an entry is
    [Date.now()] less what its timestamp counts for as a number ([null]
    counts for 0, as a timestamp of 1970).  An entry older than a [ttl] that
    is not zero is removed and the state stays; an entry exactly [ttl] old,
    one whose timestamp counts for no number (none, an object, a text that
    spells none), and any entry when [ttl] is zero or not given, is merged
    into the state. *)
Theorem persistence_start_cases (P : Platform) (st : Store.Store) (D : Store.DataJSON)
    (key : string) (options : Store.PersistenceOptions) (now : Z) (w : Store.Sys)
    (text : string) :
  getItem (Store.localStorage w) key = Some text →
  text ≠ "" →
  Store.compressing D options = None →
  let w' := Store.persistence_start P st D key options now w in
  match Store.parse_data D text with
  | None =>
      Store.state w' = Store.state w ∧
      getItem (Store.localStorage w') key = None ∧
      Store.warnings w'
        = Store.warnings w ++ ["Failed to load persisted state for " +:+ key +:+ ":"]
  | Some (persisted, timestamp) =>
      match Store.ttl options, timestamp with
      | Some t, Some ts =>
          (t ≠ 0 ∧ t < now - ts →
           Store.state w' = Store.state w ∧ getItem (Store.localStorage w') key = None) ∧
          (t = 0 ∨ now - ts ≤ t →
           Store.state w' = spread (Store.state w) (default ∅ persisted))
      | _, _ => Store.state w' = spread (Store.state w) (default ∅ persisted)
      end
  end%Z.
Proof.
  intros Hget Htext Hplain w'.
  unfold w', Store.persistence_start, Store.loadFromStorage.
  rewrite Hget, bool_decide_eq_false_2, Hplain by done.
  destruct (Store.parse_data D text) as [[persisted timestamp]|].
  - assert (∀ w0 : Store.Sys,
              Store.state
                match persisted with
                | Some persistedState =>
                    Store.setState P st (Store.PartialObject persistedState) w0
                | None => w0
                end = spread (Store.state w0) (default ∅ persisted)) as Hmerged.
    { intros w0. destruct persisted; simpl; [by rewrite setState_state|].
      by rewrite spread_empty. }
    unfold Store.expired.
    destruct (Store.ttl options) as [t|], timestamp as [ts|]; try apply Hmerged.
    split.
    + intros [Hne Hold].
      assert ((t =? 0)%Z = false) as -> by (by apply Z.eqb_neq).
      assert ((t <? now - ts)%Z = true) as -> by (by apply Z.ltb_lt).
      simpl. split; [done|]. apply lookup_removeItem.
    + intros Hkeep.
      assert (negb (t =? 0)%Z && (t <? now - ts)%Z = false) as ->; [|apply Hmerged].
      apply andb_false_iff. destruct Hkeep as [-> | Hle]; [by left|].
      right. apply Z.ltb_ge. done.
  - simpl. split; [done|]. split; [apply lookup_removeItem|done].
Qed.

Lemma persistence_start_cases_witness :
  let P := SampleJSON.platform in
  let D := SampleJSON.data_json in
  let st := Store.mkStore "prefs" None false in
  let options := Store.mkPersistenceOptions None (Some 1000%Z) in
  let stored := default "" (SampleJSON.stringify_data {[ "theme" := VStr "dark" ]} 5000) in
  let w := Store.mkSys {[ "theme" := VStr "light" ]} []
             (mkStorage {[ "prefs" := stored ]} 1000) [] [] [] in
  getItem (Store.localStorage w) "prefs" = Some stored ∧
  stored ≠ "" ∧
  Store.compressing D options = None ∧
  Store.state (Store.persistence_start P st D "prefs" options 6000 w)
    = {[ "theme" := VStr "dark" ]} ∧
  Store.state (Store.persistence_start P st D "prefs" options 6001 w)
    = {[ "theme" := VStr "light" ]} ∧
  getItem (Store.localStorage (Store.persistence_start P st D "prefs" options 6001 w))
    "prefs" = None.
Proof.
  intros P D st options stored w.
  assert (getItem (Store.localStorage w) "prefs" = Some stored) as Hget by reflexivity.
  assert (stored ≠ "") as Hne by (vm_compute; discriminate).
  assert (Store.compressing D options = None) as Hplain by reflexivity.
  assert (Store.parse_data D stored = Some (Some {[ "theme" := VStr "dark" ]}, Some 5000%Z))
    as Hparse by (vm_compute; reflexivity).
  split; [exact Hget|]. split; [exact Hne|]. split; [exact Hplain|].
  pose proof (persistence_start_cases P st D "prefs" options 6000 w stored Hget Hne Hplain)
    as Hkeep.
  pose proof (persistence_start_cases P st D "prefs" options 6001 w stored Hget Hne Hplain)
    as Hdrop.
  cbv zeta in Hkeep, Hdrop. rewrite Hparse in Hkeep, Hdrop.
  cbn [Store.ttl options] in Hkeep, Hdrop.
  destruct Hkeep as [_ Hkeep], Hdrop as [Hdrop _].
  split.
  - rewrite Hkeep by (right; lia). vm_compute. reflexivity.
  - destruct Hdrop as [Hstate Hgone]; [split; lia|]. split; [exact Hstate | exact Hgone].
Defined.



(** * More of the error boundary *)

(** What an error thrown below the boundary leads to. *)
Lemma caught_cases (e : Boundary.Error) (info : string) (inst : Boundary.Instance)
    (pg : Boundary.Page) :
  let after := Boundary.caught e info inst pg in
  let n := Boundary.retryCount (Boundary.st inst) in
  Boundary.props after.1 = Boundary.props inst ∧
  Boundary.st after.1 = Boundary.mkState true (Some e) (Some info) n ∧
  ((Boundary.level (Boundary.props inst) = Some Boundary.component ∧ n < 3 ∧
    Boundary.retryTimeoutId after.1 = Some (S (Boundary.next_timer_id pg)) ∧
    Boundary.timers after.2 =
      match Boundary.retryTimeoutId inst with
      | Some old => filter (λ t, Boundary.timer_id t ≠ old) (Boundary.timers pg)
      | None => Boundary.timers pg
      end ++ [Boundary.mkTimer (S (Boundary.next_timer_id pg)) (2 ^ n * 1000)
                Boundary.retry_cb]) ∨
   ((Boundary.level (Boundary.props inst) ≠ Some Boundary.component ∨ 3 ≤ n) ∧
    Boundary.retryTimeoutId after.1 = Boundary.retryTimeoutId inst ∧
    Boundary.timers after.2 = Boundary.timers pg)).
Proof.
  intros after n. unfold after, Boundary.caught, Boundary.componentDidCatch.
  cbn [Boundary.props Boundary.st Boundary.retryCount Boundary.getDerivedStateFromError
       Boundary.hasError Boundary.retryTimeoutId].
  fold n. unfold Boundary.maxRetries.
  destruct (decide (Boundary.level (Boundary.props inst) = Some Boundary.component))
    as [Hlevel|Hlevel].
  - rewrite bool_decide_eq_true_2 by done.
    destruct (Nat.ltb_spec n 3) as [Hn|Hn]; cbn [andb].
    + unfold Boundary.scheduleRetry.
      destruct (Boundary.retryTimeoutId inst); simpl; split; try done;
        split; try done; left; done.
    + simpl. split; [done|]. split; [done|]. right. split; [by right|done].
  - rewrite bool_decide_eq_false_2 by done. simpl.
    split; [done|]. split; [done|]. right. split; [by left|done].
Qed.

Lemma well_timed_step (p : Boundary.Props) (ev : Boundary.Event)
    (inst : Boundary.Instance) (pg : Boundary.Page) :
  Boundary.well_timed p inst pg →
  Boundary.well_timed p (Boundary.step ev inst pg).1 (Boundary.step ev inst pg).2.
Proof.
  intros (Hprops & Hcount & Htimers). destruct ev as [e info| |]; cbn [Boundary.step].
  - destruct (caught_cases e info inst pg) as (Hp & Hst & Hcases).
    unfold Boundary.well_timed. rewrite Hp, Hst. simpl.
    split; [done|]. split; [done|].
    destruct Hcases as [(_ & Hn & Hid & Hts) | (_ & Hid & Hts)].
    + right. eexists. rewrite Hts, Hid. split.
      { destruct Htimers as [-> | (t & -> & -> & _)].
        - by destruct (Boundary.retryTimeoutId inst).
        - by rewrite filter_cons_False, filter_nil by (intros ?; done). }
      simpl. split; [done|]. split; [done|]. split; [done|].
      destruct (Boundary.retryCount (Boundary.st inst)) as [|[|[|?]]]; simpl; auto; lia.
    + rewrite Hts, Hid. destruct Htimers as [? | (t & ? & ? & ? & ? & ?)]; [by left|].
      right. by exists t.
  - destruct (Boundary.timers pg) as [|t ts] eqn:Hts; simpl.
    { split; [done|]. split; [done|]. left. done. }
    destruct Htimers as [? | (t' & [= -> ->] & _ & Hcb & Hlt & _)]; [done|].
    unfold Boundary.well_timed, Boundary.fire. simpl. rewrite Hts, Hcb. simpl.
    split; [done|]. split; [lia|]. left.
    by rewrite filter_cons_False, filter_nil by (intros ?; done).
  - unfold Boundary.well_timed. simpl. split; [done|]. split; [lia|].
    destruct Htimers as [? | (t & ? & ? & ? & ? & ?)]; [by left|].
    right. exists t. repeat split; auto.
Qed.

Lemma well_timed_run (p : Boundary.Props) (events : list Boundary.Event)
    (start : Boundary.Instance * Boundary.Page) :
  Boundary.well_timed p start.1 start.2 →
  Boundary.well_timed p (Boundary.run events start).1 (Boundary.run events start).2.
Proof.
  revert start. induction events as [|ev events IH]; intros [inst pg] Hstart; [done|].
  unfold Boundary.run. cbn [fold_left]. apply IH.
  by apply (well_timed_step p ev inst pg).
Qed.

(** Whatever errors, timers and manual retries a mounted boundary goes
    through: its props are the same, it has counted at most three retries, at
    most one timer is pending, that timer is the retry the boundary remembers,
    with a delay of 1000, 2000 or 4000 ms, and unmounting leaves no timer. *)
Theorem boundary_one_timer (p : Boundary.Props) (development : bool)
    (events : list Boundary.Event) :
  let after := Boundary.run events (Boundary.mount p development) in
  Boundary.well_timed p after.1 after.2 ∧
  length (Boundary.timers after.2) ≤ 1 ∧
  Boundary.timers (Boundary.componentWillUnmount after.1 after.2) = [].
Proof.
  intros after.
  assert (Boundary.well_timed p after.1 after.2) as Hwell.
  { apply well_timed_run. unfold Boundary.well_timed. simpl.
    split; [done|]. split; [lia|]. by left. }
  split; [done|]. destruct Hwell as (_ & _ & [Hnone | (t & Hone & Hid & _)]).
  - rewrite Hnone. split; [simpl; lia|]. unfold Boundary.componentWillUnmount.
    destruct (Boundary.retryTimeoutId after.1); simpl; by rewrite ?Hnone.
  - rewrite Hone. split; [simpl; lia|]. unfold Boundary.componentWillUnmount.
    rewrite Hid. simpl. rewrite Hone.
    by rewrite filter_cons_False, filter_nil by (intros ?; done).
Qed.

Lemma quiet_step (p : Boundary.Props) (ev : Boundary.Event)
    (inst : Boundary.Instance) (pg : Boundary.Page) :
  Boundary.level p ≠ Some Boundary.component →
  Boundary.props inst = p ∧ Boundary.timers pg = [] ∧
    Boundary.retryCount (Boundary.st inst) = 0 →
  Boundary.props (Boundary.step ev inst pg).1 = p ∧
  Boundary.timers (Boundary.step ev inst pg).2 = [] ∧
  Boundary.retryCount (Boundary.st (Boundary.step ev inst pg).1) = 0.
Proof.
  intros Hlevel (Hprops & Htimers & Hcount). destruct ev as [e info| |]; cbn [Boundary.step].
  - destruct (caught_cases e info inst pg) as (Hp & Hst & Hcases).
    rewrite Hp, Hst. simpl. split; [done|]. split; [|done].
    destruct Hcases as [(Hl & _) | (_ & _ & ->)]; [|done].
    rewrite Hprops in Hl. done.
  - by rewrite Htimers.
  - done.
Qed.

Lemma quiet_run (p : Boundary.Props) (events : list Boundary.Event)
    (start : Boundary.Instance * Boundary.Page) :
  Boundary.level p ≠ Some Boundary.component →
  Boundary.props start.1 = p ∧ Boundary.timers start.2 = [] ∧
    Boundary.retryCount (Boundary.st start.1) = 0 →
  Boundary.props (Boundary.run events start).1 = p ∧
  Boundary.timers (Boundary.run events start).2 = [] ∧
  Boundary.retryCount (Boundary.st (Boundary.run events start).1) = 0.
Proof.
  intros Hlevel. revert start.
  induction events as [|ev events IH]; intros [inst pg] Hstart; [done|].
  unfold Boundary.run. cbn [fold_left]. apply IH.
  by apply (quiet_step p ev inst pg).
Qed.

(** A boundary whose [level] is not ['component'] (a page or feature
    boundary, or one without the prop) never retries by itself: whatever
    happens, no timer is set and no retry is counted, so its default fallback
    never says "Retrying..." and always offers its button. *)
Theorem boundary_other_levels_never_retry (p : Boundary.Props) (development : bool)
    (events : list Boundary.Event) :
  Boundary.level p ≠ Some Boundary.component →
  let after := Boundary.run events (Boundary.mount p development) in
  Boundary.timers after.2 = [] ∧
  Boundary.retryCount (Boundary.st after.1) = 0 ∧
  match Boundary.level p with
  | Some Boundary.page => True
  | Some Boundary.feature =>
      Boundary.renderDefaultFallback p (Boundary.st after.1) after.2
        = Boundary.FeatureUnavailable None true
  | _ =>
      Boundary.renderDefaultFallback p (Boundary.st after.1) after.2
        = Boundary.ComponentFailed false true
  end.
Proof.
  intros Hlevel after.
  assert (Boundary.props after.1 = p ∧ Boundary.timers after.2 = [] ∧
          Boundary.retryCount (Boundary.st after.1) = 0) as (_ & Htimers & Hcount).
  { unfold after. apply quiet_run; done. }
  split; [done|]. split; [done|].
  unfold Boundary.renderDefaultFallback. rewrite Hcount.
  destruct (Boundary.level p) as [[| |]|]; done.
Qed.

Lemma boundary_other_levels_never_retry_witness :
  let p := Boundary.mkProps (Boundary.Given 0) None true (Some Boundary.feature) None in
  let e := Boundary.mkError "Failed to fetch" None in
  let after := Boundary.run [Boundary.ErrorBelow e "in Chart"; Boundary.TimerDue;
                             Boundary.ManualRetry; Boundary.ErrorBelow e "in Chart"]
                 (Boundary.mount p false) in
  Boundary.level p ≠ Some Boundary.component ∧
  Boundary.timers after.2 = [] ∧
  Boundary.render p (Boundary.st after.1) after.2
    = Boundary.Renders (Boundary.FeatureUnavailable None true).
Proof.
  intros p e after.
  assert (Boundary.level p ≠ Some Boundary.component) as Hlevel by discriminate.
  split; [exact Hlevel|].
  destruct (boundary_other_levels_never_retry p false
              [Boundary.ErrorBelow e "in Chart"; Boundary.TimerDue;
               Boundary.ManualRetry; Boundary.ErrorBelow e "in Chart"] Hlevel)
    as (Htimers & _ & Hrender).
  split; [exact Htimers|]. simpl in Hrender. fold after in Hrender.
  unfold Boundary.render. rewrite <- Hrender. reflexivity.
Defined.

(** The default fallbacks of a feature and of a component boundary offer the
    retry button only while no retry has been counted, say "Retrying..."
    after the first and the second, and after the third show neither: then
    nothing on the fallback leads back to the children. *)
Lemma default_fallback_by_retryCount (p : Boundary.Props) (s : Boundary.State)
    (pg : Boundary.Page) :
  let n := Boundary.retryCount s in
  match default Boundary.component (Boundary.level p) with
  | Boundary.page =>
      Boundary.renderDefaultFallback p s pg
        = Boundary.PageError (if Boundary.development pg then Boundary.error s else None)
  | Boundary.feature =>
      Boundary.renderDefaultFallback p s pg
        = Boundary.FeatureUnavailable
            (if bool_decide (1 ≤ n ≤ 2) then Some (n, 3) else None)
            (bool_decide (n = 0))
  | Boundary.component =>
      Boundary.renderDefaultFallback p s pg
        = Boundary.ComponentFailed (bool_decide (1 ≤ n ≤ 2)) (bool_decide (n = 0))
  end.
Proof.
  intros n. unfold Boundary.renderDefaultFallback, Boundary.maxRetries. fold n.
  assert ((0 <? n) && (n <? 3) = bool_decide (1 ≤ n ≤ 2)) as ->.
  { destruct (Nat.ltb_spec 0 n), (Nat.ltb_spec n 3); simpl; symmetry;
      (apply bool_decide_eq_true_2 || apply bool_decide_eq_false_2); lia. }
  assert ((n <? 3) && negb (bool_decide (1 ≤ n ≤ 2)) = bool_decide (n = 0)) as ->.
  { destruct (Nat.ltb_spec n 3); case_bool_decide; simpl; symmetry;
      (apply bool_decide_eq_true_2 || apply bool_decide_eq_false_2); lia. }
  by destruct (default Boundary.component (Boundary.level p)).
Qed.

(** The events of errors each followed by the timer coming due. *)
Lemma run_app (events more : list Boundary.Event) (start : Boundary.Instance * Boundary.Page) :
  Boundary.run (events ++ more) start = Boundary.run more (Boundary.run events start).
Proof. unfold Boundary.run. apply fold_left_app. Qed.

Lemma failures_counted (p : Boundary.Props) (development : bool)
    (failures : list (Boundary.Error * string)) :
  Boundary.level p = Some Boundary.component →
  let after :=
    Boundary.run
      (flat_map (λ f, [Boundary.ErrorBelow f.1 f.2; Boundary.TimerDue]) failures)
      (Boundary.mount p development) in
  Boundary.props after.1 = p ∧
  Boundary.timers after.2 = [] ∧
  Boundary.retryCount (Boundary.st after.1) = length failures `min` 3.
Proof.
  intros Hlevel. induction failures as [|f failures IH] using rev_ind; [done|].
  rewrite flat_map_app, run_app. simpl.
  set (before := Boundary.run _ _) in *. destruct IH as (Hp & Hts & Hn).
  destruct before as [inst pg]. simpl in Hp, Hts, Hn.
  unfold Boundary.run. cbn [fold_left Boundary.step].
  destruct (caught_cases f.1 f.2 inst pg) as (Hp' & Hst' & Hcases).
  destruct (Boundary.caught f.1 f.2 inst pg) as [inst' pg'].
  simpl in Hp', Hst', Hcases. rewrite length_app. simpl.
  destruct Hcases as [(_ & Hlt & _ & Htimers) | ([Hl | Hge] & _ & Htimers)].
  - rewrite Htimers, Hts.
    assert (match Boundary.retryTimeoutId inst with
            | Some old => filter (λ t, Boundary.timer_id t ≠ old) []
            | None => []
            end = ([] : list Boundary.Timer)) as -> by (by destruct (Boundary.retryTimeoutId inst)).
    simpl. unfold Boundary.fire. simpl. rewrite Htimers, Hts, Hst'. simpl.
    split; [congruence|]. split.
    + destruct (Boundary.retryTimeoutId inst); simpl;
        by rewrite filter_cons_False, filter_nil by (intros ?; done).
    + lia.
  - rewrite Hp in Hl. done.
  - rewrite Htimers, Hts. simpl. rewrite Hst'. simpl. split; [congruence|].
    split; [congruence|]. lia.
Qed.

(** A component boundary below which rendering fails again after every
    retry.  After [n] failures, each followed by its timer, [min n 3] retries
    are counted and no timer is pending.  The next failure sets a retry after
    [2^n * 1000] ms if [n < 3]; from the fourth failure on no timer is set and
    the default fallback shows neither "Retrying..." nor the button. *)
Theorem boundary_gives_up_after_three (p : Boundary.Props) (development : bool)
    (failures : list (Boundary.Error * string)) (e : Boundary.Error) (info : string) :
  Boundary.level p = Some Boundary.component →
  Boundary.fallback p = None →
  let n := length failures in
  let after :=
    Boundary.run
      (flat_map (λ f, [Boundary.ErrorBelow f.1 f.2; Boundary.TimerDue]) failures
       ++ [Boundary.ErrorBelow e info])
      (Boundary.mount p development) in
  Boundary.retryCount (Boundary.st after.1) = n `min` 3 ∧
  (n < 3 →
   ∃ id, Boundary.timers after.2 = [Boundary.mkTimer id (2 ^ n * 1000) Boundary.retry_cb]) ∧
  (3 ≤ n → Boundary.timers after.2 = []) ∧
  Boundary.render p (Boundary.st after.1) after.2
    = Boundary.Renders
        (Boundary.ComponentFailed (bool_decide (1 ≤ n ≤ 2)) (bool_decide (n = 0))).
Proof.
  intros Hlevel Hfallback n after.
  destruct (failures_counted p development failures Hlevel) as (Hp & Hts & Hn).
  unfold after. rewrite run_app.
  destruct (Boundary.run (flat_map _ failures) _) as [inst pg].
  simpl in Hp, Hts, Hn. fold n in Hn.
  unfold Boundary.run. cbn [fold_left Boundary.step].
  destruct (caught_cases e info inst pg) as (Hp' & Hst' & Hcases).
  destruct (Boundary.caught e info inst pg) as [inst' pg'].
  simpl in Hp', Hst', Hcases |- *. rewrite Hst'. simpl.
  split; [done|]. split; [|split].
  - intros Hlt. destruct Hcases as [(_ & _ & _ & ->) | ([Hl | Hge] & _)].
    + rewrite Hts, Hn.
      replace (n `min` 3) with n by lia.
      destruct (Boundary.retryTimeoutId inst); simpl; eexists; reflexivity.
    + rewrite Hp in Hl. done.
    + lia.
  - intros Hge. destruct Hcases as [(_ & Hlt & _) | (_ & _ & ->)]; [lia|done].
  - unfold Boundary.render. simpl. rewrite Hfallback.
    unfold Boundary.renderDefaultFallback, Boundary.maxRetries. rewrite Hlevel. simpl.
    rewrite Hn. f_equal.
    destruct (decide (n = 0)) as [->|?]; [done|].
    destruct (decide (n = 1)) as [->|?]; [done|].
    destruct (decide (n = 2)) as [->|?]; [done|].
    replace (n `min` 3) with 3 by lia. simpl.
    rewrite !bool_decide_eq_false_2 by lia. done.
Qed.

Lemma boundary_gives_up_after_three_witness :
  let p := Boundary.mkProps (Boundary.Given 0) None false (Some Boundary.component) None in
  let e := Boundary.mkError "Cannot read properties of undefined" None in
  let after :=
    Boundary.run
      (flat_map (λ f, [Boundary.ErrorBelow f.1 f.2; Boundary.TimerDue])
         [(e, "in Widget"); (e, "in Widget"); (e, "in Widget")]
       ++ [Boundary.ErrorBelow e "in Widget"])
      (Boundary.mount p true) in
  Boundary.level p = Some Boundary.component ∧
  Boundary.fallback p = None ∧
  Boundary.timers after.2 = [] ∧
  Boundary.render p (Boundary.st after.1) after.2
    = Boundary.Renders (Boundary.ComponentFailed false false).
Proof.
  intros p e after.
  split; [reflexivity|]. split; [reflexivity|].
  destruct (boundary_gives_up_after_three p true
              [(e, "in Widget"); (e, "in Widget"); (e, "in Widget")] e "in Widget"
              eq_refl eq_refl) as (_ & _ & Hnone & Hrender).
  split; [apply Hnone; simpl; lia | exact Hrender].
Defined.

(** * More of the lazy import *)

Lemma backoff_halves (retryCount : nat) :
  S retryCount ≤ 1077 →
  (LazyImport.backoff retryCount == 2 * LazyImport.backoff (S retryCount))%Q.
Proof.
  intros Hrange. rewrite !backoff_exact by lia.
  replace (3 - Z.of_nat retryCount)%Z with (1 + (3 - Z.of_nat (S retryCount)))%Z by lia.
  rewrite Qpower_plus by discriminate. change (2 ^ 1)%Q with 2%Q. ring.
Qed.

Lemma backoff_range (retryCount : nat) :
  (0 <= LazyImport.backoff retryCount ∧ LazyImport.backoff retryCount <= 8000)%Q ∧
  (retryCount ≤ 1077 → (0 < LazyImport.backoff retryCount)%Q).
Proof.
  induction retryCount as [|retryCount [[IHpos IHle] IHlt]].
  - split; [split|]; intros; reflexivity || discriminate.
  - destruct (decide (S retryCount ≤ 1077)) as [Hrange|Hrange].
    + pose proof (backoff_halves retryCount Hrange) as Hhalf.
      specialize (IHlt ltac:(lia)). split; [split|intros _]; lra.
    + pose proof (backoff_underflow (S retryCount) ltac:(lia)) as Hzero.
      split; [split; lra|]. intros Hle. lia.
Qed.

(** The delay for the count [retryCount `min` 1077], the last that is not 0,
    is the sum of the next delay and of what then remains. *)
Lemma backoff_last_step (retryCount : nat) :
  (LazyImport.backoff (retryCount `min` 1077)
   == LazyImport.backoff (S retryCount) + LazyImport.backoff (S retryCount `min` 1077))%Q.
Proof.
  destruct (decide (S retryCount ≤ 1077)) as [Hrange|Hrange].
  - rewrite !Nat.min_l by lia. rewrite (backoff_halves retryCount Hrange). ring.
  - rewrite !Nat.min_r by lia.
    rewrite (backoff_underflow (S retryCount)) by lia. ring.
Qed.

Lemma total_wait_bound {T : Type} (importFn : nat → T + value) (retryCount made : nat) :
  (0 <= LazyImport.total_wait (LazyImport.retryImport importFn retryCount made).1 ∧
   LazyImport.total_wait (LazyImport.retryImport importFn retryCount made).1
     <= 8000 - LazyImport.backoff (retryCount `min` 1077))%Q ∧
  ((∀ i, i ≤ retryCount → Spec.rejected (importFn (made + i)) = true) →
   (LazyImport.total_wait (LazyImport.retryImport importFn retryCount made).1
    == 8000 - LazyImport.backoff (retryCount `min` 1077))%Q).
Proof.
  revert made. induction retryCount as [|retryCount IH]; intros made.
  - simpl. destruct (importFn made); simpl; repeat split; try discriminate;
      intros; reflexivity.
  - pose proof (backoff_last_step retryCount) as Hstep.
    pose proof (backoff_range (S retryCount)) as [[Hpos Hle] _].
    pose proof (backoff_range (S retryCount `min` 1077)) as [[Hpos' Hle'] _].
    pose proof (backoff_range (retryCount `min` 1077)) as [[_ Hle''] _].
    destruct (importFn made) as [module|error] eqn:Hfirst.
    + cbn [LazyImport.retryImport]. rewrite Hfirst.
      cbn [fst LazyImport.total_wait fold_right]. clear IH.
      split; [split; lra|].
      intros Hall. specialize (Hall 0 ltac:(lia)).
      rewrite Nat.add_0_r, Hfirst in Hall. done.
    + rewrite (retryImport_rejected _ _ _ error Hfirst). cbn [fst].
      destruct (IH (S made)) as [[IH0 IHle] IHall].
      change (LazyImport.total_wait
                (LazyImport.Attempt :: LazyImport.Wait (LazyImport.backoff (S retryCount))
                 :: (LazyImport.retryImport importFn retryCount (S made)).1))
        with (LazyImport.backoff (S retryCount)
              + LazyImport.total_wait
                  (LazyImport.retryImport importFn retryCount (S made)).1)%Q.
      split; [split; lra|].
      intros Hall. rewrite IHall; [lra|].
      intros i Hi. replace (S made + i) with (made + S i) by lia. apply Hall. lia.
Qed.

(** [retryImport] never waits eight seconds in all, whatever [retryCount] is.
    The waits add up to at most [8000 - d] ms, and to exactly that when every
    attempt fails, where [d] is the last delay that is not 0: the delay
    [2^(3 - retryCount) * 1000] itself for a count up to 1077, and
    [2^-1074 * 1000] above, where the first delays are 0.  An import that
    loads at the first attempt is not delayed at all. *)
Theorem retryImport_total_wait {T : Type} (importFn : nat → T + value) (retryCount : nat) :
  let events := (LazyImport.retryImport importFn retryCount 0).1 in
  let d := LazyImport.backoff (retryCount `min` 1077) in
  (d == Qpower 2 (3 - Z.of_nat (retryCount `min` 1077)) * 1000)%Q ∧
  (0 <= LazyImport.total_wait events ∧
   LazyImport.total_wait events <= 8000 - d ∧
   LazyImport.total_wait events < 8000)%Q ∧
  ((∀ i, i ≤ retryCount → Spec.rejected (importFn i) = true) →
   (LazyImport.total_wait events == 8000 - d)%Q) ∧
  (1078 ≤ retryCount → Spec.rejected (importFn 0) = true →
   ∃ rest, events = LazyImport.Attempt :: LazyImport.Wait (LazyImport.backoff retryCount)
                    :: rest ∧
           (LazyImport.backoff retryCount == 0)%Q) ∧
  (Spec.rejected (importFn 0) = false → events = [LazyImport.Attempt]).
Proof.
  intros events d.
  destruct (total_wait_bound importFn retryCount 0) as [[H0 Hle] Hall].
  pose proof (backoff_range (retryCount `min` 1077)) as [_ Hpos].
  specialize (Hpos ltac:(lia)).
  fold events in H0, Hle, Hall. fold d in Hle, Hall, Hpos.
  split; [unfold d; by rewrite backoff_exact by lia|].
  split; [repeat split; lra|]. split; [|split].
  - intros Hfail. apply Hall. intros i Hi. by apply Hfail.
  - intros Hrange Hfirst. unfold events.
    destruct retryCount as [|retryCount]; [lia|].
    destruct (importFn 0) as [module|error] eqn:Hsettled; [done|].
    rewrite (retryImport_rejected _ _ _ error Hsettled). cbn [fst].
    eexists. split; [reflexivity|]. by apply backoff_underflow.
  - intros Hfirst. unfold events.
    destruct retryCount; simpl; destruct (importFn 0); done.
Qed.

(** * More of the error reporting service *)

(** After [clearErrors] the list is empty and nothing is stored; the reports
    that follow are kept as from a fresh service, the last hundred of them. *)
Theorem clearErrors_starts_afresh {Err Ctx Report : Type} (build : Err → Ctx → Report)
    (stringify : list Report → option string) (svc : Reporting.Service Report)
    (calls : list (Err * Ctx)) :
  let cleared := Reporting.clearErrors svc in
  Reporting.errors cleared = [] ∧
  getItem (Reporting.localStorage cleared) "error_reports" = None ∧
  Reporting.errors (Reporting.report_all build stringify calls cleared)
    = Spec.most_recent 100 ((λ call, build call.1 call.2) <$> calls).
Proof.
  intros cleared. split; [done|]. split; [apply lookup_removeItem|].
  apply errors_report_all.
Qed.

Lemma flush_loop_calls (api : nat → bool) (pending : list Reports.ErrorReport)
    (log : Reports.Sending) :
  Reports.api_calls (Reports.flush_loop api pending log) = Reports.api_calls log ++ pending.
Proof.
  revert log. induction pending as [|report pending IH]; intros log; simpl.
  - by rewrite app_nil_r.
  - unfold Reports.sendError. destruct (api _); rewrite IH; simpl; by rewrite <- app_assoc.
Qed.

(** [flushPendingErrors] never stops at a failure: [sendError] catches the
    rejection of the API itself, so the [break] of the loop is never reached.
    Every stored report is sent, in order, whatever the API answers, those
    already sent before included; and the promise of [sendError] never
    rejects. *)
Theorem flush_sends_everything (api : nat → bool) (svc : Reporting.Service Reports.ErrorReport)
    (log : Reports.Sending) :
  Reports.api_calls (Reports.flushPendingErrors api svc log)
    = Reports.api_calls log ++ Reporting.errors svc ∧
  (∀ report log', (Reports.sendError api report log').2 = false).
Proof.
  split; [apply flush_loop_calls|].
  intros report log'. unfold Reports.sendError. by destruct (api _).
Qed.

Lemma starts_with_spec (needle hay : Reports.jsstring) :
  Reports.starts_with needle hay = true ↔ ∃ rest, hay = needle ++ rest.
Proof.
  revert hay. induction needle as [|c needle IH]; intros hay; simpl.
  - split; [|done]. intros _. by exists hay.
  - destruct hay as [|d hay].
    + split; [done|]. by intros [rest ?].
    + rewrite andb_true_iff, N.eqb_eq, IH. split.
      * intros [-> [rest ->]]. by exists rest.
      * intros [rest [= -> ->]]. split; [done|]. by exists rest.
Qed.

(** [includes] finds the texts that have the needle somewhere in them. *)
Lemma includes_spec (hay needle : Reports.jsstring) :
  Reports.includes hay needle = true ↔ ∃ before after, hay = before ++ needle ++ after.
Proof.
  induction hay as [|c hay IH]; simpl.
  - rewrite orb_false_r, starts_with_spec. split.
    + intros [rest Hrest]. by exists [], rest.
    + intros (before & after & Heq). symmetry in Heq.
      apply app_nil in Heq as [-> Heq]. apply app_nil in Heq as [-> ->]. by exists [].
  - rewrite orb_true_iff, starts_with_spec, IH. split.
    + intros [[rest Hrest] | (before & after & ->)].
      * by exists [], rest.
      * by exists (c :: before), after.
    + intros ([|d before] & after & Heq); simpl in Heq.
      * left. by exists after.
      * injection Heq as -> ->. right. by exists before, after.
Qed.

(** The severity of a report.  It is critical exactly for a page-level
    context or a message that has "auth" in it (as "author" has); high
    exactly for the others that are feature-level or have "fetch" or
    "network" in the message; medium exactly for the others that are
    component-level with a positive [retryCount]; and low for the rest.  So
    for any other level ('global', 'async', 'performance', 'unknown', ...)
    the message alone decides, between critical, high and low. *)
Theorem severity_table (e : Reports.JsError) (context : Reports.ErrorContext) :
  let has word := ∃ before after,
    Reports.message e = before ++ Reports.text word ++ after in
  let at_level name := Reports.level context = Some (Reports.text name) in
  let is_critical := at_level "page" ∨ has "auth" in
  let is_high := at_level "feature" ∨ has "fetch" ∨ has "network" in
  let is_medium := at_level "component" ∧ (0 < default 0 (Reports.retryCount context))%Z in
  (Reports.determineSeverity e context = Reports.critical ↔ is_critical) ∧
  (Reports.determineSeverity e context = Reports.high ↔ ¬ is_critical ∧ is_high) ∧
  (Reports.determineSeverity e context = Reports.medium
   ↔ ¬ is_critical ∧ ¬ is_high ∧ is_medium) ∧
  (Reports.determineSeverity e context = Reports.low
   ↔ ¬ is_critical ∧ ¬ is_high ∧ ¬ is_medium) ∧
  (¬ at_level "page" → ¬ at_level "feature" → ¬ at_level "component" →
   Reports.determineSeverity e context
   = if Reports.includes (Reports.message e) (Reports.text "auth") then Reports.critical
     else if Reports.includes (Reports.message e) (Reports.text "fetch")
             || Reports.includes (Reports.message e) (Reports.text "network")
          then Reports.high
          else Reports.low).
Proof.
  intros has at_level is_critical is_high is_medium.
  assert (∀ name, Reports.level_is context name = true ↔ at_level name) as Hlevel.
  { intros name. unfold Reports.level_is. apply bool_decide_eq_true. }
  assert (∀ word, Reports.includes (Reports.message e) (Reports.text word) = true ↔ has word)
    as Hhas.
  { intros word. apply includes_spec. }
  assert (Reports.level_is context "page"
          || Reports.includes (Reports.message e) (Reports.text "auth") = true
          ↔ is_critical) as Hcritical.
  { by rewrite orb_true_iff, Hlevel, Hhas. }
  assert (Reports.level_is context "feature"
          || Reports.includes (Reports.message e) (Reports.text "fetch")
          || Reports.includes (Reports.message e) (Reports.text "network") = true
          ↔ is_high) as Hhigh.
  { rewrite !orb_true_iff, Hlevel, !Hhas. unfold is_high. tauto. }
  assert (Reports.level_is context "component"
          && (0 <? default 0 (Reports.retryCount context))%Z = true
          ↔ is_medium) as Hmedium.
  { by rewrite andb_true_iff, Hlevel, Z.ltb_lt. }
  unfold Reports.determineSeverity.
  split; [|split; [|split; [|split]]].
  5: { intros Hpage Hfeature Hcomponent.
       rewrite <- Hlevel in Hpage, Hfeature, Hcomponent.
       apply not_true_is_false in Hpage, Hfeature, Hcomponent.
       rewrite Hpage, Hfeature, Hcomponent. simpl.
       by destruct (Reports.includes _ _), (Reports.includes _ _), (Reports.includes _ _). }
  all: clear Hlevel Hhas; revert Hcritical Hhigh Hmedium;
       generalize is_critical is_high is_medium;
       generalize (Reports.level_is context "page"
                   || Reports.includes (Reports.message e) (Reports.text "auth"));
       generalize (Reports.level_is context "feature"
                   || Reports.includes (Reports.message e) (Reports.text "fetch")
                   || Reports.includes (Reports.message e) (Reports.text "network"));
       generalize (Reports.level_is context "component"
                   && (0 <? default 0 (Reports.retryCount context))%Z);
       intros m h c C H M HC HH HM;
       destruct c, h, m; intuition (try discriminate; try congruence).
Qed.

Lemma count_reports (reports : list Reports.ErrorReport) (stats : Reports.Stats) :
  let counted := fold_left Reports.count_report reports stats in
  Reports.total counted = Reports.total stats ∧
  Reports.recent counted = Reports.recent stats ∧
  (∀ s, Reports.bySeverity counted s
        = Reports.bySeverity stats s
          + length (filter (λ r, Reports.severity r = s) reports)).
Proof.
  revert stats. induction reports as [|r reports IH]; intros stats; simpl.
  - repeat split; intros; try rewrite filter_nil; simpl; lia.
  - destruct (IH (Reports.count_report stats r)) as (Htotal & Hrecent & Hsev).
    split; [by rewrite Htotal|]. split; [by rewrite Hrecent|].
    intros s. rewrite Hsev. simpl. rewrite filter_cons.
    case_bool_decide; case_decide; simpl; try lia; congruence.
Qed.

Lemma proto_inherited : Reports.text "__proto__" ∈ Reports.text <$> Reports.Object_prototype.
Proof. vm_compute. do 10 right. left. Qed.

(** The count of a level that is not a property of [Object.prototype]:
    [n0] so far, and one more for each report at that level. *)
Lemma count_reports_level (reports : list Reports.ErrorReport) (stats : Reports.Stats)
    (lv : Reports.jsstring) (n0 : nat) :
  lv ∉ Reports.text <$> Reports.Object_prototype →
  Reports.byLevel stats !! lv = (if decide (n0 = 0) then None else Some (Reports.Count n0)) →
  let n := n0 + length (filter (λ r, Reports.or_else (Reports.level (Reports.context r))
                                       (Reports.text "unknown") = lv) reports) in
  Reports.byLevel (fold_left Reports.count_report reports stats) !! lv
  = if decide (n = 0) then None else Some (Reports.Count n).
Proof.
  intros Hown. revert stats n0.
  induction reports as [|r reports IH]; intros stats n0 Hn0; simpl.
  - by rewrite Nat.add_0_r.
  - cbv zeta. rewrite filter_cons.
    destruct (decide (Reports.or_else (Reports.level (Reports.context r))
                        (Reports.text "unknown") = lv)) as [Hlv|Hlv].
    + cbn [length]. rewrite Nat.add_succ_r, <- Nat.add_succ_l.
      apply (IH _ (S n0)). simpl.
      rewrite Hlv. rewrite bool_decide_eq_false_2.
      * rewrite lookup_insert_eq. unfold Reports.next_tally. rewrite Hn0.
        case_decide as Hzero.
        -- subst n0. by rewrite bool_decide_eq_false_2.
        -- by rewrite Nat.add_1_r.
      * intros ->. apply Hown, proto_inherited.
    + apply IH. simpl. case_bool_decide; [done|]. by rewrite lookup_insert_ne.
Qed.

(** Under a property name of [Object.prototype] there is never a count. *)
Lemma count_reports_inherited (reports : list Reports.ErrorReport) (stats : Reports.Stats)
    (lv : Reports.jsstring) :
  lv ∈ Reports.text <$> Reports.Object_prototype →
  (∀ n, Reports.byLevel stats !! lv ≠ Some (Reports.Count n)) →
  ∀ n, Reports.byLevel (fold_left Reports.count_report reports stats) !! lv
       ≠ Some (Reports.Count n).
Proof.
  intros Hin. revert stats.
  induction reports as [|r reports IH]; intros stats Hstats; simpl; [done|].
  apply IH. intros n. simpl. case_bool_decide; [done|].
  destruct (decide (Reports.or_else (Reports.level (Reports.context r))
                      (Reports.text "unknown") = lv)) as [->|Hne].
  - rewrite lookup_insert_eq. unfold Reports.next_tally.
    destruct (Reports.byLevel stats !! lv) as [[m|]|] eqn:Hlookup; [|done|].
    + by destruct (Hstats m).
    + by rewrite bool_decide_eq_true_2.
  - by rewrite lookup_insert_ne.
Qed.

Lemma severities_partition (reports : list Reports.ErrorReport) :
  length (filter (λ r, Reports.severity r = Reports.critical) reports)
  + length (filter (λ r, Reports.severity r = Reports.high) reports)
  + length (filter (λ r, Reports.severity r = Reports.medium) reports)
  + length (filter (λ r, Reports.severity r = Reports.low) reports)
  = length reports.
Proof.
  induction reports as [|r reports IH]; [done|].
  rewrite !filter_cons. destruct (Reports.severity r);
    repeat case_decide; try done; simpl; lia.
Qed.

(** [getErrorStats] counts every report once: [total] is the number of
    reports, the count of each severity is the number of reports that have it,
    the four add up to [total], and [recent] is the last five.  Under a level
    there is the number of reports at that level, those without a level or
    with an empty one being counted under 'unknown', and nothing when there
    is no such report; except under the names of the properties of
    [Object.prototype] ('constructor', 'toString', ...), where there is
    never a count. *)
Theorem getErrorStats_counts (svc : Reporting.Service Reports.ErrorReport) :
  let stats := Reports.getErrorStats svc in
  let reports := Reporting.errors svc in
  let at_level lv :=
    length (filter (λ r, Reports.or_else (Reports.level (Reports.context r))
                           (Reports.text "unknown") = lv) reports) in
  Reports.total stats = length reports ∧
  (∀ s, Reports.bySeverity stats s
        = length (filter (λ r, Reports.severity r = s) reports)) ∧
  Reports.bySeverity stats Reports.critical + Reports.bySeverity stats Reports.high
    + Reports.bySeverity stats Reports.medium + Reports.bySeverity stats Reports.low
    = Reports.total stats ∧
  Reports.recent stats = Spec.most_recent 5 reports ∧
  (∀ lv, lv ∉ Reports.text <$> Reports.Object_prototype →
         Reports.byLevel stats !! lv
         = if decide (at_level lv = 0) then None else Some (Reports.Count (at_level lv))) ∧
  (∀ lv n, lv ∈ Reports.text <$> Reports.Object_prototype →
           Reports.byLevel stats !! lv ≠ Some (Reports.Count n)).
Proof.
  intros stats reports at_level. unfold stats, Reports.getErrorStats. fold reports.
  destruct (count_reports reports
              (Reports.mkStats (length reports) (λ _, 0) ∅ (Reporting.slice_last 5 reports)))
    as (Htotal & Hrecent & Hsev).
  split; [by rewrite Htotal|]. split; [intros s; by rewrite Hsev|].
  split; [rewrite !Hsev, Htotal; simpl; apply severities_partition|].
  split; [rewrite Hrecent; simpl; apply slice_last_most_recent; lia|].
  split.
  - intros lv Hown. by apply (count_reports_level reports _ lv 0).
  - intros lv n Hin. by apply count_reports_inherited.
Qed.

(** *** The fingerprint *)

Lemma narrow_false (s : Reports.jsstring) :
  forallb (λ c, c <=? 255)%N s = false ↔ ∃ c, c ∈ s ∧ (255 < c)%N.
Proof.
  induction s as [|c s IH]; simpl.
  - split; [done|]. intros (c & Hc & _). by apply elem_of_nil in Hc.
  - destruct (N.leb_spec c 255) as [Hle|Hgt]; simpl.
    + rewrite IH. split.
      * intros (d & Hd & Hbig). exists d. split; [by right|done].
      * intros (d & Hd & Hbig). apply elem_of_cons in Hd as [->|Hd]; [lia|by exists d].
    + split; [|done]. intros _. exists c. split; [by left|done].
Qed.

Lemma btoa_None (s : Reports.jsstring) :
  Reports.btoa s = None ↔ ∃ c, c ∈ s ∧ (255 < c)%N.
Proof.
  rewrite <- narrow_false. unfold Reports.btoa.
  by destruct (forallb _ s).
Qed.

Lemma base64_char_range (i : N) :
  let c := Reports.base64_char i in
  ((48 ≤ c ≤ 57) ∨ (65 ≤ c ≤ 90) ∨ (97 ≤ c ≤ 122) ∨ c = 43 ∨ c = 47)%N.
Proof.
  unfold Reports.base64_char.
  destruct (N.ltb_spec i 26); [lia|]. destruct (N.ltb_spec i 52); [lia|].
  destruct (N.ltb_spec i 62); [lia|]. destruct (N.eqb_spec i 62); lia.
Qed.

Lemma base64_chars (bytes : list N) :
  Forall (λ c, (48 ≤ c ≤ 57) ∨ (65 ≤ c ≤ 90) ∨ (97 ≤ c ≤ 122) ∨ c = 43 ∨ c = 47 ∨ c = 61)%N
    (Reports.base64 bytes).
Proof.
  assert (∀ i, let c := Reports.base64_char i in
               (48 ≤ c ≤ 57) ∨ (65 ≤ c ≤ 90) ∨ (97 ≤ c ≤ 122) ∨ c = 43 ∨ c = 47 ∨ c = 61)%N
    as Hchar.
  { intros i. pose proof (base64_char_range i). simpl in *. tauto. }
  remember (length bytes) as n eqn:Hn.
  assert (length bytes ≤ n) as Hlen by lia. clear Hn.
  revert bytes Hlen. induction n as [|n IH]; intros bytes Hlen.
  - destruct bytes; [constructor|simpl in Hlen; lia].
  - destruct bytes as [|a [|b [|c rest]]]; cbn [Reports.base64].
    + constructor.
    + repeat (constructor; [first [apply Hchar | lia]|]). constructor.
    + repeat (constructor; [first [apply Hchar | lia]|]). constructor.
    + repeat (constructor; [apply Hchar|]). apply IH. simpl in Hlen. lia.
Qed.

Lemma fingerprint_chars (encoded : list N) :
  Forall (λ c, (48 ≤ c ≤ 57) ∨ (65 ≤ c ≤ 90) ∨ (97 ≤ c ≤ 122))%N
    (take 16 (filter (λ c, c ≠ 43 ∧ c ≠ 47 ∧ c ≠ 61)%N (Reports.base64 encoded))).
Proof.
  apply Forall_take, Forall_forall. intros c Hc.
  apply list_elem_of_filter in Hc as [Hnot Hc].
  pose proof (base64_chars encoded) as Hall.
  rewrite Forall_forall in Hall. apply Hall in Hc. lia.
Qed.

(** The fingerprint of a report is made of at most 16 letters and digits.
    There is none, [btoa] throwing, exactly when the name or the message of
    the error or the level or the identifier of the context has a code unit
    above 255; then [reportError] throws too, and stores nothing. *)
Theorem fingerprint_shape (e : Reports.JsError) (context : Reports.ErrorContext) :
  let key := Reports.name e ++ Reports.text "_" ++ Reports.message e ++ Reports.text "_"
             ++ Reports.shown (Reports.level context) ++ Reports.text "_"
             ++ Reports.shown (Reports.identifier context) in
  let wide := ∃ c, c ∈ key ∧ (255 < c)%N in
  match Reports.generateFingerprint e context with
  | Some fp =>
      ¬ wide ∧ length fp ≤ 16 ∧
      Forall (λ c, (48 ≤ c ≤ 57) ∨ (65 ≤ c ≤ 90) ∨ (97 ≤ c ≤ 122))%N fp
  | None => wide
  end ∧
  (∀ env stringify svc,
     Reports.reportError env stringify e context svc = None ↔ wide) ∧
  (∀ env stringify svc svc',
     Reports.reportError env stringify e context svc = Some svc' →
     ∃ report, Reporting.errors svc'
               = Spec.most_recent 100 (Reporting.errors svc ++ [report]) ∧
       Reports.error report = e ∧
       Some (Reports.fingerprint report) = Reports.generateFingerprint e context).
Proof.
  intros key wide.
  pose proof (btoa_None key) as Hnone. fold wide in Hnone.
  unfold Reports.reportError, Reports.generateFingerprint. fold key.
  destruct (Reports.btoa key) as [encoded|] eqn:Hbtoa.
  - assert (¬ wide) as Hnarrow by (intros Hwide; by apply Hnone in Hwide).
    split; [|split].
    + split; [done|]. split; [rewrite length_take; lia|].
      unfold Reports.btoa in Hbtoa. destruct (forallb _ key); [|done].
      injection Hbtoa as <-. apply fingerprint_chars.
    + intros env stringify svc. split; [done|]. intros Hwide. by destruct Hnarrow.
    + intros env stringify svc svc' [= <-].
      eexists. split; [apply errors_storeError|]. done.
  - split; [|split].
    + by apply Hnone.
    + intros env stringify svc. split; [intros _; by apply Hnone|done].
    + intros env stringify svc svc' [=].
Qed.

(** *** Performance issues *)

(** [reportPerformanceIssue] reports nothing unless the value is above the
    threshold.  When it is, and the metric has no code unit above 255, one
    report is stored: its context has the level 'performance', the metric as
    identifier and, under 'severity', 'high' for a value above twice the
    threshold and 'medium' otherwise; but the severity of the report itself is
    never medium: it is what the message alone gives. *)
Theorem performance_issue_report (env : Reports.Env)
    (stringify : list Reports.ErrorReport → option string) (stack : option Reports.jsstring)
    (metric : Reports.jsstring) (value threshold : Q)
    (svc : Reporting.Service Reports.ErrorReport) :
  let result := Reports.reportPerformanceIssue env stringify stack metric value threshold svc in
  let message := Reports.text "Performance issue: " ++ metric in
  ((value <= threshold)%Q → result = Some svc) ∧
  ((threshold < value)%Q →
   match result with
   | Some svc' =>
       (∀ c, c ∈ metric → (c ≤ 255)%N) ∧
       ∃ report,
         Reporting.errors svc' = Spec.most_recent 100 (Reporting.errors svc ++ [report]) ∧
         Reports.message (Reports.error report) = message ∧
         Reports.level (Reports.context report) = Some (Reports.text "performance") ∧
         Reports.identifier (Reports.context report) = Some metric ∧
         Reports.others (Reports.context report) !! "severity"
         = Some (Reports.XText (if Qlt_le_dec (threshold * 2) value
                                then Reports.text "high" else Reports.text "medium")) ∧
         Reports.severity report ≠ Reports.medium ∧
         Reports.severity report
         = (if Reports.includes message (Reports.text "auth") then Reports.critical
            else if Reports.includes message (Reports.text "fetch")
                    || Reports.includes message (Reports.text "network")
                 then Reports.high
                 else Reports.low)
   | None => ∃ c, c ∈ metric ∧ (255 < c)%N
   end).
Proof.
  intros result message. unfold result, Reports.reportPerformanceIssue.
  destruct (Qlt_le_dec threshold value) as [Hgt|Hle].
  - split; [intros Hle; by apply Qle_not_lt in Hle|]. intros _.
    unfold Reports.reportError, Reports.generateFingerprint.
    cbn [Reports.name Reports.message Reports.level Reports.identifier Reports.shown default].
    match goal with |- context [Reports.btoa ?k] => set (key := k) end.
    pose proof (btoa_None key) as Hnone.
    assert (∀ c, c ∈ key → (255 < c)%N → c ∈ metric) as Hmetric.
    { assert (∀ word, word ∈ ["Error"; "_"; "Performance issue: "; "performance"] →
                      Forall (λ c, c ≤ 255)%N (Reports.text word)) as Hnarrow.
      { intros word Hword. rewrite !elem_of_cons, elem_of_nil in Hword.
        destruct Hword as [->|[->|[->|[->|[]]]]]; vm_compute;
          repeat (constructor; [discriminate|]); constructor. }
      intros c Hc Hbig. unfold key in Hc. rewrite !elem_of_app in Hc.
      assert (∀ word, word ∈ ["Error"; "_"; "Performance issue: "; "performance"] →
                      c ∉ Reports.text word) as Hnot.
      { intros word Hword Hin. apply Hnarrow in Hword.
        rewrite Forall_forall in Hword. apply Hword in Hin. lia. }
      destruct Hc as [Hc|[Hc|[[Hc|Hc]|[Hc|[Hc|[Hc|Hc]]]]]]; try done;
        exfalso; revert Hc; apply Hnot; rewrite !elem_of_cons; tauto. }
    destruct (Reports.btoa key) as [encoded|] eqn:Hbtoa.
    + split.
      * intros c Hc. apply N.le_ngt. intros Hbig.
        assert (Some encoded = None) as Habs; [|done].
        apply Hnone. exists c. split; [|done]. unfold key.
        rewrite !elem_of_app. tauto.
      * eexists. split; [apply errors_storeError|].
        cbn [Reports.error Reports.context Reports.severity Reports.message
             Reports.level Reports.identifier Reports.others Reports.report_context].
        split; [done|]. split; [done|]. split; [done|].
        split; [by rewrite lookup_insert_ne, lookup_insert_ne, lookup_insert_eq|].
        unfold Reports.determineSeverity, Reports.level_is.
        cbn [Reports.message Reports.level Reports.retryCount].
        fold message.
        rewrite !bool_decide_eq_false_2 by (intros Heq; vm_compute in Heq; discriminate).
        cbn [orb andb].
        destruct (Reports.includes message (Reports.text "auth")); [done|].
        by destruct (Reports.includes message (Reports.text "fetch")
                     || Reports.includes message (Reports.text "network")).
    + destruct (proj1 Hnone eq_refl) as (c & Hc & Hbig).
      exists c. split; [by apply Hmetric|done].
  - split; [done|]. intros Hgt. by apply Qle_not_lt in Hle.
Qed.

(** * The auth store *)

Section AuthFrames.
Import Store.
Context (P : Platform) (st : Store).

Lemma lookup_setState (p : obj) w (key : string) :
  state (setState P st (PartialObject p) w) !! key
  = match p !! key with Some v => Some v | None => state w !! key end.
Proof. rewrite setState_state. apply lookup_spread. Qed.

End AuthFrames.

Lemma authStore_store (P : Platform) (ls : Storage) :
  (Auth.authStore P ls).1 = Store.mkStore "auth" (Some "auth-state") true.
Proof.
  unfold Auth.authStore, Store.createStore. simpl.
  by destruct (Store.load_persisted _ _ _ _).
Qed.

(** Reads a field of the state after some [setState]s with given objects. *)
Ltac read_field :=
  repeat first
    [ rewrite lookup_setState;
      match goal with
      | |- context [match ?p !! ?k with Some _ => _ | None => _ end] =>
          let r := eval vm_compute in (p !! k) in
          change (p !! k) with r; cbv beta iota
      end
    | progress cbn [Store.state Store.with_localStorage] ].

Lemma auth_token_frame (P : Platform) (ls : Storage) partial w :
  getItem (Store.localStorage (Store.setState P (Auth.authStore P ls).1 partial w)) "auth-token"
  = getItem (Store.localStorage w) "auth-token".
Proof. apply getItem_setState_other. by rewrite authStore_store. Qed.


(** A full storage: the state is not persisted and the token is not stored,
    yet the state says authenticated. *)
Example login_without_token :
  let P := SampleJSON.platform in
  let heap := Auth.mkHeap (λ message, VStr message) (VStr "QuotaExceededError") (λ user _, user) in
  let ls := mkStorage ∅ 0 in
  let '(st, w) := Auth.authStore P ls in
  let '(w', result) :=
    Auth.login P st heap (λ _, Auth.Ok (VRef 1, "secret"))
      (Auth.mkCredentials "ana@example.org" "password") w in
  result = inr (VStr "QuotaExceededError") ∧
  Store.getState w' !! "isAuthenticated" = Some (VBool true) ∧
  Store.getState w' !! "loginError" = Some (VStr "QuotaExceededError") ∧
  getItem (Store.localStorage w') "auth-token" = None.
Proof. vm_compute. done. Qed.





(** A store never loses a field: whatever is in storage when it is created
    and whatever updates follow, its state has every field of
    [initialState]. *)
Theorem store_keeps_fields (P : Platform) (initialState : obj)
    (options : Store.StoreOptions) (ls : Storage) (partials : list Store.Partial) :
  let created := Store.createStore P initialState options ls in
  let w := fold_left (λ w partial, Store.setState P created.1 partial w) partials created.2 in
  ∀ key, is_Some (initialState !! key) → is_Some (Store.getState w !! key).
Proof.
  intros created w key Hkey. rewrite <- elem_of_dom in *.
  unfold w, Store.getState. apply dom_setState_list.
  destruct (createStore_parts P initialState options ls) as (_ & Hstate & _).
  fold created in Hstate. rewrite Hstate. by apply dom_load_persisted.
Qed.

Lemma store_keeps_fields_witness :
  let P := SampleJSON.platform in
  let initialState : obj := {[ "count" := VNum 0 ]} in
  let options := Store.mkOptions None (Some "settings") None in
  let created := Store.createStore P initialState options (mkStorage ∅ 1000) in
  let w := fold_left (λ w partial, Store.setState P created.1 partial w)
             [Store.PartialObject {[ "theme" := VStr "dark" ]}] created.2 in
  is_Some (initialState !! "count") ∧ is_Some (Store.getState w !! "count").
Proof.
  intros P initialState options created w.
  assert (is_Some (initialState !! "count")) as Hfield by (by exists (VNum 0)).
  split; [exact Hfield|].
  exact (store_keeps_fields P initialState options (mkStorage ∅ 1000)
           [Store.PartialObject {[ "theme" := VStr "dark" ]}] "count" Hfield).
Defined.

(** * More of the login schema *)

(** What [loginSchema] returns has the two fields and nothing else, whatever
    else the input had, and parsing it again returns it unchanged. *)
Theorem loginSchema_strips (input data : gmap string Login.jsvalue) :
  Login.safeParse Login.loginSchema input = Login.Success data →
  dom data = {[ "emailOrUsername"; "password" ]} ∧
  (∀ key, key ≠ "emailOrUsername" → key ≠ "password" → data !! key = None) ∧
  Login.safeParse Login.loginSchema data = Login.Success data.
Proof.
  rewrite safeParse_loginSchema. cbv zeta. case_bool_decide as Hnone; [|done].
  intros [= <-]. split; [|split].
  - by rewrite !dom_insert_L, dom_empty_L, (right_id_L ∅ (∪)).
  - intros key He Hp. by rewrite !lookup_insert_ne, lookup_empty by done.
  - rewrite safeParse_loginSchema. cbv zeta.
    rewrite lookup_insert_eq, lookup_insert_ne, lookup_insert_eq by done.
    cbn [default]. by rewrite bool_decide_eq_true_2.
Qed.

Lemma loginSchema_strips_witness :
  let input : gmap string Login.jsvalue :=
    {[ "emailOrUsername" := Login.JString (Login.code_units "ana@example.org");
       "password" := Login.JString (Login.code_units "secret1");
       "remember" := Login.JBoolean true ]} in
  let data : gmap string Login.jsvalue :=
    {[ "emailOrUsername" := Login.JString (Login.code_units "ana@example.org");
       "password" := Login.JString (Login.code_units "secret1") ]} in
  Login.safeParse Login.loginSchema input = Login.Success data ∧
  data !! "remember" = None ∧
  Login.safeParse Login.loginSchema data = Login.Success data.
Proof.
  intros input data.
  assert (Login.safeParse Login.loginSchema input = Login.Success data) as Hparse
    by (vm_compute; reflexivity).
  destruct (loginSchema_strips input data Hparse) as (_ & Hother & Hagain).
  split; [exact Hparse|]. split; [|exact Hagain].
  apply Hother; discriminate.
Defined.

Lemma plain_not_space (l : list N) :
  Forall Spec.plain l →
  Forall (λ c, Login.is_space c = false) l ∧ filter (λ c, c = Login.at_sign) l = [].
Proof.
  induction 1 as [|c l [Hspace Hat] _ [IH1 IH2]]; [done|].
  split; [by constructor|]. rewrite filter_cons. by case_decide.
Qed.

Lemma username_char_not_space (c : N) :
  Spec.username_char c → Login.is_space c = false ∧ c ≠ Login.at_sign.
Proof.
  unfold Spec.username_char, Login.at_sign. intros Hc. split; [|lia].
  apply not_true_iff_false. unfold Login.is_space.
  rewrite !orb_true_iff, !andb_true_iff, !N.leb_le, !N.eqb_eq. lia.
Qed.

(** An identifier that the refinement of [emailOrUsername] accepts has three
    characters or more, no white space, and at most one [@]; so the rule
    [min(1)] before it rejects nothing that the refinement would accept. *)
Theorem accepted_identifier_shape (s : Login.jsstring) :
  Login.email_or_username s = true →
  3 ≤ length s ∧
  Forall (λ c, Login.is_space c = false) s ∧
  length (filter (λ c, c = Login.at_sign) s) ≤ 1.
Proof.
  rewrite email_or_username_true. unfold Login.jsstring in *.
  intros [(name & domain & rest & -> & Hname & Hdomain & Hrest & Pname & Pdomain & Prest)
         | [Hlen Hchars]].
  - apply plain_not_space in Pname as [Sname Aname], Pdomain as [Sdomain Adomain],
      Prest as [Srest Arest].
    split; [|split].
    + rewrite !length_app. destruct name, domain, rest; simpl; try done; lia.
    + rewrite !Forall_app. repeat split; try done; by repeat constructor.
    + rewrite !filter_app, Aname, Adomain, Arest. by vm_compute.
  - split; [done|]. split.
    + eapply Forall_impl; [exact Hchars|]. intros c Hc.
      by apply username_char_not_space.
    + replace (filter (λ c, c = Login.at_sign) s) with (@nil N); [simpl; lia|].
      symmetry. clear Hlen. induction Hchars as [|c l Hc _ IH]; [done|].
      apply username_char_not_space in Hc as [_ Hc].
      rewrite filter_cons. by case_decide.
Qed.

Lemma accepted_identifier_shape_witness :
  let s := Login.code_units "a@b.c" in
  Login.email_or_username s = true ∧ 3 ≤ length s ∧
  length (filter (λ c, c = Login.at_sign) s) ≤ 1.
Proof.
  intros s.
  assert (Login.email_or_username s = true) as Haccepted by (vm_compute; reflexivity).
  destruct (accepted_identifier_shape s Haccepted) as (Hlen & _ & Hat).
  split; [exact Haccepted|]. split; [exact Hlen | exact Hat].
Defined.
